(** * Lapse: client-side video assembly ([videoProcessing.ts])

    A shallow embedding of [apps/web/src/client/videoProcessing.ts] and of the
    helpers it imports from [shared/common.ts] and [shared/constants.ts].

    Modelling conventions.
    - A JavaScript [number] that carries media time is an exact rational
      ([Q]); rounding of IEEE doubles is not modelled.  Pixel sizes, session
      ids and chunk timestamps are integers ([Z]).
    - [await] is sequential composition: the file is single threaded and no
      claim depends on interleaving.
    - The browser and the mediabunny library are an explicit environment
      record of oracles; what the code observes of them (a null track, a null
      decoder configuration, a null buffer, a failing tier) is a field.
    - A call into mediabunny that the code awaits may reject.  In
      [videoConcat] none of them is inside a [try]: [getPrimaryVideoTrack],
      [getFirstEncodableVideoCodec], [out.start], [getDecoderConfig], the
      iteration over the packets or samples with the calls of its body, and
      [out.finalize]; in [makeThumbnail] they come before its [try]:
      [getPrimaryVideoTrack], [canDecode], [getFirstTimestamp],
      [computeDuration] and [canvasesAtTimestamps].  Each has a [Completion]
      for its answer, or an error field beside it.  The constructor of the
      encoded-packet source throws on a null codec.
    - [throw] is the [Throw] completion; [console.warn], [alert],
      [source.add] and [dispose] are recorded in an explicit [World].
      [console.log] lines are not recorded. *)

From Stdlib Require Import QArith Qround ZArith List Bool String Lia Lqa.
From Stdlib Require Import Sorting.Sorted Sorting.Permutation.
Import ListNotations.

Open Scope Q_scope.

(** ** shared/constants.ts *)

Definition TIMELAPSE_FRAME_LENGTH_MS : Q := 2.5 * 1000.
Definition TIMELAPSE_FPS : Q := 24.
Definition THUMBNAIL_SIZE : Z := 640.

(** ** Completions: a normal value or a thrown [Error(message)] *)

Inductive Completion (A : Type) : Type :=
| Normal (a : A)
| Throw (message : string).
Arguments Normal {A} a.
Arguments Throw {A} message.

Definition is_throw {A} (c : Completion A) : bool :=
  match c with Throw _ => true | Normal _ => false end.

(** shared/common.ts, [assert]: throws [Error(message)] when the condition
    is false. *)
Definition assert (condition : bool) (message : string) : Completion unit :=
  if condition then Normal tt else Throw message.

(** ** Media data *)

(** An encoded packet or a decoded sample: the loops of [videoConcat] read
    and rewrite only [timestamp] and [duration]; [data] stands for the
    payload bytes or pixels, which are carried over unchanged. *)
Module Unit.
Record t : Type := mk { timestamp : Q; duration : Q; data : N }.
End Unit.

(** mediabunny's [VideoCodec] string union. *)
Inductive VideoCodec : Type := avc | hevc | vp9 | av1 | vp8.

Definition DecoderConfig := N.

(** What the code reads of a mediabunny [InputVideoTrack]. *)
Module Track.
Record t : Type := mk {
  codec : option VideoCodec;
  codedWidth : Z;
  codedHeight : Z;
  displayWidth : Z;
  displayHeight : Z;
  (* [await video.getDecoderConfig()]: a configuration, null, or a
     rejection *)
  getDecoderConfig : Completion (option DecoderConfig);
  (* [for await (const packet of new EncodedPacketSink(video).packets())]:
     the packets the loop goes through, and the rejection, if any, that then
     ends it: of the iterator, of [packet.clone] or of [source.add] *)
  packets : list Unit.t;
  packetsError : option string;
  (* the same for [new VideoSampleSink(video).samples()], with
     [setTimestamp], [setDuration] and [source.add] *)
  samples : list Unit.t;
  samplesError : option string
}.
End Track.

(** A unit handed to the output source by [source.add]; the remux path
    passes the decoder configuration along with the packet. *)
Module Added.
Record t : Type := mk {
  timestamp : Q;
  duration : Q;
  data : N;
  decoderConfig : option DecoderConfig
}.
End Added.

Inductive VideoSource : Type :=
| EncodedVideoPacketSource (codec : option VideoCodec)
| VideoSampleSource (codec : VideoCodec).

Inductive Warning : Type :=
| WarnNullPrimaryTrack
| WarnZeroDuration (u : Unit.t)
| WarnThumbnailFailed
| WarnFallbackFailed
| WarnBlackImage
| WarnNoMiddleCanvas.

(** The effects a run leaves behind. *)
Record World : Type := mkWorld {
  warnings : list Warning;     (* console.warn, oldest first *)
  alerts : list string;        (* alert(...) *)
  videoTrack : option VideoSource;  (* out.addVideoTrack(source, ...) *)
  added : list Added.t;        (* source.add(...), oldest first *)
  disposed : list nat          (* indices of the inputs disposed *)
}.

Definition world0 : World := mkWorld [] [] None [] [].

Definition warn (x : Warning) (w : World) : World :=
  mkWorld (warnings w ++ [x]) (alerts w) (videoTrack w) (added w) (disposed w).
Definition alert (m : string) (w : World) : World :=
  mkWorld (warnings w) (alerts w ++ [m]) (videoTrack w) (added w) (disposed w).
Definition addVideoTrack (s : VideoSource) (w : World) : World :=
  mkWorld (warnings w) (alerts w) (Some s) (added w) (disposed w).
Definition source_add (a : Added.t) (w : World) : World :=
  mkWorld (warnings w) (alerts w) (videoTrack w) (added w ++ [a]) (disposed w).
Definition dispose (i : nat) (w : World) : World :=
  mkWorld (warnings w) (alerts w) (videoTrack w) (added w) (disposed w ++ [i]).

(** ** The time rebasing loops of [videoConcat] *)

(** [const timeScale = (1000 / TIMELAPSE_FRAME_LENGTH_MS) / TIMELAPSE_FPS] *)
Definition timeScale : Q := (1000 / TIMELAPSE_FRAME_LENGTH_MS) / TIMELAPSE_FPS.

(** The two loop-local variables of one session. *)
Record Local : Type := mkLocal {
  localFirstTimestamp : option Q;
  localLastTimestamp : Q
}.

Definition local0 : Local := mkLocal None 0.

(** [for await (const packet of sink.packets())] and
    [for await (const sample of sink.samples())]: the two bodies are the same
    statement for statement; [cfg] is [Some decoderConfig] on the remux path
    (passed to [source.add]) and [None] on the transcode path. *)
Fixpoint for_units (cfg : option DecoderConfig) (globalTimeOffset : Q)
    (units : list Unit.t) (l : Local) (w : World) : Local * World :=
  match units with
  | [] => (l, w)
  | u :: rest =>
      if Qeq_bool (Unit.duration u) 0 then
        for_units cfg globalTimeOffset rest l (warn (WarnZeroDuration u) w)
      else
        let origTimestamp := Unit.timestamp u in
        let first :=
          match localFirstTimestamp l with
          | None => origTimestamp
          | Some f => f
          end in
        let relTimestamp := origTimestamp - first in
        let w' :=
          source_add
            (Added.mk (relTimestamp * timeScale + globalTimeOffset)
                      (Unit.duration u * timeScale)
                      (Unit.data u) cfg) w in
        for_units cfg globalTimeOffset rest (mkLocal (Some first) origTimestamp) w'
  end.

(** One iteration of [for (const video of inputPrimaryTracks)]: the new
    [globalTimeOffset], or what ended the iteration: a rejection of
    [getDecoderConfig], the failed assertion on the decoder configuration, or
    a rejection inside the loop over the units, after the units it went
    through.  The two [assert(source instanceof ...)] hold by the
    construction of [source] from [canRemux] and are left out. *)
Definition for_track (canRemux : bool) (video : Track.t)
    (globalTimeOffset : Q) (w : World) : Completion Q * World :=
  match Track.getDecoderConfig video with
  | Throw e => (Throw e, w)
  | Normal None => (Throw "Could not get the decoder config from the input", w)
  | Normal (Some decoderConfig) =>
      let '(l, w') :=
        if canRemux
        then for_units (Some decoderConfig) globalTimeOffset (Track.packets video) local0 w
        else for_units None globalTimeOffset (Track.samples video) local0 w in
      match (if canRemux then Track.packetsError video else Track.samplesError video) with
      | Some e => (Throw e, w')
      | None =>
          match localFirstTimestamp l with
          | Some first =>
              (Normal (globalTimeOffset + (localLastTimestamp l - first) * timeScale), w')
          | None => (Normal globalTimeOffset, w')
          end
      end
  end.

Fixpoint for_tracks (canRemux : bool) (tracks : list Track.t)
    (globalTimeOffset : Q) (w : World) : Completion Q * World :=
  match tracks with
  | [] => (Normal globalTimeOffset, w)
  | video :: rest =>
      match for_track canRemux video globalTimeOffset w with
      | (Normal g, w') => for_tracks canRemux rest g w'
      | (Throw e, w') => (Throw e, w')
      end
  end.

(** ** Blobs, canvases and the environment *)

Inductive Pixels : Type :=
| Blank                 (* a canvas nobody drew on *)
| SolidBlack            (* fillStyle "#000000"; fillRect over the whole canvas *)
| Frame (id : N).       (* a decoded video frame *)

Module Canvas.
Record t : Type := mk {
  width : Z;
  height : Z;
  pixels : Pixels;
  isHTMLCanvasElement : bool   (* otherwise an OffscreenCanvas *)
}.
End Canvas.

Inductive BlobParts : Type :=
| Bytes (bytes : list N)
| JpegOf (canvas : Canvas.t).   (* the JPEG encoding of a canvas *)

Module Blob.
Record t : Type := mk { parts : BlobParts; type : string }.
End Blob.

Module VideoElement.
Record t : Type := mk { videoWidth : Z; videoHeight : Z; frame : N }.
End VideoElement.

Definition ArrayBuffer := list N.

(** What the code observes of mediabunny and of the browser.  A call into
    either returns normally unless its field says otherwise. *)
Record Env : Type := mkEnv {
  (* [await new Input({source: new BlobSource(x), ...}).getPrimaryVideoTrack()]:
     a track, null, or a rejection *)
  getPrimaryVideoTrack : Blob.t -> Completion (option Track.t);
  (* [out.format.getSupportedVideoCodecs()] of the [MkvOutputFormat] *)
  getSupportedVideoCodecs : list VideoCodec;
  (* [await mediabunny.getFirstEncodableVideoCodec(codecs, {width, height})]:
     a codec, null, or a rejection *)
  getFirstEncodableVideoCodec :
    list VideoCodec -> Z -> Z -> Completion (option VideoCodec);
  (* [bufTarget.buffer] once [out.finalize()] has run *)
  bufTarget_buffer : VideoSource -> list Added.t -> option ArrayBuffer;
  (* [await video.canDecode()] *)
  canDecode : Track.t -> Completion bool;
  devicePixelRatio : Q;
  (* [await video.getFirstTimestamp()] and [await video.computeDuration()] *)
  getFirstTimestamp : Track.t -> Completion Q;
  computeDuration : Track.t -> Completion Q;
  (* [await Array.fromAsync(new CanvasSink(video, {width, height, fit})
     .canvasesAtTimestamps([t]))] *)
  canvasesAtTimestamps :
    Track.t -> Z -> Z -> Q -> Completion (list (option Canvas.t));
  (* whether [canvas.toBlob(resolve, "image/jpeg")] resolves to a blob
     rather than to null *)
  toBlob : Canvas.t -> bool;
  convertToBlob : Canvas.t -> Completion Blob.t;
  (* the video element fires [onloadeddata] ([Some]) or [onerror] ([None]) *)
  loadeddata : Blob.t -> option VideoElement.t;
  (* whether [canvas.getContext("2d")] is non-null *)
  getContext2d : Canvas.t -> bool;
  (* the message of the [TypeError] with which mediabunny's
     [EncodedVideoPacketSource] constructor refuses a codec that is none of
     its video codecs *)
  codecTypeError : string;
  (* [await out.start()], for the track added *)
  out_start : VideoSource -> Completion unit;
  (* [await out.finalize()], for the track added and the units written *)
  out_finalize : VideoSource -> list Added.t -> Completion unit
}.

(** ** [videoConcat] *)

(** JavaScript [==] on [VideoCodec | null]. *)
Definition codec_eq (a b : option VideoCodec) : bool :=
  match a, b with
  | None, None => true
  | Some avc, Some avc | Some hevc, Some hevc | Some vp9, Some vp9
  | Some av1, Some av1 | Some vp8, Some vp8 => true
  | _, _ => false
  end.

(** The callback of [inputPrimaryTracks.every(...)]. *)
Definition sameParameters (firstTrack x : Track.t) : bool :=
  codec_eq (Track.codec firstTrack) (Track.codec x) &&
  (Track.codedWidth firstTrack =? Track.codedWidth x)%Z &&
  (Track.codedHeight firstTrack =? Track.codedHeight x)%Z &&
  (Track.displayWidth firstTrack =? Track.displayWidth x)%Z &&
  (Track.displayHeight firstTrack =? Track.displayHeight x)%Z.

(** [.filter(x => { if (x == null) console.warn(...); return x != null; })] *)
Fixpoint filterTracks (tracks : list (option Track.t)) (w : World)
    : list Track.t * World :=
  match tracks with
  | [] => ([], w)
  | None :: rest => filterTracks rest (warn WarnNullPrimaryTrack w)
  | Some x :: rest =>
      let '(kept, w') := filterTracks rest w in (x :: kept, w')
  end.

(** [inputs.forEach(x => x.dispose())] *)
Definition disposeAll (n : nat) (w : World) : World :=
  fold_left (fun w i => dispose i w) (seq 0 n) w.

(** [await Promise.all(promises)]: the values, or a rejection when one of
    the promises rejects.  Of several rejections [Promise.all] passes on the
    one that settles first; the first in array order stands for it. *)
Fixpoint Promise_all {A : Type} (promises : list (Completion A))
    : Completion (list A) :=
  match promises with
  | [] => Normal []
  | Throw e :: _ => Throw e
  | Normal a :: rest =>
      match Promise_all rest with
      | Throw e => Throw e
      | Normal values => Normal (a :: values)
      end
  end.

(** [new mediabunny.EncodedVideoPacketSource(codec!)]: the [!] is erased at
    run time, and the constructor throws on a null codec. *)
Definition newEncodedVideoPacketSource (env : Env) (codec : option VideoCodec)
    : Completion VideoSource :=
  match codec with
  | None => Throw (codecTypeError env)
  | Some _ => Normal (EncodedVideoPacketSource codec)
  end.

Definition videoConcat (env : Env) (streams : list Blob.t) (w : World)
    : Completion ArrayBuffer * World :=
  let inputs := streams in
  match assert (0 <? List.length inputs)%nat "No inputs were passed to concat()." with
  | Throw e => (Throw e, w)
  | Normal _ =>
      match Promise_all (map (getPrimaryVideoTrack env) inputs) with
      | Throw e => (Throw e, w)
      | Normal tracks =>
          let '(inputPrimaryTracks, w) := filterTracks tracks w in
          match inputPrimaryTracks with
          | [] => (Throw "No inputs had any primary video tracks!", w)
          | firstTrack :: _ =>
              let supportedCodecs := getSupportedVideoCodecs env in
              match getFirstEncodableVideoCodec env supportedCodecs
                      (Track.codedWidth firstTrack) (Track.codedHeight firstTrack) with
              | Throw e => (Throw e, w)
              | Normal None =>
                  (Throw "This browser does not support video encoding.",
                   alert "Your browser doesn't seem to support video encoding." w)
              | Normal (Some videoCodec) =>
                  let canRemux :=
                    forallb (sameParameters firstTrack) inputPrimaryTracks in
                  match (if canRemux
                         then newEncodedVideoPacketSource env (Track.codec firstTrack)
                         else Normal (VideoSampleSource videoCodec)) with
                  | Throw e => (Throw e, w)
                  | Normal source =>
                      let w := addVideoTrack source w in
                      match out_start env source with
                      | Throw e => (Throw e, w)
                      | Normal _ =>
                          match for_tracks canRemux inputPrimaryTracks 0 w with
                          | (Throw e, w) => (Throw e, w)
                          | (Normal _, w) =>
                              match out_finalize env source (added w) with
                              | Throw e => (Throw e, w)
                              | Normal _ =>
                                  let w := disposeAll (List.length inputs) w in
                                  match bufTarget_buffer env source (added w) with
                                  | None => (Throw "bufTarget.buffer was null.", w)
                                  | Some buffer => (Normal buffer, w)
                                  end
                              end
                          end
                      end
                  end
              end
          end
      end
  end.

(** ** [mergeVideoSessions] *)

(** A chunk of a [LocalTimelapse] (client/deviceStorage): the code reads its
    [data], [session] and [timestamp]. *)
Module Chunk.
Record t : Type := mk { data : list N; session : Z; timestamp : Z }.
End Chunk.

Module LocalTimelapse.
Record t : Type := mk { chunks : list Chunk.t }.
End LocalTimelapse.

(** shared/common.ts, [ascending(picker)]. *)
Definition ascending {T : Type} (picker : T -> Z) : T -> T -> Z :=
  fun a b => (picker a - picker b)%Z.

(** [Array.prototype.toSorted(compare)], a stable sort: an element goes in
    front of the first later element that does not compare below it. *)
Fixpoint insertSorted {T : Type} (compare : T -> T -> Z) (x : T) (l : list T)
    : list T :=
  match l with
  | [] => [x]
  | y :: l' =>
      if (compare x y <=? 0)%Z then x :: y :: l'
      else y :: insertSorted compare x l'
  end.

Fixpoint toSorted {T : Type} (compare : T -> T -> Z) (l : list T) : list T :=
  match l with
  | [] => []
  | x :: l' => insertSorted compare x (toSorted compare l')
  end.

(** [Object.groupBy(items, x => x.session)]: a property per key, created
    when the key is first seen; later items are pushed onto its array. *)
Fixpoint addToGroup (key : Z) (x : Chunk.t) (groups : list (Z * list Chunk.t))
    : list (Z * list Chunk.t) :=
  match groups with
  | [] => [(key, [x])]
  | (k, xs) :: rest =>
      if (key =? k)%Z then (k, xs ++ [x]) :: rest
      else (k, xs) :: addToGroup key x rest
  end.

Definition groupBy (items : list Chunk.t) : list (Z * list Chunk.t) :=
  fold_left (fun groups x => addToGroup (Chunk.session x) x groups) items [].

(** A property key that is an array index. *)
Definition isArrayIndex (key : Z) : bool :=
  ((0 <=? key) && (key <? 2 ^ 32 - 1))%Z.

(** [Object.entries]: own property order, the array indices in ascending
    order first, then the other keys in the order of their creation. *)
Definition entries (groups : list (Z * list Chunk.t)) : list (Z * list Chunk.t) :=
  toSorted (ascending fst) (filter (fun g => isArrayIndex (fst g)) groups)
  ++ filter (fun g => negb (isArrayIndex (fst g))) groups.

(** An array is truthy, empty or not. *)
Definition truthy {T : Type} (a : list T) : bool := true.

Module Segment.
Record t : Type := mk { session : Z; chunks : list Chunk.t }.
End Segment.

(** The [segmented] constant of [mergeVideoSessions]. *)
Definition segmented (timelapse : LocalTimelapse.t) : list Segment.t :=
  map (fun x => Segment.mk (fst x) (toSorted (ascending Chunk.timestamp) (snd x)))
      (filter (fun x => truthy (snd x))
              (entries (groupBy (LocalTimelapse.chunks timelapse)))).

(** [new Response(x).blob()] gives back the bytes of [x], so [streamBytes]
    is [streams]; the browser's own [Blob], [Response] and [Object.groupBy]
    are taken to return. *)
Definition mergeVideoSessions (env : Env) (timelapse : LocalTimelapse.t) (w : World)
    : Completion Blob.t * World :=
  if (List.length (LocalTimelapse.chunks timelapse) =? 0)%nat then
    (Throw "No chunks were found when stopping the recording. Have we forgotten to capture any?!", w)
  else
    let segmented := segmented timelapse in
    if (List.length segmented =? 0)%nat then
      (Throw "Timelapse chunk segmentation resulted in an empty array", w)
    else
      let streams :=
        map (fun x => Blob.mk (Bytes (List.concat (map Chunk.data (Segment.chunks x))))
                              "video/webm") segmented in
      match videoConcat env streams w with
      | (Throw e, w) => (Throw e, w)
      | (Normal concatenated, w) => (Normal (Blob.mk (Bytes concatenated) EmptyString), w)
      end.

(** ** Thumbnails *)

(** The [dimension] arrow function of both tiers. *)
Definition dimension (d1 d2 : Z) : Z :=
  if (d1 >? d2)%Z then THUMBNAIL_SIZE
  else Qfloor (inject_Z (THUMBNAIL_SIZE * d1) / inject_Z d2).

(** [Math.floor(x * window.devicePixelRatio)] *)
Definition timesPixelRatio (env : Env) (x : Z) : Z :=
  Qfloor (inject_Z x * devicePixelRatio env).

Definition jpeg (canvas : Canvas.t) : Blob.t :=
  Blob.mk (JpegOf canvas) "image/jpeg".

Definition makeThumbnail (env : Env) (videoBlob : Blob.t) (w : World)
    : Completion Blob.t * World :=
  match getPrimaryVideoTrack env videoBlob with
  | Throw e => (Throw e, w)
  | Normal None =>
      (Throw "Attempted to generate a thumbnail for a video without a video track.", w)
  | Normal (Some video) =>
      (* [video.codec == null || !(await video.canDecode())] *)
      match (match Track.codec video with
             | None => Normal true
             | Some _ =>
                 match canDecode env video with
                 | Normal decodable => Normal (negb decodable)
                 | Throw e => Throw e
                 end
             end) with
      | Throw e => (Throw e, w)
      | Normal true => (Throw "Unsupported codec. Try using a different browser.", w)
      | Normal false =>
          let width := dimension (Track.displayWidth video) (Track.displayHeight video) in
          let height := dimension (Track.displayHeight video) (Track.displayWidth video) in
          let sink :=
            canvasesAtTimestamps env video
              (timesPixelRatio env width) (timesPixelRatio env height) in
          match getFirstTimestamp env video with
          | Throw e => (Throw e, w)
          | Normal begin =>
              match computeDuration env video with
              | Throw e => (Throw e, w)
              | Normal end_ =>
                  match sink (begin + (end_ - begin) / 2) with
                  | Throw e => (Throw e, w)
                  | Normal canvases =>
                      let '(thumbCanvas, w) :=
                        match canvases with
                        | Some c :: _ => (Normal c, w)
                        | _ =>
                            let w := warn WarnNoMiddleCanvas w in
                            match sink begin with
                            | Throw e => (Throw e, w)
                            | Normal (Some c :: _) => (Normal c, w)
                            | Normal _ =>
                                (Throw "sink.canvasesAtTimestamps for first timestamp returned nothing or null", w)
                            end
                        end in
                      match thumbCanvas with
                      | Throw e => (Throw e, w)
                      | Normal thumbCanvas =>
                          (* try { ... } finally { input.dispose(); } *)
                          let result :=
                            if Canvas.isHTMLCanvasElement thumbCanvas then
                              if toBlob env thumbCanvas then Normal (jpeg thumbCanvas)
                              else Throw "Couldn't generate thumbnail - canvas.toBlob() returned null."
                            else convertToBlob env thumbCanvas in
                          (result, dispose 0 w)
                      end
                  end
              end
          end
      end
  end.

(** The [finally] block releases the object URL and the two elements, which
    the [World] does not record. *)
Definition makeFallbackThumbnail (env : Env) (videoBlob : Blob.t) (w : World)
    : Completion Blob.t * World :=
  match loadeddata env videoBlob with
  | None => (Throw "Failed to load video for thumbnail generation", w)
  | Some video =>
      let width := dimension (VideoElement.videoWidth video) (VideoElement.videoHeight video) in
      let height := dimension (VideoElement.videoHeight video) (VideoElement.videoWidth video) in
      let canvas :=
        Canvas.mk (timesPixelRatio env width) (timesPixelRatio env height) Blank true in
      if negb (getContext2d env canvas) then
        (Throw "Could not get 2D context from canvas", w)
      else
        let canvas :=
          Canvas.mk (Canvas.width canvas) (Canvas.height canvas)
                    (Frame (VideoElement.frame video)) true in
        if toBlob env canvas then (Normal (jpeg canvas), w)
        else (Throw "canvas.toBlob() returned null in fallback", w)
  end.

Definition getBlackImage (env : Env) (w : World) : Completion Blob.t * World :=
  let w := warn WarnBlackImage w in
  let canvas := Canvas.mk THUMBNAIL_SIZE THUMBNAIL_SIZE Blank true in
  let canvas :=
    if getContext2d env canvas
    then Canvas.mk (Canvas.width canvas) (Canvas.height canvas) SolidBlack true
    else canvas in
  if toBlob env canvas then (Normal (jpeg canvas), w)
  else (Normal (Blob.mk (Bytes []) "image/jpeg"), w).

Definition videoGenerateThumbnail (env : Env) (videoBlob : Blob.t) (w : World)
    : Completion Blob.t * World :=
  match makeThumbnail env videoBlob w with
  | (Normal blob, w) => (Normal blob, w)
  | (Throw _, w) =>
      let w := warn WarnThumbnailFailed w in
      match makeFallbackThumbnail env videoBlob w with
      | (Normal blob, w) => (Normal blob, w)
      | (Throw _, w) =>
          let w := warn WarnFallbackFailed w in
          getBlackImage env w
      end
  end.

(** ** Closed forms used in the statements *)

(** The test [unit.duration == 0] of both loops. *)
Definition skipped (u : Unit.t) : bool := Qeq_bool (Unit.duration u) 0.

(** The units of a session that get past the test, in order. *)
Definition kept (units : list Unit.t) : list Unit.t :=
  filter (fun u => negb (skipped u)) units.

(** The unit that [source.add] receives for [u]. *)
Definition rebase (cfg : option DecoderConfig) (first globalTimeOffset : Q)
    (u : Unit.t) : Added.t :=
  Added.mk ((Unit.timestamp u - first) * timeScale + globalTimeOffset)
           (Unit.duration u * timeScale) (Unit.data u) cfg.

(** [localFirstTimestamp] once a unit has been kept. *)
Definition anchor (l : Local) (ks : list Unit.t) : Q :=
  match localFirstTimestamp l with
  | Some f => f
  | None => match ks with k :: _ => Unit.timestamp k | [] => 0 end
  end.

Definition unitsOf (canRemux : bool) (video : Track.t) : list Unit.t :=
  if canRemux then Track.packets video else Track.samples video.

(** The decoder configuration that goes along with a unit. *)
Definition cfgOf (canRemux : bool) (video : Track.t) : option DecoderConfig :=
  if canRemux
  then match Track.getDecoderConfig video with
       | Normal decoderConfig => decoderConfig
       | Throw _ => None
       end
  else None.

(** [globalTimeOffset] after a session whose kept units are [ks]. *)
Definition advance (globalTimeOffset : Q) (ks : list Unit.t) : Q :=
  match ks with
  | [] => globalTimeOffset
  | k :: ks' =>
      globalTimeOffset + (Unit.timestamp (last ks' k) - Unit.timestamp k) * timeScale
  end.

(** What one session hands to [source.add]. *)
Definition sessionUnits (canRemux : bool) (video : Track.t) (globalTimeOffset : Q)
    : list Added.t :=
  let ks := kept (unitsOf canRemux video) in
  map (rebase (cfgOf canRemux video) (anchor local0 ks) globalTimeOffset) ks.

(** Whether a session gets past the assertion on its decoder
    configuration. *)
Definition configured (video : Track.t) : bool :=
  match Track.getDecoderConfig video with
  | Normal (Some _) => true
  | _ => false
  end.

(** The rejection, if any, that ends the loop over a session's units. *)
Definition loopError (canRemux : bool) (video : Track.t) : option string :=
  if canRemux then Track.packetsError video else Track.samplesError video.

(** What ends the run in a session, if anything does: a rejection of
    [getDecoderConfig], the assertion on a null configuration, or a rejection
    inside the loop over its units. *)
Definition sessionError (canRemux : bool) (video : Track.t) : option string :=
  match Track.getDecoderConfig video with
  | Throw e => Some e
  | Normal None => Some "Could not get the decoder config from the input"%string
  | Normal (Some _) => loopError canRemux video
  end.

(** What ends the run in the session loop, if anything does: the error of
    the first session that has one. *)
Fixpoint tracksError (canRemux : bool) (tracks : list Track.t) : option string :=
  match tracks with
  | [] => None
  | video :: rest =>
      match sessionError canRemux video with
      | Some e => Some e
      | None => tracksError canRemux rest
      end
  end.

(** The sessions whose units the loop hands over: those in front of the
    first session with an error, and that session too when it got past the
    assertion on its decoder configuration. *)
Fixpoint processed (canRemux : bool) (tracks : list Track.t) : list Track.t :=
  match tracks with
  | [] => []
  | video :: rest =>
      match sessionError canRemux video with
      | None => video :: processed canRemux rest
      | Some _ => if configured video then [video] else []
      end
  end.

(** [globalTimeOffset] after the sessions [tracks], started at [g]. *)
Fixpoint offsetAfter (canRemux : bool) (g : Q) (tracks : list Track.t) : Q :=
  match tracks with
  | [] => g
  | video :: rest =>
      offsetAfter canRemux (advance g (kept (unitsOf canRemux video))) rest
  end.

(** Everything the sessions [tracks] hand to [source.add]. *)
Fixpoint assembled (canRemux : bool) (g : Q) (tracks : list Track.t)
    : list Added.t :=
  match tracks with
  | [] => []
  | video :: rest =>
      sessionUnits canRemux video g
      ++ assembled canRemux (advance g (kept (unitsOf canRemux video))) rest
  end.

Definition zeroWarnings (canRemux : bool) (tracks : list Track.t) : list Warning :=
  flat_map (fun video => map WarnZeroDuration (filter skipped (unitsOf canRemux video)))
           tracks.

Fixpoint somes {A : Type} (l : list (option A)) : list A :=
  match l with
  | [] => []
  | None :: rest => somes rest
  | Some x :: rest => x :: somes rest
  end.

Fixpoint nones {A : Type} (l : list (option A)) : nat :=
  match l with
  | [] => 0
  | None :: rest => S (nones rest)
  | Some _ :: rest => nones rest
  end.

(** The rejection of [Promise.all] over the [getPrimaryVideoTrack] calls,
    if one of them rejects. *)
Definition rejected (env : Env) (streams : list Blob.t) : option string :=
  match Promise_all (map (getPrimaryVideoTrack env) streams) with
  | Throw e => Some e
  | Normal _ => None
  end.

(** The [inputPrimaryTracks] constant: the tracks of the sessions that
    survive the null filter.  It is bound only when no
    [getPrimaryVideoTrack] call rejects; there is no survivor otherwise. *)
Definition survivors (env : Env) (streams : list Blob.t) : list Track.t :=
  match Promise_all (map (getPrimaryVideoTrack env) streams) with
  | Normal tracks => somes tracks
  | Throw _ => []
  end.

(** The number of sessions the null filter drops. *)
Definition dropped (env : Env) (streams : list Blob.t) : nat :=
  match Promise_all (map (getPrimaryVideoTrack env) streams) with
  | Normal tracks => nones tracks
  | Throw _ => 0
  end.

(** The [canRemux] constant. *)
Definition remuxEligible (tracks : list Track.t) : bool :=
  match tracks with
  | [] => true
  | firstTrack :: _ => forallb (sameParameters firstTrack) tracks
  end.

(** The world after the null filter. *)
Definition afterFilter (env : Env) (streams : list Blob.t) (w : World) : World :=
  mkWorld (warnings w ++ repeat WarnNullPrimaryTrack (dropped env streams))
          (alerts w) (videoTrack w) (added w) (disposed w).

(** What the negotiation answers: a codec, null, or a rejection. *)
Definition negotiated (env : Env) (tracks : list Track.t)
    : Completion (option VideoCodec) :=
  match tracks with
  | [] => Normal None
  | firstTrack :: _ =>
      getFirstEncodableVideoCodec env (getSupportedVideoCodecs env)
        (Track.codedWidth firstTrack) (Track.codedHeight firstTrack)
  end.

(** The [source] constant, or the [TypeError] of its constructor. *)
Definition newSource (env : Env) (tracks : list Track.t) (videoCodec : VideoCodec)
    : Completion VideoSource :=
  match tracks with
  | [] => Normal (VideoSampleSource videoCodec)
  | firstTrack :: _ =>
      if forallb (sameParameters firstTrack) tracks
      then newEncodedVideoPacketSource env (Track.codec firstTrack)
      else Normal (VideoSampleSource videoCodec)
  end.

(** The sessions whose units a run hands over: none unless [out.start()]
    has resolved. *)
Definition sessionsRun (env : Env) (source : VideoSource) (tracks : list Track.t)
    : list Track.t :=
  match out_start env source with
  | Normal _ => processed (remuxEligible tracks) tracks
  | Throw _ => []
  end.

(** [m] is the rejection of one of the calls into mediabunny that a run on
    [streams] makes. *)
Definition libraryRejection (env : Env) (streams : list Blob.t) (m : string) : Prop :=
  let tracks := survivors env streams in
  (exists x, In x streams /\ getPrimaryVideoTrack env x = Throw m) \/
  negotiated env tracks = Throw m \/
  (m = codecTypeError env /\ remuxEligible tracks = true /\
   exists firstTrack others,
     tracks = firstTrack :: others /\ Track.codec firstTrack = None) \/
  (exists source, out_start env source = Throw m) \/
  (exists video,
     In video tracks /\
     (Track.getDecoderConfig video = Throw m \/
      loopError (remuxEligible tracks) video = Some m)) \/
  (exists source written, out_finalize env source written = Throw m).

(** ** Concrete environments and inputs used in the examples *)

(** The blob of the [i]-th session of an example. *)
Definition streamOf (i : nat) : Blob.t :=
  Blob.mk (Bytes [N.of_nat i]) "video/webm".

(** An environment in which the [i]-th example blob holds [nth i tracks],
    the encoder negotiation answers [encodable], the finalized buffer is
    [buffer], and no thumbnail tier works. *)
Definition exampleEnv (tracks : list (option Track.t))
    (encodable : option VideoCodec) (buffer : option ArrayBuffer) : Env :=
  mkEnv
    (fun x => match Blob.parts x with
              | Bytes [i] => Normal (nth (N.to_nat i) tracks None)
              | _ => Normal None
              end)
    [avc; hevc; vp9; av1; vp8]
    (fun _ _ _ => Normal encodable)
    (fun _ _ => buffer)
    (fun _ => Normal false) 1 (fun _ => Normal 0) (fun _ => Normal 0)
    (fun _ _ _ _ => Normal [])
    (fun _ => false)
    (fun _ => Throw "convertToBlob rejected")
    (fun _ => None)
    (fun _ => false)
    "Invalid video codec"
    (fun _ => Normal tt)
    (fun _ _ => Normal tt).

(** Scenario A: ten units, 2500 apart, each 2500 long. *)
Definition scenarioA_units : list Unit.t :=
  map (fun i => Unit.mk (inject_Z (2500 * Z.of_nat i)) 2500 (N.of_nat i)) (seq 0 10).

Definition scenarioA_track : Track.t :=
  Track.mk (Some avc) 1280 720 1280 720 (Normal (Some 7%N))
           scenarioA_units None scenarioA_units None.

Definition scenarioA_env : Env :=
  exampleEnv [Some scenarioA_track; Some scenarioA_track] (Some avc) (Some [1%N]).

(** A track without its zero-duration packets and samples. *)
Definition stripZero (video : Track.t) : Track.t :=
  Track.mk (Track.codec video) (Track.codedWidth video) (Track.codedHeight video)
           (Track.displayWidth video) (Track.displayHeight video)
           (Track.getDecoderConfig video)
           (kept (Track.packets video)) (Track.packetsError video)
           (kept (Track.samples video)) (Track.samplesError video).

(** The same environment, every track read without its zero-duration
    units. *)
Definition stripEnv (env : Env) : Env :=
  mkEnv (fun x => match getPrimaryVideoTrack env x with
                  | Normal video => Normal (option_map stripZero video)
                  | Throw e => Throw e
                  end)
        (getSupportedVideoCodecs env) (getFirstEncodableVideoCodec env)
        (bufTarget_buffer env) (canDecode env) (devicePixelRatio env)
        (getFirstTimestamp env) (computeDuration env) (canvasesAtTimestamps env)
        (toBlob env) (convertToBlob env) (loadeddata env) (getContext2d env)
        (codecTypeError env) (out_start env) (out_finalize env).

(** The five parameters on which the spec compares a track with the
    first. *)
Definition matchesOnAllFive (firstTrack x : Track.t) : Prop :=
  Track.codec x = Track.codec firstTrack /\
  Track.codedWidth x = Track.codedWidth firstTrack /\
  Track.codedHeight x = Track.codedHeight firstTrack /\
  Track.displayWidth x = Track.displayWidth firstTrack /\
  Track.displayHeight x = Track.displayHeight firstTrack.

(** Scenario A on a browser that can encode nothing. *)
Definition noEncoder_env : Env :=
  exampleEnv [Some scenarioA_track; Some scenarioA_track] None (Some [1%N]).

(** ** Closed forms of the session grouping *)

(** The distinct keys of a list, in the order in which they first appear. *)
Fixpoint firstSeen (keys : list Z) : list Z :=
  match keys with
  | [] => []
  | k :: rest => k :: filter (fun k' => negb (k' =? k)%Z) (firstSeen rest)
  end.

(** The group of a key: the items of that session, in input order. *)
Definition groupOf (items : list Chunk.t) (key : Z) : Z * list Chunk.t :=
  (key, filter (fun x => (Chunk.session x =? key)%Z) items).

(** Own property order of a set of keys given in creation order. *)
Definition propertyOrder (keys : list Z) : list Z :=
  toSorted (ascending (fun k => k)) (filter isArrayIndex keys)
  ++ filter (fun k => negb (isArrayIndex k)) keys.

(** The timestamp of a session's first chunk. *)
Definition firstChunkTimestamp (s : Segment.t) : Z :=
  match Segment.chunks s with
  | c :: _ => Chunk.timestamp c
  | [] => 0
  end.

(** The blobs [mergeVideoSessions] passes to [videoConcat]. *)
Definition sessionStreams (timelapse : LocalTimelapse.t) : list Blob.t :=
  map (fun x => Blob.mk (Bytes (List.concat (map Chunk.data (Segment.chunks x))))
                        "video/webm")
      (segmented timelapse).

(** The session of a key: its chunks, sorted. *)
Definition segmentOf (items : list Chunk.t) (key : Z) : Segment.t :=
  Segment.mk key
    (toSorted (ascending Chunk.timestamp)
              (filter (fun x => (Chunk.session x =? key)%Z) items)).

(** Two sessions whose chunks were stored latest first. *)
Definition unsortedSessions : LocalTimelapse.t :=
  LocalTimelapse.mk [Chunk.mk [0%N] 1 10; Chunk.mk [1%N] 2 5].

(** Three sessions with the same parameters; the middle one has no decoder
    configuration. *)
Definition twoUnits : list Unit.t := [Unit.mk 0 1 1; Unit.mk 5 1 2].

Definition goodTrack : Track.t :=
  Track.mk (Some vp9) 640 480 640 480 (Normal (Some 3%N)) twoUnits None twoUnits None.

Definition noConfigTrack : Track.t :=
  Track.mk (Some vp9) 640 480 640 480 (Normal None) twoUnits None twoUnits None.

Definition missingConfig_env : Env :=
  exampleEnv [Some goodTrack; Some noConfigTrack; Some goodTrack] (Some vp9) (Some [1%N]).

(** A session whose first unit has no duration. *)
Definition zeroFirstUnits : list Unit.t :=
  [Unit.mk 7 0 1; Unit.mk 60 60 2; Unit.mk 120 60 3].

Definition zeroFirstTrack : Track.t :=
  Track.mk (Some vp9) 640 480 640 480 (Normal (Some 3%N))
           zeroFirstUnits None zeroFirstUnits None.

Definition zeroFirst_env : Env :=
  exampleEnv [Some zeroFirstTrack] (Some vp9) (Some [1%N]).

(** Two sessions whose tracks agree on all five parameters, the codec being
    null on both. *)
Definition nullCodecTrack : Track.t :=
  Track.mk None 640 480 640 480 (Normal (Some 3%N)) twoUnits None twoUnits None.

Definition nullCodec_env : Env :=
  exampleEnv [Some nullCodecTrack; Some nullCodecTrack] (Some vp9) (Some [1%N]).

(** One session, without a primary video track. *)
Definition noTrack_env : Env := exampleEnv [None] (Some avc) (Some [1%N]).

(** A session without a track in front of a good one. *)
Definition oneDropped_env : Env :=
  exampleEnv [None; Some goodTrack] (Some vp9) (Some [1%N]).

(** A timelapse of one chunk, whose session has a track without a decoder
    configuration. *)
Definition oneChunk : LocalTimelapse.t := LocalTimelapse.mk [Chunk.mk [0%N] 1 10].

Definition oneChunk_env : Env := exampleEnv [Some noConfigTrack] (Some vp9) (Some [1%N]).

(** Whether a stream has a primary video track. *)
Definition hasTrack (env : Env) (x : Blob.t) : bool :=
  match getPrimaryVideoTrack env x with Normal (Some _) => true | _ => false end.

(** The last element of a list, if any. *)
Definition last_error {A : Type} (l : list A) : option A :=
  match l with
  | [] => None
  | x :: l' => Some (last l' x)
  end.

(** Two sessions with the same parameters, two units each. *)
Definition twoSessions_env : Env :=
  exampleEnv [Some goodTrack; Some goodTrack] (Some vp9) (Some [1%N]).

(** The canvas of [getBlackImage], before and after the fill. *)
Definition blankCanvas : Canvas.t :=
  Canvas.mk THUMBNAIL_SIZE THUMBNAIL_SIZE Blank true.

Definition blackCanvas : Canvas.t :=
  Canvas.mk THUMBNAIL_SIZE THUMBNAIL_SIZE SolidBlack true.

Definition emptyJpeg : Blob.t := Blob.mk (Bytes []) "image/jpeg".

(** A browser in which no video can be opened and no canvas can be encoded,
    though a 2D context is to be had. *)
Definition noJpeg_env : Env :=
  mkEnv (fun _ => Normal None) [avc; hevc; vp9; av1; vp8] (fun _ _ _ => Normal None)
        (fun _ _ => None) (fun _ => Normal false) 1 (fun _ => Normal 0)
        (fun _ => Normal 0)
        (fun _ _ _ _ => Normal [])
        (fun _ => false)
        (fun _ => Throw "convertToBlob rejected")
        (fun _ => None)
        (fun _ => true)
        "Invalid video codec"
        (fun _ => Normal tt)
        (fun _ _ => Normal tt).

Definition someVideo : Blob.t := Blob.mk (Bytes [1%N; 2%N; 3%N]) EmptyString.

(** Two sessions with ids taken from the clock, chunks in the order of
    capture. *)
Definition chronological : LocalTimelapse.t :=
  LocalTimelapse.mk
    [Chunk.mk [0%N] 1700000000000 1700000000500;
     Chunk.mk [1%N] 1700000000000 1700000003000;
     Chunk.mk [2%N] 1700000900000 1700000900500].

(** * More of the code *)

(** ** [createMediaRecorder] *)

(** [MediaTrackSettings]: the two fields the code reads, either of which a
    browser may leave out. *)
Module Settings.
Record t : Type := mk { width : option Z; height : option Z }.
End Settings.

(** The options handed to [new MediaRecorder(stream, ...)]. *)
Module RecorderOptions.
Record t : Type := mk {
  videoBitsPerSecond : Z;
  audioBitsPerSecond : Z;
  mimeType : string
}.
End RecorderOptions.

Definition BITS_PER_PIXEL : Z := 48.

(** The candidates of [createMediaRecorder], sorted by preference. *)
Definition mimeCandidates : list string :=
  [ "video/mp4;codecs=avc1";
    "video/x-matroska;codecs=avc1";
    "video/x-matroska;codecs=av1";
    "video/webm;codecs=av1";
    "video/x-matroska;codecs=vp9";
    "video/webm;codecs=vp9";
    "video/mp4;codecs=hvc1";
    "video/mp4;codecs=hev1";
    "video/x-matroska;codecs=hvc1";
    "video/x-matroska;codecs=hev1";
    "video/mp4";
    "video/x-matroska";
    "video/webm" ]%string.

(** [a ?? b] *)
Definition nullish {A : Type} (a : option A) (b : A) : A :=
  match a with Some x => x | None => b end.

(** [createMediaRecorder]: [isTypeSupported] is
    [MediaRecorder.isTypeSupported], [tracks] the settings of
    [stream.getVideoTracks()]; the result is the options of the recorder
    and whether the missing-codec warning was logged. *)
Definition createMediaRecorder (isTypeSupported : string -> bool)
    (tracks : list Settings.t) : Completion (RecorderOptions.t * bool) :=
  match tracks with
  | [] => Throw "The stream provided to MediaRecorder had no video tracks"
  | metadata :: _ =>
      let '(mime, warned) :=
        match find isTypeSupported mimeCandidates with
        | Some mime => (mime, false)
        | None => ("video/webm"%string, true)
        end in
      let w := nullish (Settings.width metadata) 1920%Z in
      let h := nullish (Settings.height metadata) 1080%Z in
      let bitrate := (w * h * BITS_PER_PIXEL)%Z in
      Normal (RecorderOptions.mk bitrate 0 mime, warned)
  end.

(** ** Closed forms for the thumbnail tiers *)

(** The canvas [makeThumbnail] settles on: the one at the middle of the
    video, else the one at its first timestamp. *)
Definition thumbCanvasOf (env : Env) (videoBlob : Blob.t) : option Canvas.t :=
  match getPrimaryVideoTrack env videoBlob with
  | Normal (Some video) =>
      match Track.codec video, canDecode env video with
      | Some _, Normal true =>
          let sink :=
            canvasesAtTimestamps env video
              (timesPixelRatio env
                 (dimension (Track.displayWidth video) (Track.displayHeight video)))
              (timesPixelRatio env
                 (dimension (Track.displayHeight video) (Track.displayWidth video))) in
          match getFirstTimestamp env video, computeDuration env video with
          | Normal begin, Normal end_ =>
              match sink (begin + (end_ - begin) / 2) with
              | Normal (Some c :: _) => Some c
              | Normal _ =>
                  match sink begin with
                  | Normal (Some c :: _) => Some c
                  | _ => None
                  end
              | Throw _ => None
              end
          | _, _ => None
          end
      | _, _ => None
      end
  | _ => None
  end.

(** What the [try] block of [makeThumbnail] makes of a canvas. *)
Definition encodeCanvas (env : Env) (c : Canvas.t) : Completion Blob.t :=
  if Canvas.isHTMLCanvasElement c then
    if toBlob env c then Normal (jpeg c)
    else Throw "Couldn't generate thumbnail - canvas.toBlob() returned null."
  else convertToBlob env c.

(** The canvas [makeFallbackThumbnail] draws the first frame on. *)
Definition fallbackCanvas (env : Env) (video : VideoElement.t) (pixels : Pixels)
    : Canvas.t :=
  Canvas.mk
    (timesPixelRatio env
       (dimension (VideoElement.videoWidth video) (VideoElement.videoHeight video)))
    (timesPixelRatio env
       (dimension (VideoElement.videoHeight video) (VideoElement.videoWidth video)))
    pixels true.

(** A browser that records only WebM with VP9, and a full-HD camera that
    reports no height. *)
Definition vp9Only (mime : string) : bool := String.eqb mime "video/webm;codecs=vp9".

Definition noHeight : Settings.t := Settings.mk (Some 1280%Z) None.

(** A video element of 1280 by 720 showing frame 7, in a browser with pixel
    ratio 1 where the canvas works. *)
Definition canvas_env : Env :=
  mkEnv (fun _ => Normal None) [avc; hevc; vp9; av1; vp8] (fun _ _ _ => Normal None)
        (fun _ _ => None) (fun _ => Normal false) 1 (fun _ => Normal 0)
        (fun _ => Normal 0)
        (fun _ _ _ _ => Normal [])
        (fun _ => true)
        (fun _ => Throw "convertToBlob rejected")
        (fun _ => Some (VideoElement.mk 1280 720 7))
        (fun _ => true)
        "Invalid video codec"
        (fun _ => Normal tt)
        (fun _ _ => Normal tt).

(** ** shared/common.ts *)

From Stdlib Require DecimalString.
From Stdlib Require Import Qabs.

(** [Array.prototype.slice(start, end)] on integer arguments: a negative
    index counts from the end, and both are clamped to the array. *)
Definition slice {T : Type} (array : list T) (start end_ : Z) : list T :=
  let len := Z.of_nat (List.length array) in
  let relative z := if (z <? 0)%Z then Z.max (len + z) 0 else Z.min z len in
  let k := relative start in
  let final := relative end_ in
  firstn (Z.to_nat (Z.max (final - k) 0)) (skipn (Z.to_nat k) array).

(** [chunked(array, n)], drained: the slices the generator yields from
    index [i] on, in order.  The loop is
    [for (let i = 0; i < array.length; i += n) yield array.slice(i, i + n)];
    [fuel] bounds the number of turns, and [None] stands for a loop that has
    not finished within it. *)
Fixpoint chunked_from {T : Type} (fuel : nat) (array : list T) (n i : Z)
    : option (list (list T)) :=
  if (i <? Z.of_nat (List.length array))%Z then
    match fuel with
    | O => None
    | S fuel' =>
        option_map (cons (slice array i (i + n)))
                   (chunked_from fuel' array n (i + n))
    end
  else Some [].

Definition chunked {T : Type} (fuel : nat) (array : list T) (n : Z)
    : option (list (list T)) :=
  chunked_from fuel array n 0.

(** Batches of [m]: all of [m] elements but the last, which has from 1 to
    [m]. *)
Definition batchesOf {T : Type} (m : nat) (chunks : list (list T)) : Prop :=
  Forall (fun c => (1 <= List.length c <= m)%nat) chunks /\
  Forall (fun c => List.length c = m) (removelast chunks).

(** [descending(picker)] *)
Definition descending {T : Type} (picker : T -> Z) : T -> T -> Z :=
  fun a b => (picker b - picker a)%Z.

(** [a < b] on numbers. *)
Definition Qltb (a b : Q) : bool := negb (Qle_bool b a).

(** The callback of the two [reduce] calls of [closest]. *)
Definition nearer {T : Type} (selector : T -> Q) (x : Q) (prev curr : T) : T :=
  if Qltb (Qabs (selector curr - x)) (Qabs (selector prev - x)) then curr else prev.

(** [Array.prototype.reduce(callback)] without an initial value: a
    [TypeError] on an empty array. *)
Definition reduce {T : Type} (callback : T -> T -> T) (array : list T)
    : Completion T :=
  match array with
  | [] => Throw "Reduce of empty array with no initial value"
  | first :: rest => Normal (fold_left callback rest first)
  end.

(** [closest(x, array, selector)]: the items are objects, so a found item
    is truthy. *)
Definition closestBy {T : Type} (x : Q) (array : list T) (selector : T -> Q)
    : Completion T :=
  match find (fun item => Qeq_bool (selector item) x) array with
  | Some found => Normal found
  | None => reduce (nearer selector x) array
  end.

(** [closest(x, array)] on numbers: a found number is truthy unless it is
    zero. *)
Definition closest (x : Q) (array : list Q) : Completion Q :=
  match find (fun y => Qeq_bool x y) array with
  | Some found =>
      if negb (Qeq_bool found 0) then Normal x
      else reduce (nearer (fun y => y) x) array
  | None => reduce (nearer (fun y => y) x) array
  end.

(** A template literal's rendering of an integer. *)
Definition numberToString (z : Z) : string :=
  DecimalString.NilZero.string_of_int (Z.to_int z).

(** [maybe(element, condition)] *)
Definition maybe {T : Type} (element : T) (condition : bool) : list T :=
  if condition then [element] else [].

Module Timespan.
Record t : Type := mk { h : Z; m : Z; s : Z }.
End Timespan.

(** [%] on integers takes the sign of the dividend ([Z.rem]);
    [Math.floor(a / b)] of integers with [b] positive is [Z.div]. *)
Definition extractTimespanComponents (seconds : Q) : Timespan.t :=
  let seconds := Qfloor seconds in
  Timespan.mk (seconds / 3600)%Z (Z.rem seconds 3600 / 60)%Z (Z.rem seconds 60).

Definition formatDuration (seconds : Q) : string :=
  if Qeq_bool seconds 0 then "0s"%string
  else
    let c := extractTimespanComponents seconds in
    String.concat " "
      (maybe (numberToString (Timespan.h c) ++ "h")%string (negb (Timespan.h c =? 0)%Z)
       ++ maybe (numberToString (Timespan.m c) ++ "m")%string (negb (Timespan.m c =? 0)%Z)
       ++ maybe (numberToString (Timespan.s c) ++ "s")%string (negb (Timespan.s c =? 0)%Z)).

Module DateComponents.
Record t : Type := mk { y : Z; mo : Z; w : Z; d : Z; h : Z; m : Z; s : Z }.
End DateComponents.

Definition extractDateComponents (seconds : Q) : DateComponents.t :=
  let seconds := Qfloor seconds in
  let years := (seconds / 31557600)%Z in
  let seconds := Z.rem seconds 31557600 in
  let months := (seconds / 2629746)%Z in
  let seconds := Z.rem seconds 2629746 in
  let weeks := (seconds / 604800)%Z in
  let seconds := Z.rem seconds 604800 in
  let days := (seconds / 86400)%Z in
  let seconds := Z.rem seconds 86400 in
  let hours := (seconds / 3600)%Z in
  let seconds := Z.rem seconds 3600 in
  let minutes := (seconds / 60)%Z in
  let seconds := Z.rem seconds 60 in
  DateComponents.mk years months weeks days hours minutes seconds.

(** [`${n} unit${n > 1 ? 's' : ''} ago`] *)
Definition ago (n : Z) (unit : string) : string :=
  (numberToString n ++ " " ++ unit ++ (if (n >? 1)%Z then "s" else "") ++ " ago")%string.

(** [formatTimeElapsed(date)], with [now] for [new Date().getTime()] and
    [date] for [date.getTime()], both in milliseconds. *)
Definition formatTimeElapsed (now date : Z) : string :=
  let secondsPast := inject_Z (now - date) / 1000 in
  let c := extractDateComponents secondsPast in
  if (DateComponents.y c >=? 1)%Z then ago (DateComponents.y c) "year"
  else if (DateComponents.mo c >=? 1)%Z then ago (DateComponents.mo c) "month"
  else if (DateComponents.d c >=? 1)%Z then ago (DateComponents.d c) "day"
  else if (DateComponents.h c >=? 1)%Z then ago (DateComponents.h c) "hour"
  else if (DateComponents.m c >=? 1)%Z then ago (DateComponents.m c) "minute"
  else if (DateComponents.s c <=? 1)%Z then "just now"%string
  else ago (DateComponents.s c) "second".

(** ** server/routers/api/timelapse.ts: the snapshot rows of [commit] *)

Module SnapshotRow.
Record t : Type := mk { timelapseId : string; frame : Z; createdAt : Z }.
End SnapshotRow.

(** [array.map((x, i) => f(x, i))], from index [i] on. *)
Fixpoint mapi_from {A B : Type} (i : nat) (f : A -> nat -> B) (l : list A) : list B :=
  match l with
  | [] => []
  | x :: l' => f x i :: mapi_from (S i) f l'
  end.

Definition mapi {A B : Type} (f : A -> nat -> B) (l : list A) : list B :=
  mapi_from 0 f l.

(** The argument of a [database.snapshot.createMany] call. *)
Module CreateMany.
Record t : Type := mk { skipDuplicates : bool; data : list SnapshotRow.t }.
End CreateMany.

(** The rows of one call: [batch.map((x, i) => ({timelapseId, frame: i,
    createdAt: new Date(x)}))]. *)
Definition rowsOf (timelapseId : string) (batch : list Z) : list SnapshotRow.t :=
  mapi (fun x i => SnapshotRow.mk timelapseId (Z.of_nat i) x) batch.

(** [for (const batch of chunked(sortedSnapshots, 100))]: one awaited
    [createMany] call per batch, with [skipDuplicates: true]; a call that
    rejects ends the mutation.  [calls] holds the arguments of the calls made
    so far.  What the database does with the rows of a call is not
    modelled. *)
Fixpoint for_batches (createMany : CreateMany.t -> Completion unit)
    (timelapseId : string) (batches : list (list Z)) (calls : list CreateMany.t)
    : Completion unit * list CreateMany.t :=
  match batches with
  | [] => (Normal tt, calls)
  | batch :: rest =>
      let call := CreateMany.mk true (rowsOf timelapseId batch) in
      match createMany call with
      | Throw e => (Throw e, calls ++ [call])
      | Normal _ => for_batches createMany timelapseId rest (calls ++ [call])
      end
  end.

(** The part of [commit] that writes the snapshots:
    [req.input.snapshots.sort(ascending())], which compares the numbers
    themselves, then the loop over the batches.  The result is how the loop
    ends and the [createMany] calls it has made. *)
Definition commit_snapshots (fuel : nat) (createMany : CreateMany.t -> Completion unit)
    (timelapseId : string) (snapshots : list Z)
    : option (Completion unit * list CreateMany.t) :=
  let sortedSnapshots := toSorted (ascending (fun x => x)) snapshots in
  option_map (fun batches => for_batches createMany timelapseId batches [])
             (chunked fuel sortedSnapshots 100).

(** A database that refuses the second call it gets. *)
Definition secondCallFails (call : CreateMany.t) : Completion unit :=
  match CreateMany.data call with
  | row :: _ =>
      if (SnapshotRow.createdAt row =? 100)%Z then Throw "connection lost" else Normal tt
  | [] => Normal tt
  end.

(** ** server/routers/api/user.ts: [hackatimeProjects] *)

(** A row of [database.timelapse.findMany({select: {hackatimeProject,
    duration}})]. *)
Module TimelapseRow.
Record t : Type := mk { hackatimeProject : option string; duration : Q }.
End TimelapseRow.

Module Project.
Record t : Type := mk { name : string; time : Q }.
End Project.

(** A [Map<string, number>]: its entries, in the order in which their keys
    were first set. *)
Definition NumberMap := list (string * Q).

(** [Map.prototype.get] *)
Definition mapGet (key : string) (m : NumberMap) : option Q :=
  option_map snd (find (fun e => String.eqb key (fst e)) m).

(** [Map.prototype.set] *)
Fixpoint mapSet (key : string) (value : Q) (m : NumberMap) : NumberMap :=
  match m with
  | [] => [(key, value)]
  | (k, v) :: rest =>
      if String.eqb key k then (k, value) :: rest
      else (k, v) :: mapSet key value rest
  end.

(** [descending(picker)] on keys that need not be whole numbers.
    [toSorted] reads of a comparator's result only whether it is above zero,
    which the numerator of the difference decides. *)
Definition descendingQ {T : Type} (picker : T -> Q) : T -> T -> Z :=
  fun a b => Qnum (picker b - picker a).

(** The loop over the timelapses. *)
Fixpoint aggregate (timelapses : list TimelapseRow.t) (projects : NumberMap)
    : Completion NumberMap :=
  match timelapses with
  | [] => Normal projects
  | timelapse :: rest =>
      match TimelapseRow.hackatimeProject timelapse with
      | None =>
          Throw "Timelapse had hackatimeProject == null when { not: null } was specified"
      | Some project =>
          aggregate rest
            (mapSet project
                    (nullish (mapGet project projects) 0 + TimelapseRow.duration timelapse)
                    projects)
      end
  end.

(** The [.output(...)] schema of the procedure, which tRPC applies to what
    the query returns: [name: z.string().min(1)] and
    [time: z.number().nonnegative()] for every project. *)
Definition outputSchema (projects : list Project.t) : bool :=
  forallb (fun p => (1 <=? String.length (Project.name p))%nat
                    && Qle_bool 0 (Project.time p))
          projects.

(** The [hackatimeProjects] procedure.  [user] is [ctx.user], which
    [protectedProcedure] requires; the input schema [z.object({})] asks
    nothing of the input; [findMany] is what [database.timelapse.findMany]
    resolves to or rejects with.  The result is the [projects] of the reply,
    when the reply passes the output schema; when it does not, tRPC raises
    its [INTERNAL_SERVER_ERROR] with the message below. *)
Definition hackatimeProjects (user : option string)
    (findMany : Completion (list TimelapseRow.t)) : Completion (list Project.t) :=
  match user with
  | None => Throw "Authentication required"
  | Some _ =>
      match findMany with
      | Throw e => Throw e
      | Normal timelapses =>
          match aggregate timelapses [] with
          | Throw e => Throw e
          | Normal projects =>
              let reply :=
                toSorted (descendingQ Project.time)
                         (map (fun x => Project.mk (fst x) (snd x)) projects) in
              if outputSchema reply then Normal reply
              else Throw "Output validation failed"
          end
      end
  end.

(** The time recorded for a project: the sum of the durations of its
    rows. *)
Fixpoint timeOf (project : string) (timelapses : list TimelapseRow.t) : Q :=
  match timelapses with
  | [] => 0
  | timelapse :: rest =>
      match TimelapseRow.hackatimeProject timelapse with
      | Some p => if String.eqb project p
                  then TimelapseRow.duration timelapse + timeOf project rest
                  else timeOf project rest
      | None => timeOf project rest
      end
  end.

Definition threeRows : list TimelapseRow.t :=
  [TimelapseRow.mk (Some "lapse"%string) (5 # 2);
   TimelapseRow.mk (Some "site"%string) 10;
   TimelapseRow.mk (Some "lapse"%string) 5].

(** A row whose duration is below zero. *)
Definition negativeRow : list TimelapseRow.t :=
  [TimelapseRow.mk (Some "a"%string) (-1)].

(** ** pages/index.tsx: the user's top projects *)

Module TopProject.
Record t : Type := mk { name : string; time : string; percentage : Q }.
End TopProject.

(** The argument of [setTopUserProjects], for the [projects] of the reply.
    [sorted[0]] is read inside the callback of [sorted.map], where [sorted]
    has an element. *)
Definition topUserProjects (projects : list Project.t) : list TopProject.t :=
  let sorted := slice (toSorted (descendingQ Project.time) projects) 0 5 in
  map (fun x =>
         TopProject.mk (Project.name x) (formatDuration (Project.time x))
                       (Project.time x / Project.time (nth 0 sorted x)))
      sorted.

Definition fourProjects : list Project.t :=
  [Project.mk "a" 10; Project.mk "b" 40; Project.mk "c" 0; Project.mk "d" 20].

(** * Properties *)

(** ** The unit loop in closed form *)

Lemma last_cons_default {A : Type} (x d : A) (l : list A) :
  last (x :: l) d = last l x.
Proof.
  revert x d; induction l as [|y l IH]; intros x d; [reflexivity|].
  change (last (x :: y :: l) d) with (last (y :: l) d).
  rewrite (IH y d). symmetry. apply IH.
Qed.

Lemma for_units_spec cfg g units : forall l w,
  for_units cfg g units l w =
  (match kept units with
   | [] => l
   | k :: ks => mkLocal (Some (anchor l (kept units))) (Unit.timestamp (last ks k))
   end,
   mkWorld (warnings w ++ map WarnZeroDuration (filter skipped units))
           (alerts w) (videoTrack w)
           (added w ++ map (rebase cfg (anchor l (kept units)) g) (kept units))
           (disposed w)).
Proof.
  induction units as [|u rest IH]; intros l w; simpl.
  - rewrite !app_nil_r. destruct w; reflexivity.
  - unfold kept in *; simpl. fold (skipped u).
    destruct (skipped u) eqn:Hu; simpl.
    + rewrite IH; simpl. rewrite <- app_assoc. reflexivity.
    + rewrite IH; simpl. rewrite <- app_assoc; simpl.
      unfold anchor at 3 4; simpl.
      assert (Ha : forall ks, anchor (mkLocal (Some match localFirstTimestamp l with
                                  | Some f => f | None => Unit.timestamp u end)
                                 (Unit.timestamp u)) ks
                   = match localFirstTimestamp l with
                     | Some f => f | None => Unit.timestamp u end)
        by reflexivity.
      rewrite !Ha.
      destruct (filter (fun u0 => negb (skipped u0)) rest) as [|k ks] eqn:Hk.
      * reflexivity.
      * rewrite last_cons_default. reflexivity.
Qed.

(** ** One session in closed form *)

Lemma sessionError_None canRemux video :
  sessionError canRemux video = None ->
  configured video = true /\ loopError canRemux video = None /\
  exists c, Track.getDecoderConfig video = Normal (Some c).
Proof.
  unfold sessionError, configured.
  destruct (Track.getDecoderConfig video) as [[c|]|e]; try discriminate.
  intros H. split; [reflexivity|]. split; [exact H|]. now exists c.
Qed.

Lemma for_track_closed canRemux video g w :
  for_track canRemux video g w =
  (match sessionError canRemux video with
   | Some e => Throw e
   | None => Normal (advance g (kept (unitsOf canRemux video)))
   end,
   if configured video
   then mkWorld (warnings w ++ map WarnZeroDuration (filter skipped (unitsOf canRemux video)))
                (alerts w) (videoTrack w)
                (added w ++ sessionUnits canRemux video g)
                (disposed w)
   else w).
Proof.
  unfold for_track, sessionError, configured, loopError, sessionUnits, cfgOf, unitsOf.
  destruct (Track.getDecoderConfig video) as [[c|]|e]; [|reflexivity|reflexivity].
  destruct canRemux; rewrite for_units_spec;
    match goal with |- context [kept ?us] => destruct (kept us) as [|k ks] end;
    match goal with
    | |- context [Track.packetsError video] => destruct (Track.packetsError video)
    | |- context [Track.samplesError video] => destruct (Track.samplesError video)
    end; reflexivity.
Qed.

Lemma for_track_spec canRemux video g w c :
  Track.getDecoderConfig video = Normal (Some c) ->
  loopError canRemux video = None ->
  for_track canRemux video g w =
  (Normal (advance g (kept (unitsOf canRemux video))),
   mkWorld (warnings w ++ map WarnZeroDuration (filter skipped (unitsOf canRemux video)))
           (alerts w) (videoTrack w)
           (added w ++ sessionUnits canRemux video g)
           (disposed w)).
Proof.
  intros Hc Hloop. rewrite for_track_closed.
  unfold sessionError, configured. rewrite Hc, Hloop. reflexivity.
Qed.

Lemma for_track_Normal canRemux video g w g' w' :
  for_track canRemux video g w = (Normal g', w') ->
  loopError canRemux video = None /\
  exists c, Track.getDecoderConfig video = Normal (Some c).
Proof.
  rewrite for_track_closed.
  destruct (sessionError canRemux video) as [e|] eqn:He; [discriminate|].
  intros _. now apply sessionError_None in He as (_ & Hloop & Hc).
Qed.

(** ** The session loop *)

Lemma for_tracks_app canRemux pre post : forall g w,
  for_tracks canRemux (pre ++ post) g w =
  match for_tracks canRemux pre g w with
  | (Normal g', w') => for_tracks canRemux post g' w'
  | (Throw e, w') => (Throw e, w')
  end.
Proof.
  induction pre as [|video pre IH]; intros g w; simpl; [reflexivity|].
  destruct (for_track canRemux video g w) as [[g'|e] w']; [apply IH|reflexivity].
Qed.

(** The session loop, whether or not it throws. *)
Lemma for_tracks_closed canRemux tracks : forall g w,
  for_tracks canRemux tracks g w =
  (match tracksError canRemux tracks with
   | Some e => Throw e
   | None => Normal (offsetAfter canRemux g tracks)
   end,
   mkWorld (warnings w ++ zeroWarnings canRemux (processed canRemux tracks))
           (alerts w) (videoTrack w)
           (added w ++ assembled canRemux g (processed canRemux tracks))
           (disposed w)).
Proof.
  induction tracks as [|video rest IH]; intros g w; simpl.
  - rewrite !app_nil_r. destruct w; reflexivity.
  - rewrite for_track_closed.
    destruct (sessionError canRemux video) as [e|] eqn:He.
    + destruct (configured video); simpl; rewrite ?app_nil_r;
        [reflexivity|destruct w; reflexivity].
    + apply sessionError_None in He as (-> & _). rewrite IH. simpl.
      rewrite <- !app_assoc. reflexivity.
Qed.

(** The offset a loop computes does not depend on the effects recorded so
    far. *)
Lemma for_tracks_fst canRemux tracks : forall g w1 w2,
  fst (for_tracks canRemux tracks g w1) = fst (for_tracks canRemux tracks g w2).
Proof. intros g w1 w2. rewrite !for_tracks_closed. reflexivity. Qed.

(** Where a unit of the output comes from. *)
Lemma for_tracks_added_inv canRemux tracks : forall g w r w' e,
  for_tracks canRemux tracks g w = (r, w') ->
  In e (added w') ->
  In e (added w) \/
  exists pre video post g' first u,
    tracks = pre ++ video :: post /\
    fst (for_tracks canRemux pre g world0) = Normal g' /\
    hd_error (kept (unitsOf canRemux video)) = Some first /\
    In u (kept (unitsOf canRemux video)) /\
    e = rebase (cfgOf canRemux video) (Unit.timestamp first) g' u.
Proof.
  induction tracks as [|video rest IH]; intros g w r w' e Hrun Hin; simpl in Hrun.
  - injection Hrun as _ <-. now left.
  - rewrite for_track_closed in Hrun.
    assert (Hses :
      forall w1,
        w1 = (if configured video
              then mkWorld (warnings w
                            ++ map WarnZeroDuration (filter skipped (unitsOf canRemux video)))
                           (alerts w) (videoTrack w)
                           (added w ++ sessionUnits canRemux video g) (disposed w)
              else w) ->
        In e (added w1) ->
        In e (added w) \/
        exists pre v post g' first u,
          video :: rest = pre ++ v :: post /\
          fst (for_tracks canRemux pre g world0) = Normal g' /\
          hd_error (kept (unitsOf canRemux v)) = Some first /\
          In u (kept (unitsOf canRemux v)) /\
          e = rebase (cfgOf canRemux v) (Unit.timestamp first) g' u).
    { intros w1 -> Hw1. destruct (configured video); [|now left].
      simpl in Hw1. apply in_app_or in Hw1 as [Hold | Hnew]; [now left|right].
      unfold sessionUnits in Hnew. apply in_map_iff in Hnew as (u & <- & Hu).
      destruct (kept (unitsOf canRemux video)) as [|first ks] eqn:Hk; [easy|].
      exists [], video, rest, g, first, u. rewrite Hk. simpl. repeat split; auto. }
    destruct (sessionError canRemux video) as [m|] eqn:He.
    + injection Hrun as _ <-. now apply (Hses _ eq_refl).
    + destruct (IH _ _ _ _ _ Hrun Hin) as [Hold | Hnew].
      * now apply (Hses _ eq_refl).
      * right. destruct Hnew as (pre & v & post & g' & first & u & -> & Hg & Hrest).
        exists (video :: pre), v, post, g', first, u. split; [reflexivity|].
        split; [|exact Hrest]. simpl.
        rewrite for_track_closed, He.
        rewrite (for_tracks_fst _ _ _ _ world0). exact Hg.
Qed.

(** ** [videoConcat] in closed form *)

Lemma filterTracks_spec tracks : forall w,
  filterTracks tracks w =
  (somes tracks,
   mkWorld (warnings w ++ repeat WarnNullPrimaryTrack (nones tracks))
           (alerts w) (videoTrack w) (added w) (disposed w)).
Proof.
  induction tracks as [|[x|] rest IH]; intros w; simpl.
  - rewrite app_nil_r. destruct w; reflexivity.
  - rewrite IH. reflexivity.
  - rewrite IH. simpl. rewrite <- app_assoc. reflexivity.
Qed.

Lemma disposeAll_spec n w :
  disposeAll n w =
  mkWorld (warnings w) (alerts w) (videoTrack w) (added w) (disposed w ++ seq 0 n).
Proof.
  unfold disposeAll. generalize 0%nat as start. revert w.
  induction n as [|n IH]; intros w start; simpl.
  - rewrite app_nil_r. destruct w; reflexivity.
  - rewrite IH. simpl. rewrite <- app_assoc. reflexivity.
Qed.

Lemma videoConcat_unfold env streams w :
  videoConcat env streams w =
  match streams with
  | [] => (Throw "No inputs were passed to concat().", w)
  | _ :: _ =>
      match rejected env streams with
      | Some e => (Throw e, w)
      | None =>
          match survivors env streams with
          | [] =>
              (Throw "No inputs had any primary video tracks!", afterFilter env streams w)
          | _ :: _ =>
              match negotiated env (survivors env streams) with
              | Throw e => (Throw e, afterFilter env streams w)
              | Normal None =>
                  (Throw "This browser does not support video encoding.",
                   alert "Your browser doesn't seem to support video encoding."
                         (afterFilter env streams w))
              | Normal (Some videoCodec) =>
                  match newSource env (survivors env streams) videoCodec with
                  | Throw e => (Throw e, afterFilter env streams w)
                  | Normal source =>
                      match out_start env source with
                      | Throw e =>
                          (Throw e, addVideoTrack source (afterFilter env streams w))
                      | Normal _ =>
                          match for_tracks (remuxEligible (survivors env streams))
                                  (survivors env streams) 0
                                  (addVideoTrack source (afterFilter env streams w)) with
                          | (Throw e, w2) => (Throw e, w2)
                          | (Normal _, w2) =>
                              match out_finalize env source (added w2) with
                              | Throw e => (Throw e, w2)
                              | Normal _ =>
                                  match bufTarget_buffer env source (added w2) with
                                  | None =>
                                      (Throw "bufTarget.buffer was null.",
                                       disposeAll (List.length streams) w2)
                                  | Some buffer =>
                                      (Normal buffer, disposeAll (List.length streams) w2)
                                  end
                              end
                          end
                      end
                  end
              end
          end
      end
  end.
Proof.
  unfold videoConcat, rejected, survivors, afterFilter, dropped.
  destruct streams as [|s streams]; [reflexivity|].
  cbv beta iota delta [assert]. change (0 <? List.length (s :: streams))%nat with true.
  cbv beta iota.
  destruct (Promise_all (map (getPrimaryVideoTrack env) (s :: streams)))
    as [tracks|e]; [|reflexivity].
  rewrite filterTracks_spec.
  destruct (somes tracks) as [|firstTrack others]; [reflexivity|].
  unfold negotiated, newSource, remuxEligible.
  destruct (getFirstEncodableVideoCodec _ _ _ _) as [[videoCodec|]|e];
    [|reflexivity|reflexivity].
  destruct (if forallb (sameParameters firstTrack) (firstTrack :: others) then _ else _)
    as [source|e]; [|reflexivity].
  destruct (out_start env source) as [[]|e]; [|reflexivity].
  destruct (for_tracks _ _ _ _) as [[g|e] w2]; [|reflexivity].
  destruct (out_finalize env source (added w2)) as [[]|e]; [|reflexivity].
  rewrite disposeAll_spec. simpl added.
  destruct (bufTarget_buffer _ _ _); reflexivity.
Qed.

(** The run, with the session loop in closed form. *)
Lemma videoConcat_closed env streams w :
  videoConcat env streams w =
  match streams with
  | [] => (Throw "No inputs were passed to concat().", w)
  | _ :: _ =>
      match rejected env streams with
      | Some e => (Throw e, w)
      | None =>
          match survivors env streams with
          | [] =>
              (Throw "No inputs had any primary video tracks!", afterFilter env streams w)
          | _ :: _ =>
              match negotiated env (survivors env streams) with
              | Throw e => (Throw e, afterFilter env streams w)
              | Normal None =>
                  (Throw "This browser does not support video encoding.",
                   alert "Your browser doesn't seem to support video encoding."
                         (afterFilter env streams w))
              | Normal (Some videoCodec) =>
                  match newSource env (survivors env streams) videoCodec with
                  | Throw e => (Throw e, afterFilter env streams w)
                  | Normal source =>
                      let canRemux := remuxEligible (survivors env streams) in
                      let w1 := afterFilter env streams w in
                      let w2 :=
                        mkWorld
                          (warnings w1
                           ++ zeroWarnings canRemux
                                (sessionsRun env source (survivors env streams)))
                          (alerts w1) (Some source)
                          (added w1
                           ++ assembled canRemux 0
                                (sessionsRun env source (survivors env streams)))
                          (disposed w1) in
                      match out_start env source with
                      | Throw e => (Throw e, w2)
                      | Normal _ =>
                          match tracksError canRemux (survivors env streams) with
                          | Some e => (Throw e, w2)
                          | None =>
                              match out_finalize env source (added w2) with
                              | Throw e => (Throw e, w2)
                              | Normal _ =>
                                  match bufTarget_buffer env source (added w2) with
                                  | None =>
                                      (Throw "bufTarget.buffer was null.",
                                       disposeAll (List.length streams) w2)
                                  | Some buffer =>
                                      (Normal buffer, disposeAll (List.length streams) w2)
                                  end
                              end
                          end
                      end
                  end
              end
          end
      end
  end.
Proof.
  rewrite videoConcat_unfold.
  destruct streams as [|s streams]; [reflexivity|].
  destruct (rejected env (s :: streams)); [reflexivity|].
  destruct (survivors env (s :: streams)) as [|firstTrack others]; [reflexivity|].
  destruct (negotiated env (firstTrack :: others)) as [[videoCodec|]|e];
    [|reflexivity|reflexivity].
  destruct (newSource env (firstTrack :: others) videoCodec) as [source|e];
    [|reflexivity].
  cbv zeta. unfold sessionsRun.
  destruct (out_start env source) as [[]|e].
  - rewrite for_tracks_closed.
    destruct (tracksError _ _); reflexivity.
  - simpl. rewrite !app_nil_r. reflexivity.
Qed.

(** ** Time rebasing *)

Lemma timeScale_pos : 0 < timeScale.
Proof. reflexivity. Qed.

Lemma kept_all (units : list Unit.t) :
  forallb (fun u => negb (skipped u)) units = true -> kept units = units.
Proof.
  induction units as [|u rest IH]; simpl; [reflexivity|].
  intros H. apply andb_prop in H as [Hu Hrest]. rewrite Hu, IH by assumption.
  reflexivity.
Qed.

(** C3. Every unit that [videoConcat] hands to the output comes from a unit
    [u] of non-zero duration of some surviving session, and carries the
    timestamp [(u.timestamp - first.timestamp) * timeScale + g] and the
    duration [u.duration * timeScale], where [first] is the first unit of that
    session that the loop keeps (the session's first unit when none has a
    zero duration) and [g] is [globalTimeOffset] as the sessions before it
    left it; [timeScale] is [(1000 / 2500) / 24 = 0.4 / 24]; and in
    Scenario A (two sessions of ten units 2500 apart) the twenty output
    timestamps run from 0 to 750, which is also the final offset. *)
Theorem C3_rebased_timestamp_and_duration :
  timeScale = (1000 / TIMELAPSE_FRAME_LENGTH_MS) / TIMELAPSE_FPS /\
  TIMELAPSE_FRAME_LENGTH_MS == 2500 /\ TIMELAPSE_FPS == 24 /\
  timeScale == 0.4 / 24 /\
  (forall env streams r w' e,
      videoConcat env streams world0 = (r, w') ->
      In e (added w') ->
      let canRemux := remuxEligible (survivors env streams) in
      exists pre video post g first u,
        survivors env streams = pre ++ video :: post /\
        fst (for_tracks canRemux pre 0 world0) = Normal g /\
        hd_error (kept (unitsOf canRemux video)) = Some first /\
        (forallb (fun x => negb (skipped x)) (unitsOf canRemux video) = true ->
         hd_error (unitsOf canRemux video) = Some first) /\
        In u (unitsOf canRemux video) /\ ~ Unit.duration u == 0 /\
        Added.timestamp e
        = (Unit.timestamp u - Unit.timestamp first) * timeScale + g /\
        Added.duration e = Unit.duration u * timeScale /\
        Added.data e = Unit.data u) /\
  (exists buffer w' g,
      videoConcat scenarioA_env [streamOf 0; streamOf 1] world0 = (Normal buffer, w') /\
      videoTrack w' = Some (EncodedVideoPacketSource (Some avc)) /\
      List.length (added w') = 20%nat /\
      hd 1 (map Added.timestamp (added w')) == 0 /\
      last (map Added.timestamp (added w')) 0 == 750 /\
      fst (for_tracks true (survivors scenarioA_env [streamOf 0; streamOf 1]) 0 world0)
      = Normal g /\
      g == 9 * 2500 * 2 * timeScale /\ g == 750).
Proof.
  split; [reflexivity|]. split; [reflexivity|]. split; [reflexivity|].
  split; [reflexivity|]. split.
  - intros env streams r w' e Hrun Hin canRemux.
    rewrite videoConcat_unfold in Hrun.
    destruct streams as [|s streams]; [injection Hrun as _ <-; easy|].
    subst canRemux.
    destruct (rejected env (s :: streams)); [injection Hrun as _ <-; easy|].
    destruct (survivors env (s :: streams)) as [|firstTrack others] eqn:Hsurv;
      [injection Hrun as _ <-; easy|].
    destruct (negotiated env (firstTrack :: others)) as [[videoCodec|]|m];
      [|injection Hrun as _ <-; easy|injection Hrun as _ <-; easy].
    destruct (newSource env (firstTrack :: others) videoCodec) as [source|m];
      [|injection Hrun as _ <-; easy].
    destruct (out_start env source) as [[]|m]; [|injection Hrun as _ <-; easy].
    destruct (for_tracks _ _ _ _) as [c w2] eqn:Hloop.
    assert (Hin2 : In e (added w2)).
    { destruct c as [g|m].
      - destruct (out_finalize env source (added w2)) as [[]|m];
          [|injection Hrun as _ <-; exact Hin].
        destruct (bufTarget_buffer _ _ _); injection Hrun as _ <-;
          rewrite disposeAll_spec in Hin; exact Hin.
      - injection Hrun as _ <-. exact Hin. }
    destruct (for_tracks_added_inv _ _ _ _ _ _ _ Hloop Hin2) as [Hold|Hnew];
      [easy|].
    destruct Hnew as (pre & video & post & g & first & u & Heq & Hg & Hhd & Hu & ->).
    exists pre, video, post, g, first, u.
    split; [exact Heq|]. split; [exact Hg|]. split; [exact Hhd|].
    split; [intros Hall; rewrite (kept_all _ Hall) in Hhd; exact Hhd|].
    unfold kept in Hu. apply filter_In in Hu as [Hu Hnz].
    split; [exact Hu|]. split; [|repeat split].
    unfold skipped in Hnz. apply Qeq_bool_neq.
    destruct (Qeq_bool (Unit.duration u) 0); [discriminate|reflexivity].
  - eexists _, _, _. vm_compute. repeat split; discriminate.
Qed.

Lemma C3_rebased_witness :
  exists e u first g,
    In e (added (snd (videoConcat scenarioA_env [streamOf 0; streamOf 1] world0))) /\
    In u scenarioA_units /\ hd_error scenarioA_units = Some first /\
    Added.timestamp e = (Unit.timestamp u - Unit.timestamp first) * timeScale + g /\
    Added.duration e = Unit.duration u * timeScale.
Proof.
  destruct C3_rebased_timestamp_and_duration as (_ & _ & _ & _ & H & _).
  pose (run := videoConcat scenarioA_env [streamOf 0; streamOf 1] world0).
  pose (e := last (added (snd run)) (Added.mk 0 0 0 None)).
  destruct (H scenarioA_env [streamOf 0; streamOf 1] (fst run) (snd run) e)
    as (pre & video & post & g & first & u & Hs & _ & _ & Hfirst & Hu & _ & Ht & Hd & _).
  - apply surjective_pairing.
  - vm_compute. do 19 right. left. reflexivity.
  - assert (Hv : video = scenarioA_track).
    { change (survivors scenarioA_env [streamOf 0; streamOf 1])
        with [scenarioA_track; scenarioA_track] in Hs.
      destruct pre as [|p [|p' pre]]; simpl in Hs.
      - now injection Hs as <- _.
      - now injection Hs as _ <- _.
      - destruct pre; discriminate. }
    subst video. exists e, u, first, g.
    split; [vm_compute; do 19 right; left; reflexivity|].
    split; [exact Hu|]. split; [apply Hfirst; reflexivity|]. split; assumption.
Defined.

(** C3 as stated fails for a session that starts with a unit of zero
    duration.  The session has units at 7 (of duration 0), 60 and 120: the
    unit at 7 is skipped before [localFirstTimestamp] is set, so the two units
    written are rebased on 60, not on the timestamp 7 of the session's first
    unit. *)
Lemma C3_anchor_is_first_kept_unit :
  exists first a b,
    hd_error (Track.packets zeroFirstTrack) = Some first /\
    Unit.timestamp first == 7 /\
    added (snd (videoConcat zeroFirst_env [streamOf 0] world0)) = [a; b] /\
    Added.timestamp a == (60 - 60) * timeScale + 0 /\
    ~ Added.timestamp a == (60 - Unit.timestamp first) * timeScale + 0 /\
    Added.timestamp b == (120 - 60) * timeScale + 0 /\
    ~ Added.timestamp b == (120 - Unit.timestamp first) * timeScale + 0.
Proof.
  eexists _, _, _. vm_compute.
  split; [reflexivity|]. split; [reflexivity|]. split; [reflexivity|].
  split; [reflexivity|]. split; [discriminate|]. split; [reflexivity|discriminate].
Qed.

(** ** Zero-duration units *)

Lemma kept_kept units : kept (kept units) = kept units.
Proof.
  unfold kept. induction units as [|u rest IH]; simpl; [reflexivity|].
  destruct (negb (skipped u)) eqn:Hu; simpl; [rewrite Hu, IH|]; auto.
Qed.

Lemma unitsOf_stripZero canRemux video :
  unitsOf canRemux (stripZero video) = kept (unitsOf canRemux video).
Proof. destruct canRemux; reflexivity. Qed.

Lemma sessionUnits_stripZero canRemux video g :
  sessionUnits canRemux (stripZero video) g = sessionUnits canRemux video g.
Proof.
  unfold sessionUnits. rewrite unitsOf_stripZero, kept_kept.
  destruct canRemux; reflexivity.
Qed.

Lemma assembled_stripZero canRemux tracks : forall g,
  assembled canRemux g (map stripZero tracks) = assembled canRemux g tracks.
Proof.
  induction tracks as [|video rest IH]; intros g; simpl; [reflexivity|].
  rewrite sessionUnits_stripZero, unitsOf_stripZero, kept_kept, IH. reflexivity.
Qed.

Lemma offsetAfter_stripZero canRemux tracks : forall g,
  offsetAfter canRemux g (map stripZero tracks) = offsetAfter canRemux g tracks.
Proof.
  induction tracks as [|video rest IH]; intros g; simpl; [reflexivity|].
  rewrite unitsOf_stripZero, kept_kept, IH. reflexivity.
Qed.

Lemma sessionError_stripZero canRemux video :
  sessionError canRemux (stripZero video) = sessionError canRemux video.
Proof. destruct canRemux; reflexivity. Qed.

Lemma tracksError_stripZero canRemux tracks :
  tracksError canRemux (map stripZero tracks) = tracksError canRemux tracks.
Proof.
  induction tracks as [|video rest IH]; simpl; [reflexivity|].
  rewrite sessionError_stripZero, IH. reflexivity.
Qed.

Lemma processed_stripZero canRemux tracks :
  processed canRemux (map stripZero tracks) = map stripZero (processed canRemux tracks).
Proof.
  induction tracks as [|video rest IH]; simpl; [reflexivity|].
  rewrite sessionError_stripZero.
  change (configured (stripZero video)) with (configured video).
  destruct (sessionError canRemux video); [destruct (configured video)|rewrite IH];
    reflexivity.
Qed.

Lemma somes_map {A B : Type} (f : A -> B) (l : list (option A)) :
  somes (map (option_map f) l) = map f (somes l).
Proof.
  induction l as [|[x|] l IH]; simpl; [reflexivity| |exact IH]. now rewrite IH.
Qed.

Lemma nones_map {A B : Type} (f : A -> B) (l : list (option A)) :
  nones (map (option_map f) l) = nones l.
Proof.
  induction l as [|[x|] l IH]; simpl; [reflexivity|exact IH|]. now rewrite IH.
Qed.

Lemma Promise_all_stripEnv env streams :
  Promise_all (map (getPrimaryVideoTrack (stripEnv env)) streams)
  = match Promise_all (map (getPrimaryVideoTrack env) streams) with
    | Normal tracks => Normal (map (option_map stripZero) tracks)
    | Throw e => Throw e
    end.
Proof.
  induction streams as [|s rest IH]; [reflexivity|].
  cbn [map Promise_all]. rewrite IH. cbn [getPrimaryVideoTrack stripEnv].
  destruct (getPrimaryVideoTrack env s) as [video|e]; [|reflexivity].
  destruct (Promise_all (map (getPrimaryVideoTrack env) rest)); reflexivity.
Qed.

Lemma survivors_stripEnv env streams :
  survivors (stripEnv env) streams = map stripZero (survivors env streams).
Proof.
  unfold survivors. rewrite Promise_all_stripEnv.
  destruct (Promise_all (map (getPrimaryVideoTrack env) streams));
    [apply somes_map|reflexivity].
Qed.

Lemma rejected_stripEnv env streams :
  rejected (stripEnv env) streams = rejected env streams.
Proof.
  unfold rejected. rewrite Promise_all_stripEnv.
  destruct (Promise_all (map (getPrimaryVideoTrack env) streams)); reflexivity.
Qed.

Lemma dropped_stripEnv env streams :
  dropped (stripEnv env) streams = dropped env streams.
Proof.
  unfold dropped. rewrite Promise_all_stripEnv.
  destruct (Promise_all (map (getPrimaryVideoTrack env) streams));
    [apply nones_map|reflexivity].
Qed.

Lemma forallb_sameParameters_stripZero first tracks :
  forallb (sameParameters (stripZero first)) (map stripZero tracks)
  = forallb (sameParameters first) tracks.
Proof.
  induction tracks as [|video rest IH]; simpl; [reflexivity|].
  rewrite IH. reflexivity.
Qed.

Lemma remuxEligible_stripZero tracks :
  remuxEligible (map stripZero tracks) = remuxEligible tracks.
Proof.
  destruct tracks as [|firstTrack others]; [reflexivity|].
  apply (forallb_sameParameters_stripZero firstTrack (firstTrack :: others)).
Qed.

Lemma negotiated_stripEnv env tracks :
  negotiated (stripEnv env) (map stripZero tracks) = negotiated env tracks.
Proof. destruct tracks; reflexivity. Qed.

Lemma newSource_stripEnv env tracks videoCodec :
  newSource (stripEnv env) (map stripZero tracks) videoCodec
  = newSource env tracks videoCodec.
Proof.
  destruct tracks as [|firstTrack others]; [reflexivity|].
  cbn [newSource map].
  change (stripZero firstTrack :: map stripZero others)
    with (map stripZero (firstTrack :: others)).
  rewrite forallb_sameParameters_stripZero. reflexivity.
Qed.

Lemma sessionsRun_stripEnv env source tracks :
  sessionsRun (stripEnv env) source (map stripZero tracks)
  = map stripZero (sessionsRun env source tracks).
Proof.
  unfold sessionsRun. change (out_start (stripEnv env)) with (out_start env).
  rewrite remuxEligible_stripZero, processed_stripZero.
  destruct (out_start env source); reflexivity.
Qed.

(** C7. A unit whose duration is zero is skipped with one warning and gives
    nothing to the output: a unit loop, the session loop and the whole of
    [videoConcat] add the same units, reach the same offsets and end the same
    way as on the input without its zero-duration units. *)
Theorem C7_zero_duration_units_skipped :
  (forall cfg g units l w,
      warnings (snd (for_units cfg g units l w))
      = warnings w ++ map WarnZeroDuration (filter skipped units) /\
      added (snd (for_units cfg g units l w))
      = added w ++ map (rebase cfg (anchor l (kept units)) g) (kept units) /\
      fst (for_units cfg g units l w) = fst (for_units cfg g (kept units) l w) /\
      added (snd (for_units cfg g units l w))
      = added (snd (for_units cfg g (kept units) l w))) /\
  (forall canRemux tracks g w,
      fst (for_tracks canRemux tracks g w)
      = fst (for_tracks canRemux (map stripZero tracks) g w) /\
      added (snd (for_tracks canRemux tracks g w))
      = added (snd (for_tracks canRemux (map stripZero tracks) g w))) /\
  (forall env streams w,
      fst (videoConcat env streams w) = fst (videoConcat (stripEnv env) streams w) /\
      added (snd (videoConcat env streams w))
      = added (snd (videoConcat (stripEnv env) streams w)) /\
      videoTrack (snd (videoConcat env streams w))
      = videoTrack (snd (videoConcat (stripEnv env) streams w)) /\
      disposed (snd (videoConcat env streams w))
      = disposed (snd (videoConcat (stripEnv env) streams w))).
Proof.
  split; [|split].
  - intros cfg g units l w. rewrite !for_units_spec. simpl.
    rewrite !kept_kept. repeat split; reflexivity.
  - intros canRemux tracks g w. rewrite !for_tracks_closed. simpl.
    rewrite tracksError_stripZero, offsetAfter_stripZero,
      processed_stripZero, assembled_stripZero.
    split; reflexivity.
  - intros env streams w. rewrite !videoConcat_closed.
    destruct streams as [|s streams]; [repeat split; reflexivity|].
    rewrite rejected_stripEnv, survivors_stripEnv.
    destruct (rejected env (s :: streams)); [repeat split; reflexivity|].
    assert (Hw : afterFilter (stripEnv env) (s :: streams) w
                 = afterFilter env (s :: streams) w)
      by (unfold afterFilter; now rewrite dropped_stripEnv).
    rewrite Hw.
    destruct (survivors env (s :: streams)) as [|firstTrack others];
      [repeat split; reflexivity|].
    change (map stripZero (firstTrack :: others))
      with (stripZero firstTrack :: map stripZero others).
    cbv beta iota.
    change (stripZero firstTrack :: map stripZero others)
      with (map stripZero (firstTrack :: others)).
    rewrite negotiated_stripEnv.
    destruct (negotiated env (firstTrack :: others)) as [[videoCodec|]|m];
      [|repeat split; reflexivity|repeat split; reflexivity].
    rewrite newSource_stripEnv.
    destruct (newSource env (firstTrack :: others) videoCodec) as [source|m];
      [|repeat split; reflexivity].
    cbv zeta.
    rewrite sessionsRun_stripEnv, remuxEligible_stripZero, tracksError_stripZero,
      assembled_stripZero.
    change (out_start (stripEnv env)) with (out_start env).
    change (out_finalize (stripEnv env)) with (out_finalize env).
    change (bufTarget_buffer (stripEnv env)) with (bufTarget_buffer env).
    cbn [added].
    destruct (out_start env source) as [[]|m]; [|repeat split; reflexivity].
    destruct (tracksError _ _); [repeat split; reflexivity|].
    destruct (out_finalize env source _) as [[]|m]; [|repeat split; reflexivity].
    destruct (bufTarget_buffer env _ _); rewrite !disposeAll_spec;
      repeat split; reflexivity.
Qed.

(** ** The remux decision *)

Lemma codec_eq_true a b : codec_eq a b = true <-> a = b.
Proof.
  destruct a as [[]|], b as [[]|]; simpl; split; intros H;
    try reflexivity; try discriminate.
Qed.

Lemma sameParameters_iff firstTrack x :
  sameParameters firstTrack x = true <-> matchesOnAllFive firstTrack x.
Proof.
  unfold sameParameters, matchesOnAllFive.
  rewrite !andb_true_iff, codec_eq_true, !Z.eqb_eq.
  intuition congruence.
Qed.

Lemma forallb_sameParameters_iff firstTrack tracks :
  forallb (sameParameters firstTrack) tracks = true
  <-> (forall x, In x tracks -> matchesOnAllFive firstTrack x).
Proof.
  rewrite forallb_forall. split; intros H x Hx; apply sameParameters_iff, H, Hx.
Qed.

Lemma newSource_cases env firstTrack others videoCodec :
  newSource env (firstTrack :: others) videoCodec =
  if remuxEligible (firstTrack :: others)
  then match Track.codec firstTrack with
       | Some c => Normal (EncodedVideoPacketSource (Some c))
       | None => Throw (codecTypeError env)
       end
  else Normal (VideoSampleSource videoCodec).
Proof.
  unfold newSource, remuxEligible, newEncodedVideoPacketSource.
  destruct (forallb _ _); [destruct (Track.codec firstTrack)|]; reflexivity.
Qed.

(** A run with a survivor has had every [getPrimaryVideoTrack] call
    resolve, on a list of streams that is not empty. *)
Lemma survivors_resolved env streams :
  survivors env streams <> [] -> rejected env streams = None /\ streams <> [].
Proof.
  unfold survivors, rejected. intros H. split.
  - destruct (Promise_all _); [reflexivity|now elim H].
  - intros ->. now elim H.
Qed.

(** A run that gets to build its source. *)
Lemma videoConcat_started env streams w videoCodec source :
  survivors env streams <> [] ->
  negotiated env (survivors env streams) = Normal (Some videoCodec) ->
  newSource env (survivors env streams) videoCodec = Normal source ->
  let canRemux := remuxEligible (survivors env streams) in
  let w1 := afterFilter env streams w in
  let w2 :=
    mkWorld
      (warnings w1 ++ zeroWarnings canRemux (sessionsRun env source (survivors env streams)))
      (alerts w1) (Some source)
      (added w1 ++ assembled canRemux 0 (sessionsRun env source (survivors env streams)))
      (disposed w1) in
  videoConcat env streams w =
  match out_start env source with
  | Throw e => (Throw e, w2)
  | Normal _ =>
      match tracksError canRemux (survivors env streams) with
      | Some e => (Throw e, w2)
      | None =>
          match out_finalize env source (added w2) with
          | Throw e => (Throw e, w2)
          | Normal _ =>
              match bufTarget_buffer env source (added w2) with
              | None =>
                  (Throw "bufTarget.buffer was null.",
                   disposeAll (List.length streams) w2)
              | Some buffer => (Normal buffer, disposeAll (List.length streams) w2)
              end
          end
      end
  end.
Proof.
  intros Hsurv Hcodec Hsource.
  destruct (survivors_resolved _ _ Hsurv) as [Hrej Hne].
  rewrite videoConcat_closed, Hrej, Hcodec, Hsource.
  destruct streams as [|s streams]; [now elim Hne|].
  destruct (survivors env (s :: streams)); [now elim Hsurv|reflexivity].
Qed.

(** What a run that gets to build its source leaves behind, however it
    ends. *)
Lemma videoConcat_started_world env streams w videoCodec source :
  survivors env streams <> [] ->
  negotiated env (survivors env streams) = Normal (Some videoCodec) ->
  newSource env (survivors env streams) videoCodec = Normal source ->
  videoTrack (snd (videoConcat env streams w)) = Some source /\
  added (snd (videoConcat env streams w))
  = added w ++ assembled (remuxEligible (survivors env streams)) 0
                 (sessionsRun env source (survivors env streams)) /\
  warnings (snd (videoConcat env streams w))
  = warnings (afterFilter env streams w)
    ++ zeroWarnings (remuxEligible (survivors env streams))
         (sessionsRun env source (survivors env streams)).
Proof.
  intros Hsurv Hcodec Hsource.
  rewrite (videoConcat_started env streams w videoCodec source) by assumption.
  cbv zeta.
  destruct (out_start env source) as [[]|e]; [|auto].
  destruct (tracksError _ _); [auto|].
  destruct (out_finalize env source _) as [[]|e]; [|auto].
  destruct (bufTarget_buffer env source _); rewrite disposeAll_spec; auto.
Qed.

(** A run whose source cannot be built. *)
Lemma videoConcat_no_source env streams w videoCodec e :
  survivors env streams <> [] ->
  negotiated env (survivors env streams) = Normal (Some videoCodec) ->
  newSource env (survivors env streams) videoCodec = Throw e ->
  videoConcat env streams w = (Throw e, afterFilter env streams w).
Proof.
  intros Hsurv Hcodec Hsource.
  destruct (survivors_resolved _ _ Hsurv) as [Hrej Hne].
  rewrite videoConcat_closed, Hrej, Hcodec, Hsource.
  destruct streams as [|s streams]; [now elim Hne|].
  destruct (survivors env (s :: streams)); [now elim Hsurv|reflexivity].
Qed.

(** C2. In a run that gets to the decision (some session survives and a
    codec is encodable), [canRemux] holds if and only if every surviving track
    equals the first on codec, coded width, coded height, display width and
    display height.  The remux branch is then taken: the output track is the
    encoded-packet source of the first track's codec and the loop reads
    packets, or, when that codec is null, the constructor of the source throws
    and the run ends with no output track.  On any mismatch the output track
    is the re-encoding sample source and the loop reads samples. *)
Theorem C2_remux_iff_all_match_first :
  forall env streams w firstTrack others videoCodec,
    survivors env streams = firstTrack :: others ->
    getFirstEncodableVideoCodec env (getSupportedVideoCodecs env)
      (Track.codedWidth firstTrack) (Track.codedHeight firstTrack)
    = Normal (Some videoCodec) ->
    videoTrack w = None ->
    let tracks := firstTrack :: others in
    let allMatch := forall x, In x tracks -> matchesOnAllFive firstTrack x in
    let run := videoConcat env streams w in
    (remuxEligible tracks = true <-> allMatch) /\
    (allMatch <->
     (exists c, Track.codec firstTrack = Some c /\
                videoTrack (snd run) = Some (EncodedVideoPacketSource (Some c))) \/
     (Track.codec firstTrack = None /\
      run = (Throw (codecTypeError env), afterFilter env streams w))) /\
    (~ allMatch <-> videoTrack (snd run) = Some (VideoSampleSource videoCodec)) /\
    (allMatch ->
     forall c, Track.codec firstTrack = Some c ->
       added (snd run)
       = added w
         ++ assembled true 0 (sessionsRun env (EncodedVideoPacketSource (Some c)) tracks)) /\
    (~ allMatch ->
     added (snd run)
     = added w ++ assembled false 0 (sessionsRun env (VideoSampleSource videoCodec) tracks)).
Proof.
  intros env streams w firstTrack others videoCodec Hsurv Hcodec Hw tracks allMatch run.
  assert (Hne : survivors env streams <> []) by (rewrite Hsurv; discriminate).
  assert (Hneg : negotiated env (survivors env streams) = Normal (Some videoCodec))
    by (rewrite Hsurv; exact Hcodec).
  assert (Hiff : remuxEligible tracks = true <-> allMatch)
    by apply forallb_sameParameters_iff.
  split; [exact Hiff|].
  assert (Hsource :
    newSource env (survivors env streams) videoCodec
    = if remuxEligible tracks
      then match Track.codec firstTrack with
           | Some c => Normal (EncodedVideoPacketSource (Some c))
           | None => Throw (codecTypeError env)
           end
      else Normal (VideoSampleSource videoCodec))
    by (rewrite Hsurv; apply newSource_cases).
  subst run.
  destruct (remuxEligible tracks) eqn:Hall.
  - assert (Hyes : allMatch) by now apply Hiff.
    destruct (Track.codec firstTrack) as [c|] eqn:Hc.
    + destruct (videoConcat_started_world env streams w videoCodec _ Hne Hneg Hsource)
        as (Htrack & Hadded & _).
      rewrite Hsurv in Hadded. fold tracks in Hadded. rewrite Hall in Hadded.
      split; [split; [intros _; left; now exists c|intros _; exact Hyes]|].
      split; [split; [intros H; now elim H|rewrite Htrack; discriminate]|].
      split; [intros _ c' [= <-]; exact Hadded|intros H; now elim H].
    + pose proof (videoConcat_no_source env streams w videoCodec _ Hne Hneg Hsource)
        as Hrun.
      split; [split; [intros _; right; now split|intros _; exact Hyes]|].
      split; [split; [intros H; now elim H|]|].
      { rewrite Hrun. simpl. rewrite Hw. discriminate. }
      split; [intros _ c' [=]|intros H; now elim H].
  - assert (Hno : ~ allMatch) by (intros H; apply Hiff in H; discriminate).
    destruct (videoConcat_started_world env streams w videoCodec _ Hne Hneg Hsource)
      as (Htrack & Hadded & _).
    rewrite Hsurv in Hadded. fold tracks in Hadded. rewrite Hall in Hadded.
    split.
    { split; [intros H; now elim Hno|].
      intros [(c & _ & H) | [_ H]].
      - rewrite Htrack in H. discriminate.
      - rewrite H in Htrack. simpl in Htrack. rewrite Hw in Htrack. discriminate. }
    split; [split; [intros _; exact Htrack|intros _; exact Hno]|].
    split; [intros H; now elim Hno|intros _; exact Hadded].
Qed.

Lemma C2_remux_witness :
  ((forall x, In x [scenarioA_track; scenarioA_track] ->
              matchesOnAllFive scenarioA_track x) <->
   (exists c, Track.codec scenarioA_track = Some c /\
              videoTrack (snd (videoConcat scenarioA_env [streamOf 0; streamOf 1] world0))
              = Some (EncodedVideoPacketSource (Some c))) \/
   (Track.codec scenarioA_track = None /\
    videoConcat scenarioA_env [streamOf 0; streamOf 1] world0
    = (Throw (codecTypeError scenarioA_env),
       afterFilter scenarioA_env [streamOf 0; streamOf 1] world0))) /\
  ((forall x, In x [nullCodecTrack; nullCodecTrack] ->
              matchesOnAllFive nullCodecTrack x) <->
   (exists c, Track.codec nullCodecTrack = Some c /\
              videoTrack (snd (videoConcat nullCodec_env [streamOf 0; streamOf 1] world0))
              = Some (EncodedVideoPacketSource (Some c))) \/
   (Track.codec nullCodecTrack = None /\
    videoConcat nullCodec_env [streamOf 0; streamOf 1] world0
    = (Throw (codecTypeError nullCodec_env),
       afterFilter nullCodec_env [streamOf 0; streamOf 1] world0))).
Proof.
  split.
  - apply (C2_remux_iff_all_match_first scenarioA_env [streamOf 0; streamOf 1] world0
             scenarioA_track [scenarioA_track] avc); reflexivity.
  - apply (C2_remux_iff_all_match_first nullCodec_env [streamOf 0; streamOf 1] world0
             nullCodecTrack [nullCodecTrack] vp9); reflexivity.
Defined.

(** ** Encoder negotiation *)

(** C10. When some session survives and no codec is encodable at the first
    surviving track's coded size, [videoConcat] alerts and throws before the
    remux decision: no output track is set and nothing is added, whether or
    not the tracks would have been remuxed. *)
Theorem C10_negotiation_precedes_remux_decision :
  forall env streams w firstTrack others,
    survivors env streams = firstTrack :: others ->
    getFirstEncodableVideoCodec env (getSupportedVideoCodecs env)
      (Track.codedWidth firstTrack) (Track.codedHeight firstTrack) = Normal None ->
    videoConcat env streams w
    = (Throw "This browser does not support video encoding.",
       alert "Your browser doesn't seem to support video encoding."
             (afterFilter env streams w)).
Proof.
  intros env streams w firstTrack others Hsurv Hcodec.
  assert (Hne : survivors env streams <> []) by (rewrite Hsurv; discriminate).
  destruct (survivors_resolved _ _ Hne) as [Hrej Hstreams].
  rewrite videoConcat_closed, Hrej, Hsurv. simpl negotiated. rewrite Hcodec.
  destruct streams; [now elim Hstreams|reflexivity].
Qed.

Lemma C10_negotiation_witness :
  remuxEligible (survivors noEncoder_env [streamOf 0; streamOf 1]) = true /\
  videoConcat noEncoder_env [streamOf 0; streamOf 1] world0
  = (Throw "This browser does not support video encoding.",
     alert "Your browser doesn't seem to support video encoding."
           (afterFilter noEncoder_env [streamOf 0; streamOf 1] world0)).
Proof.
  split; [reflexivity|].
  apply (C10_negotiation_precedes_remux_decision noEncoder_env
           [streamOf 0; streamOf 1] world0 scenarioA_track [scenarioA_track]);
    reflexivity.
Defined.
(** ** Session grouping *)

Section Sorting.
Context {T : Type} (picker : T -> Z).

Let le (a b : T) : Prop := (picker a <= picker b)%Z.

Lemma insertSorted_perm compare (x : T) l :
  Permutation (insertSorted compare x l) (x :: l).
Proof.
  induction l as [|y l IH]; simpl; [reflexivity|].
  destruct (compare x y <=? 0)%Z; [reflexivity|].
  rewrite IH. apply perm_swap.
Qed.

Lemma toSorted_perm compare (l : list T) : Permutation (toSorted compare l) l.
Proof.
  induction l as [|x l IH]; simpl; [reflexivity|].
  rewrite insertSorted_perm. now constructor.
Qed.

Lemma insertSorted_sorted x l :
  StronglySorted le l -> StronglySorted le (insertSorted (ascending picker) x l).
Proof.
  induction 1 as [|y l Hl IH Hy]; simpl.
  - repeat constructor.
  - unfold ascending at 1. destruct (picker x - picker y <=? 0)%Z eqn:Hc.
    + apply Z.leb_le in Hc. constructor; [constructor; assumption|].
      constructor; [unfold le; lia|].
      eapply Forall_impl; [|exact Hy]. unfold le; intros; lia.
    + apply Z.leb_gt in Hc. constructor; [exact IH|].
      eapply Permutation_Forall; [symmetry; apply insertSorted_perm|].
      constructor; [unfold le; lia|exact Hy].
Qed.

Lemma toSorted_sorted (l : list T) :
  StronglySorted le (toSorted (ascending picker) l).
Proof.
  induction l as [|x l IH]; simpl; [constructor|].
  now apply insertSorted_sorted.
Qed.
End Sorting.

Lemma toSorted_map {A B : Type} (f : A -> B) (cmpA : A -> A -> Z) (cmpB : B -> B -> Z) :
  (forall a b, cmpB (f a) (f b) = cmpA a b) ->
  forall l, toSorted cmpB (map f l) = map f (toSorted cmpA l).
Proof.
  intros Hcmp.
  assert (Hins : forall x l, insertSorted cmpB (f x) (map f l)
                             = map f (insertSorted cmpA x l)).
  { intros x l. induction l as [|y l IH]; simpl; [reflexivity|].
    rewrite Hcmp. destruct (cmpA x y <=? 0)%Z; simpl; [reflexivity|].
    now rewrite IH. }
  induction l as [|x l IH]; simpl; [reflexivity|].
  now rewrite IH, Hins.
Qed.

Lemma firstSeen_In k keys : In k (firstSeen keys) <-> In k keys.
Proof.
  induction keys as [|x rest IH]; simpl; [tauto|].
  rewrite filter_In, IH. split.
  - intros [H | [H _]]; auto.
  - intros [H | H]; [now left|].
    destruct (Z.eq_dec x k) as [E | E]; [now left|right].
    split; [exact H|]. apply negb_true_iff, Z.eqb_neq. congruence.
Qed.

Lemma firstSeen_NoDup keys : NoDup (firstSeen keys).
Proof.
  induction keys as [|x rest IH]; simpl; constructor.
  - rewrite filter_In, Z.eqb_refl. intros [_ H]; discriminate.
  - now apply NoDup_filter.
Qed.

Lemma firstSeen_snoc_new k keys :
  ~ In k keys -> firstSeen (keys ++ [k]) = firstSeen keys ++ [k].
Proof.
  induction keys as [|x rest IH]; simpl; intros Hk; [reflexivity|].
  rewrite IH by tauto. rewrite filter_app. simpl.
  assert (E : (k =? x)%Z = false) by (apply Z.eqb_neq; intros ->; tauto).
  now rewrite E.
Qed.

Lemma firstSeen_snoc_seen k keys :
  In k keys -> firstSeen (keys ++ [k]) = firstSeen keys.
Proof.
  induction keys as [|x rest IH]; simpl; intros Hk; [easy|].
  destruct (in_dec Z.eq_dec k rest) as [Hin | Hnot].
  - now rewrite IH.
  - destruct Hk as [-> | Hk]; [|tauto].
    rewrite firstSeen_snoc_new by assumption.
    rewrite filter_app. simpl. rewrite Z.eqb_refl. simpl. now rewrite app_nil_r.
Qed.

Lemma groupOf_other items x key :
  Chunk.session x <> key -> groupOf (items ++ [x]) key = groupOf items key.
Proof.
  intros Hne. unfold groupOf. rewrite filter_app. simpl.
  apply Z.eqb_neq in Hne. rewrite Hne. now rewrite app_nil_r.
Qed.

Lemma map_groupOf_others items x keys :
  ~ In (Chunk.session x) keys ->
  map (groupOf (items ++ [x])) keys = map (groupOf items) keys.
Proof.
  intros Hk. apply map_ext_in. intros k Hin. apply groupOf_other.
  intros E. apply Hk. now rewrite E.
Qed.

Lemma addToGroup_seen items x keys :
  NoDup keys -> In (Chunk.session x) keys ->
  addToGroup (Chunk.session x) x (map (groupOf items) keys)
  = map (groupOf (items ++ [x])) keys.
Proof.
  induction 1 as [|k keys Hk Hnd IH]; simpl; [easy|].
  intros Hin. destruct (Z.eqb_spec (Chunk.session x) k) as [E | E].
  - subst k. rewrite map_groupOf_others by assumption.
    unfold groupOf at 2. rewrite filter_app. simpl. now rewrite Z.eqb_refl.
  - destruct Hin as [Hin | Hin]; [congruence|].
    rewrite IH by assumption. now rewrite groupOf_other.
Qed.

Lemma addToGroup_new items x keys :
  ~ In (Chunk.session x) keys ->
  (forall y, In y items -> Chunk.session y <> Chunk.session x) ->
  addToGroup (Chunk.session x) x (map (groupOf items) keys)
  = map (groupOf (items ++ [x])) (keys ++ [Chunk.session x]).
Proof.
  intros Hk Hitems. induction keys as [|k keys IH]; simpl.
  - unfold groupOf. rewrite filter_app. simpl. rewrite Z.eqb_refl.
    replace (filter _ items) with (@nil Chunk.t); [reflexivity|].
    symmetry. induction items as [|y items IHi]; simpl; [reflexivity|].
    destruct (Z.eqb_spec (Chunk.session y) (Chunk.session x)) as [E | E].
    + exfalso. apply (Hitems y); [now left|exact E].
    + apply IHi. intros z Hz. apply Hitems. now right.
  - destruct (Z.eqb_spec (Chunk.session x) k) as [E | E].
    + exfalso. apply Hk. now left.
    + rewrite IH by (intros H; apply Hk; now right).
      now rewrite groupOf_other.
Qed.

Lemma groupBy_from items : forall done,
  fold_left (fun groups x => addToGroup (Chunk.session x) x groups) items
            (map (groupOf done) (firstSeen (map Chunk.session done)))
  = map (groupOf (done ++ items)) (firstSeen (map Chunk.session (done ++ items))).
Proof.
  induction items as [|x items IH]; intros done; simpl.
  - now rewrite app_nil_r.
  - replace (done ++ x :: items) with ((done ++ [x]) ++ items)
      by (now rewrite <- app_assoc).
    rewrite <- IH. f_equal. rewrite map_app. simpl.
    destruct (in_dec Z.eq_dec (Chunk.session x) (map Chunk.session done)) as [Hin | Hnot].
    + rewrite firstSeen_snoc_seen by assumption.
      apply addToGroup_seen; [apply firstSeen_NoDup|now apply firstSeen_In].
    + rewrite firstSeen_snoc_new by assumption.
      apply addToGroup_new.
      * now rewrite firstSeen_In.
      * intros y Hy E. apply Hnot. rewrite <- E. now apply in_map.
Qed.

Lemma groupBy_spec items :
  groupBy items = map (groupOf items) (firstSeen (map Chunk.session items)).
Proof. exact (groupBy_from items []). Qed.

Lemma filter_groupOf (p : Z -> bool) items keys :
  filter (fun g => p (fst g)) (map (groupOf items) keys)
  = map (groupOf items) (filter p keys).
Proof.
  induction keys as [|k keys IH]; simpl; [reflexivity|].
  destruct (p k); simpl; now rewrite IH.
Qed.

Lemma filter_truthy {A B : Type} (l : list (A * list B)) :
  filter (fun x => truthy (snd x)) l = l.
Proof. induction l as [|x l IH]; simpl; [reflexivity|now rewrite IH]. Qed.

Lemma segmented_spec timelapse :
  segmented timelapse
  = map (segmentOf (LocalTimelapse.chunks timelapse))
        (propertyOrder (firstSeen (map Chunk.session (LocalTimelapse.chunks timelapse)))).
Proof.
  unfold segmented, entries, propertyOrder.
  rewrite groupBy_spec, filter_truthy.
  rewrite (filter_groupOf isArrayIndex), (filter_groupOf (fun k => negb (isArrayIndex k))).
  rewrite (toSorted_map (groupOf (LocalTimelapse.chunks timelapse))
             (ascending (fun k => k)) (ascending fst)) by reflexivity.
  rewrite <- map_app, map_map. reflexivity.
Qed.

Lemma filter_partition_perm {A : Type} (p : A -> bool) (l : list A) :
  Permutation (filter p l ++ filter (fun x => negb (p x)) l) l.
Proof.
  induction l as [|x l IH]; simpl; [reflexivity|].
  destruct (p x); simpl.
  - now constructor.
  - symmetry. apply Permutation_cons_app. now symmetry.
Qed.

Lemma propertyOrder_perm keys : Permutation (propertyOrder keys) keys.
Proof.
  unfold propertyOrder.
  rewrite toSorted_perm. apply filter_partition_perm.
Qed.

Lemma segmented_sessions timelapse :
  Permutation (map Segment.session (segmented timelapse))
              (firstSeen (map Chunk.session (LocalTimelapse.chunks timelapse))).
Proof.
  rewrite segmented_spec, map_map. simpl. rewrite map_id.
  apply propertyOrder_perm.
Qed.

Lemma segmented_nonempty timelapse :
  LocalTimelapse.chunks timelapse <> [] -> segmented timelapse <> [].
Proof.
  intros Hne Hseg. pose proof (segmented_sessions timelapse) as Hp.
  rewrite Hseg in Hp. simpl in Hp. apply Permutation_nil in Hp.
  destruct (LocalTimelapse.chunks timelapse); [easy|discriminate].
Qed.

Lemma toSorted_of_sorted {T : Type} (picker : T -> Z) (l : list T) :
  StronglySorted (fun a b => (picker a <= picker b)%Z) l ->
  toSorted (ascending picker) l = l.
Proof.
  induction 1 as [|x l Hl IH Hx]; simpl; [reflexivity|].
  rewrite IH. destruct l as [|y l]; [reflexivity|]. simpl.
  apply Forall_inv in Hx. unfold ascending.
  replace (picker x - picker y <=? 0)%Z with true; [reflexivity|].
  symmetry. apply Z.leb_le. lia.
Qed.

Lemma StronglySorted_filter {T : Type} (R : T -> T -> Prop) (p : T -> bool) l :
  StronglySorted R l -> StronglySorted R (filter p l).
Proof.
  induction 1 as [|x l Hl IH Hx]; simpl; [constructor|].
  destruct (p x); [|exact IH]. constructor; [exact IH|].
  apply Forall_forall. intros y Hy. apply filter_In in Hy as [Hy _].
  revert y Hy. now apply Forall_forall.
Qed.

Lemma StronglySorted_map_filter {A : Type} (f : A -> Z) (p : A -> bool) l :
  StronglySorted Z.le (map f l) -> StronglySorted Z.le (map f (filter p l)).
Proof.
  induction l as [|x l IH]; simpl; intros Hs; [constructor|].
  apply StronglySorted_inv in Hs as [Hs Hx].
  destruct (p x); [|now apply IH]. simpl. constructor; [now apply IH|].
  apply Forall_map. apply Forall_forall. intros y Hy.
  apply filter_In in Hy as [Hy _].
  rewrite Forall_map, Forall_forall in Hx. now apply Hx.
Qed.

(** The sessions of a chunk list that is in timestamp order come in the
    order of their first chunks' timestamps, when they come in the order of
    first appearance. *)
Lemma firstSeen_by_first_chunk (items : list Chunk.t) :
  StronglySorted (fun a b => (Chunk.timestamp a <= Chunk.timestamp b)%Z) items ->
  StronglySorted Z.le
    (map (fun k => firstChunkTimestamp (segmentOf items k))
         (firstSeen (map Chunk.session items))).
Proof.
  induction 1 as [|x items Hs IH Hx]; simpl; [constructor|].
  assert (Hhead : firstChunkTimestamp (segmentOf (x :: items) (Chunk.session x))
                  = Chunk.timestamp x).
  { unfold firstChunkTimestamp, segmentOf. cbn [Segment.chunks].
    rewrite toSorted_of_sorted
      by (apply StronglySorted_filter; now constructor).
    simpl. now rewrite Z.eqb_refl. }
  assert (Hother : forall k, k <> Chunk.session x ->
            firstChunkTimestamp (segmentOf (x :: items) k)
            = firstChunkTimestamp (segmentOf items k)).
  { intros k Hk. unfold firstChunkTimestamp, segmentOf. cbn [Segment.chunks].
    simpl. apply not_eq_sym, Z.eqb_neq in Hk. now rewrite Hk. }
  rewrite Hhead.
  rewrite (map_ext_in _ (fun k => firstChunkTimestamp (segmentOf items k))).
  2: { intros k Hk. apply filter_In in Hk as [_ Hk]. apply Hother.
       apply negb_true_iff, Z.eqb_neq in Hk. exact Hk. }
  constructor; [now apply StronglySorted_map_filter|].
  apply Forall_map, Forall_forall. intros k Hk.
  apply filter_In in Hk as [Hk _]. apply (proj1 (firstSeen_In _ _)) in Hk.
  apply in_map_iff in Hk as (y & Hy & Hin).
  unfold firstChunkTimestamp, segmentOf. cbn [Segment.chunks].
  rewrite toSorted_of_sorted by (now apply StronglySorted_filter).
  destruct (filter (fun c => (Chunk.session c =? k)%Z) items) as [|z zs] eqn:Hf.
  - assert (Hyf : In y (filter (fun c => (Chunk.session c =? k)%Z) items))
      by (apply filter_In; split; [exact Hin|now apply Z.eqb_eq]).
    now rewrite Hf in Hyf.
  - assert (Hz : In z items).
    { assert (Hzf : In z (filter (fun c => (Chunk.session c =? k)%Z) items))
        by (rewrite Hf; now left).
      now apply filter_In in Hzf as [Hzf _]. }
    simpl. clear Hf. revert z Hz. apply Forall_forall. exact Hx.
Qed.

Lemma propertyOrder_no_index keys :
  (forall k, In k keys -> isArrayIndex k = false) -> propertyOrder keys = keys.
Proof.
  intros H. unfold propertyOrder.
  assert (Hnone : filter isArrayIndex keys = []).
  { induction keys as [|k keys IH]; simpl; [reflexivity|].
    rewrite (H k) by now left. apply IH. intros k' Hk'. apply H. now right. }
  assert (Hall : filter (fun k => negb (isArrayIndex k)) keys = keys).
  { clear Hnone. induction keys as [|k keys IH]; simpl; [reflexivity|].
    rewrite (H k) by now left. simpl. f_equal. apply IH.
    intros k' Hk'. apply H. now right. }
  now rewrite Hnone, Hall.
Qed.

(** C9, as the code has it. For every chunk collection the grouping is a
    function of its input; it yields one session per distinct session id,
    none when and only when there is no chunk; each session holds exactly the
    chunks of its id, sorted by ascending timestamp, chunks of equal timestamp
    in input order; and the sessions come in the own-property order of their
    ids: the ids that are array indices in ascending order, then the other
    ids in the order in which the chunk list first mentions them.  When the
    chunk list is in timestamp order and no id is an array index, that is the
    order of the sessions' first chunks' timestamps. *)
Theorem C9_sessions_grouped_and_sorted_within :
  forall timelapse,
    (forall other, LocalTimelapse.chunks other = LocalTimelapse.chunks timelapse ->
                   segmented other = segmented timelapse) /\
    (LocalTimelapse.chunks timelapse <> [] -> segmented timelapse <> []) /\
    (forall s, In s (segmented timelapse) ->
       StronglySorted (fun a b => (Chunk.timestamp a <= Chunk.timestamp b)%Z)
                      (Segment.chunks s) /\
       Segment.chunks s
       = toSorted (ascending Chunk.timestamp)
           (filter (fun x => (Chunk.session x =? Segment.session s)%Z)
                   (LocalTimelapse.chunks timelapse)) /\
       Permutation (Segment.chunks s)
           (filter (fun x => (Chunk.session x =? Segment.session s)%Z)
                   (LocalTimelapse.chunks timelapse)) /\
       Segment.chunks s <> []) /\
    NoDup (map Segment.session (segmented timelapse)) /\
    (forall x, In x (LocalTimelapse.chunks timelapse) ->
               In (Chunk.session x) (map Segment.session (segmented timelapse))) /\
    map Segment.session (segmented timelapse)
    = propertyOrder (firstSeen (map Chunk.session (LocalTimelapse.chunks timelapse))) /\
    (StronglySorted (fun a b => (Chunk.timestamp a <= Chunk.timestamp b)%Z)
                    (LocalTimelapse.chunks timelapse) ->
     (forall x, In x (LocalTimelapse.chunks timelapse) ->
                isArrayIndex (Chunk.session x) = false) ->
     Sorted Z.le (map firstChunkTimestamp (segmented timelapse))).
Proof.
  intros timelapse. split; [|split; [|split; [|split; [|split; [|split]]]]].
  - intros other Heq. unfold segmented. now rewrite Heq.
  - apply segmented_nonempty.
  - intros s Hs. rewrite segmented_spec in Hs.
    apply in_map_iff in Hs as (k & <- & Hk). simpl.
    split; [apply toSorted_sorted|]. split; [reflexivity|].
    split; [apply toSorted_perm|].
    intros Hnil.
    pose proof (toSorted_perm (ascending Chunk.timestamp)
                  (filter (fun x => (Chunk.session x =? k)%Z)
                          (LocalTimelapse.chunks timelapse))) as Hp.
    rewrite Hnil in Hp. apply Permutation_nil in Hp.
    apply (Permutation_in _ (propertyOrder_perm _)) in Hk.
    apply (proj1 (firstSeen_In _ _)) in Hk.
    apply in_map_iff in Hk as (x & Hx & Hin).
    assert (Hf : In x (filter (fun x => (Chunk.session x =? k)%Z)
                              (LocalTimelapse.chunks timelapse)))
      by (apply filter_In; split; [exact Hin|now apply Z.eqb_eq]).
    now rewrite Hp in Hf.
  - eapply Permutation_NoDup; [symmetry; apply segmented_sessions|].
    apply firstSeen_NoDup.
  - intros x Hx.
    eapply Permutation_in; [symmetry; apply segmented_sessions|].
    apply firstSeen_In. now apply in_map.
  - rewrite segmented_spec, map_map. simpl. now rewrite map_id.
  - intros Hsorted Hids. apply StronglySorted_Sorted.
    rewrite segmented_spec, propertyOrder_no_index, map_map.
    + now apply firstSeen_by_first_chunk.
    + intros k Hk. apply (proj1 (firstSeen_In _ _)) in Hk.
      apply in_map_iff in Hk as (x & <- & Hx). now apply Hids.
Qed.

Lemma C9_sessions_witness :
  segmented unsortedSessions <> [] /\
  map Segment.session (segmented unsortedSessions) = [1; 2]%Z /\
  Sorted Z.le (map firstChunkTimestamp (segmented chronological)).
Proof.
  destruct (C9_sessions_grouped_and_sorted_within unsortedSessions)
    as (_ & Hne & _ & _ & _ & Horder & _).
  destruct (C9_sessions_grouped_and_sorted_within chronological)
    as (_ & _ & _ & _ & _ & _ & Hsorted).
  split; [apply Hne; discriminate|]. split; [rewrite Horder; reflexivity|].
  apply Hsorted.
  - repeat constructor; simpl; lia.
  - intros x [<- | [<- | [<- | []]]]; reflexivity.
Defined.

(** C9 as stated fails: the sessions are not ordered by first-chunk
    timestamp.  Session 1 holds a chunk stamped 10, session 2 a chunk stamped
    5; the sessions come out as 1, 2. *)
Lemma C9_sessions_not_sorted_by_first_chunk :
  map firstChunkTimestamp (segmented unsortedSessions) = [10; 5]%Z /\
  ~ Sorted Z.le (map firstChunkTimestamp (segmented unsortedSessions)).
Proof.
  split; [reflexivity|].
  change (map firstChunkTimestamp (segmented unsortedSessions)) with [10; 5]%Z.
  intros H. apply Sorted_inv in H as [_ H]. apply HdRel_inv in H. lia.
Qed.

(** ** Where the session loop ends *)

Lemma tracksError_app canRemux pre post :
  tracksError canRemux (pre ++ post)
  = match tracksError canRemux pre with
    | Some e => Some e
    | None => tracksError canRemux post
    end.
Proof.
  induction pre as [|video pre IH]; simpl; [reflexivity|].
  destruct (sessionError canRemux video); [reflexivity|exact IH].
Qed.

Lemma processed_app canRemux pre post :
  tracksError canRemux pre = None ->
  processed canRemux (pre ++ post) = pre ++ processed canRemux post.
Proof.
  induction pre as [|video pre IH]; simpl; [reflexivity|].
  destruct (sessionError canRemux video); [discriminate|].
  intros H. now rewrite IH.
Qed.

Lemma processed_None canRemux tracks :
  tracksError canRemux tracks = None ->
  processed canRemux tracks = tracks /\ forallb configured tracks = true.
Proof.
  induction tracks as [|video rest IH]; simpl; [auto|].
  destruct (sessionError canRemux video) eqn:He; [discriminate|].
  intros H. destruct (IH H) as [-> ->].
  apply sessionError_None in He as (-> & _). auto.
Qed.

(** The session in which the loop ends, when it ends in one. *)
Lemma tracksError_Some canRemux tracks m :
  tracksError canRemux tracks = Some m ->
  exists pre video post,
    tracks = pre ++ video :: post /\ tracksError canRemux pre = None /\
    sessionError canRemux video = Some m.
Proof.
  induction tracks as [|video rest IH]; simpl; [discriminate|].
  destruct (sessionError canRemux video) as [e|] eqn:He.
  - intros [= <-]. now exists [], video, rest.
  - intros H. destruct (IH H) as (pre & v & post & -> & Hpre & Hv).
    exists (video :: pre), v, post. simpl. rewrite He. auto.
Qed.

(** What a session's error is made of. *)
Lemma sessionError_cases canRemux video m :
  sessionError canRemux video = Some m ->
  Track.getDecoderConfig video = Throw m \/
  (m = "Could not get the decoder config from the input"%string /\
   Track.getDecoderConfig video = Normal None) \/
  (configured video = true /\ loopError canRemux video = Some m).
Proof.
  unfold sessionError, configured.
  destruct (Track.getDecoderConfig video) as [[c|]|e]; intros H.
  - right; right. auto.
  - injection H as <-. right; left. auto.
  - injection H as <-. now left.
Qed.

(** In front of a session without a decoder configuration, the loop hands
    over a prefix of the sessions before it, and nothing of that session or
    of those behind it. *)
Lemma processed_before_unconfigured canRemux pre video post :
  Track.getDecoderConfig video = Normal None ->
  exists rest, pre = processed canRemux (pre ++ video :: post) ++ rest.
Proof.
  intros Hv. induction pre as [|p pre [rest IH]]; simpl.
  - unfold sessionError, configured. rewrite Hv. now exists [].
  - destruct (sessionError canRemux p).
    + destruct (configured p); [now exists pre|now exists (p :: pre)].
    + exists rest. simpl. f_equal. exact IH.
Qed.

Lemma tracksError_unconfigured canRemux pre video post :
  Track.getDecoderConfig video = Normal None ->
  tracksError canRemux (pre ++ video :: post) <> None.
Proof.
  intros Hv. rewrite tracksError_app. destruct (tracksError canRemux pre); [discriminate|].
  simpl. unfold sessionError. rewrite Hv. discriminate.
Qed.

Lemma Promise_all_Throw {A : Type} (promises : list (Completion A)) e :
  Promise_all promises = Throw e -> In (Throw e) promises.
Proof.
  induction promises as [|[a|e'] rest IH]; simpl; [discriminate| |].
  - destruct (Promise_all rest); [discriminate|]. intros [= <-]. auto.
  - intros [= <-]. now left.
Qed.

Lemma rejected_Some env streams m :
  rejected env streams = Some m ->
  exists x, In x streams /\ getPrimaryVideoTrack env x = Throw m.
Proof.
  unfold rejected.
  destruct (Promise_all (map (getPrimaryVideoTrack env) streams)) as [|e] eqn:Hall;
    [discriminate|].
  intros [= <-]. apply Promise_all_Throw, in_map_iff in Hall as (x & Hx & Hin).
  now exists x.
Qed.

(** ** A session without a decoder configuration *)

(** C6, as the code has it. When a surviving session has no decoder
    configuration, the whole run is aborted, on the remux path as on the
    transcode path: it throws, no input is disposed, and what it has added
    comes from sessions in front of that one only.  When the run gets to that
    session (the source was built, [out.start()] resolved and the sessions in
    front of it went through), it is the assertion in the session loop that
    throws: the sessions in front of it have been added, no warning is logged
    for it, and no later session is processed. *)
Theorem C6_missing_decoder_config_aborts_run :
  forall env streams w pre video post,
    survivors env streams = pre ++ video :: post ->
    Track.getDecoderConfig video = Normal None ->
    let canRemux := remuxEligible (survivors env streams) in
    let run := videoConcat env streams w in
    (is_throw (fst run) = true /\
     disposed (snd run) = disposed w /\
     exists done rest,
       pre = done ++ rest /\ added (snd run) = added w ++ assembled canRemux 0 done) /\
    (forall videoCodec source,
        negotiated env (survivors env streams) = Normal (Some videoCodec) ->
        newSource env (survivors env streams) videoCodec = Normal source ->
        out_start env source = Normal tt ->
        tracksError canRemux pre = None ->
        fst run = Throw "Could not get the decoder config from the input" /\
        added (snd run) = added w ++ assembled canRemux 0 pre /\
        warnings (snd run)
        = warnings (afterFilter env streams w) ++ zeroWarnings canRemux pre).
Proof.
  intros env streams w pre video post Hsurv Hv canRemux run.
  assert (Hne : survivors env streams <> [])
    by (rewrite Hsurv; destruct pre; discriminate).
  destruct (survivors_resolved _ _ Hne) as [Hrej Hstreams].
  assert (Herr : tracksError canRemux (survivors env streams) <> None)
    by (rewrite Hsurv; now apply tracksError_unconfigured).
  destruct (processed_before_unconfigured canRemux pre video post Hv) as [rest Hrest].
  rewrite <- Hsurv in Hrest.
  assert (Hnone : exists done rest0, pre = done ++ rest0 /\ added w = added w ++ assembled canRemux 0 done)
    by (exists [], pre; simpl; now rewrite app_nil_r).
  split.
  - subst run. rewrite videoConcat_closed, Hrej.
    destruct streams as [|s streams]; [now elim Hstreams|].
    destruct (survivors env (s :: streams)) as [|firstTrack others] eqn:Hs;
      [now elim Hne|].
    destruct (negotiated env (firstTrack :: others)) as [[videoCodec|]|m];
      [|simpl; auto|simpl; auto].
    destruct (newSource env (firstTrack :: others) videoCodec) as [source|m];
      [|simpl; auto].
    cbv zeta. unfold sessionsRun.
    destruct (out_start env source) as [[]|m].
    + fold canRemux.
      destruct (tracksError canRemux (firstTrack :: others)) as [m|]; [|now elim Herr].
      simpl. split; [reflexivity|]. split; [reflexivity|].
      now exists (processed canRemux (firstTrack :: others)), rest.
    + simpl. rewrite app_nil_r. auto.
  - intros videoCodec source Hcodec Hsource Hstart Hpre. subst run.
    rewrite (videoConcat_started env streams w videoCodec source) by assumption.
    cbv zeta. unfold sessionsRun. rewrite Hstart. fold canRemux.
    assert (E : tracksError canRemux (survivors env streams)
                = Some "Could not get the decoder config from the input"%string).
    { rewrite Hsurv, tracksError_app, Hpre. simpl. unfold sessionError.
      now rewrite Hv. }
    assert (P : processed canRemux (survivors env streams) = pre).
    { rewrite Hsurv, processed_app by assumption. simpl.
      unfold sessionError, configured. rewrite Hv. apply app_nil_r. }
    rewrite E, P. simpl. auto.
Qed.

Lemma C6_missing_config_witness :
  fst (videoConcat missingConfig_env [streamOf 0; streamOf 1; streamOf 2] world0)
  = Throw "Could not get the decoder config from the input" /\
  added (snd (videoConcat missingConfig_env [streamOf 0; streamOf 1; streamOf 2] world0))
  = assembled true 0 [goodTrack].
Proof.
  destruct (C6_missing_decoder_config_aborts_run missingConfig_env
              [streamOf 0; streamOf 1; streamOf 2] world0
              [goodTrack] noConfigTrack [goodTrack])
    as (_ & H); try reflexivity.
  destruct (H vp9 (EncodedVideoPacketSource (Some vp9))) as (Hthrow & Hadded & _);
    try reflexivity.
  split; [exact Hthrow|exact Hadded].
Defined.

(** C6 as stated fails: on the remux path, the second of three sessions has
    no decoder configuration; the run throws, logs no warning, and the third
    session is never processed. *)
Lemma C6_run_aborted_on_remux_path :
  remuxEligible (survivors missingConfig_env [streamOf 0; streamOf 1; streamOf 2]) = true /\
  videoTrack (snd (videoConcat missingConfig_env [streamOf 0; streamOf 1; streamOf 2] world0))
  = Some (EncodedVideoPacketSource (Some vp9)) /\
  fst (videoConcat missingConfig_env [streamOf 0; streamOf 1; streamOf 2] world0)
  = Throw "Could not get the decoder config from the input" /\
  warnings (snd (videoConcat missingConfig_env [streamOf 0; streamOf 1; streamOf 2] world0))
  = [] /\
  List.length
    (added (snd (videoConcat missingConfig_env [streamOf 0; streamOf 1; streamOf 2] world0)))
  = 2%nat.
Proof. vm_compute. repeat split. Qed.

(** ** Disposal of the inputs *)

(** C5, as the code has it. The inputs are disposed, all of them, after
    [out.finalize()] has resolved and nowhere else: a run that returns, or that
    throws on a null buffer, has finalized and has disposed every input; a run
    that throws earlier, on one of the checks of the code itself (no input, no
    primary track, no encodable codec, no decoder configuration) or on a
    rejection of a call into mediabunny, has disposed none. *)
Theorem C5_inputs_disposed_only_after_finalize :
  forall env streams w,
    let run := videoConcat env streams w in
    let finalized :=
      exists source,
        videoTrack (snd run) = Some source /\
        out_finalize env source (added (snd run)) = Normal tt in
    match fst run with
    | Normal _ =>
        finalized /\
        disposed (snd run) = disposed w ++ seq 0 (List.length streams)
    | Throw m =>
        (m = "bufTarget.buffer was null."%string /\ finalized /\
         disposed (snd run) = disposed w ++ seq 0 (List.length streams)) \/
        (In m ["No inputs were passed to concat()."%string;
               "No inputs had any primary video tracks!"%string;
               "This browser does not support video encoding."%string;
               "Could not get the decoder config from the input"%string] /\
         disposed (snd run) = disposed w) \/
        (libraryRejection env streams m /\ disposed (snd run) = disposed w)
    end.
Proof.
  intros env streams w. cbv zeta. rewrite videoConcat_closed.
  destruct streams as [|s streams]; [right; left; simpl; auto|].
  destruct (rejected env (s :: streams)) as [m|] eqn:Hrej.
  { right; right. split; [|reflexivity]. left. now apply rejected_Some. }
  destruct (survivors env (s :: streams)) as [|firstTrack others] eqn:Hsurv;
    [right; left; simpl; auto|].
  destruct (negotiated env (firstTrack :: others)) as [[videoCodec|]|m] eqn:Hneg.
  3: { right; right. split; [|reflexivity]. right; left.
       unfold libraryRejection. now rewrite Hsurv. }
  2: { right; left. simpl. auto. }
  destruct (newSource env (firstTrack :: others) videoCodec) as [source|m] eqn:Hsource.
  2: { right; right. split; [|reflexivity]. right; right; left.
       rewrite Hsurv. rewrite newSource_cases in Hsource.
       destruct (remuxEligible (firstTrack :: others)); [|discriminate].
       destruct (Track.codec firstTrack) eqn:Hc; [discriminate|].
       injection Hsource as <-. split; [reflexivity|]. split; [reflexivity|].
       now exists firstTrack, others. }
  cbv zeta.
  destruct (out_start env source) as [[]|m] eqn:Hstart.
  2: { right; right. split; [|reflexivity]. do 3 right; left. now exists source. }
  destruct (tracksError _ _) as [m|] eqn:Herr.
  { apply tracksError_Some in Herr as (pre & video & post & Htracks & _ & Hv).
    assert (Hin : In video (firstTrack :: others))
      by (rewrite Htracks; apply in_or_app; right; now left).
    apply sessionError_cases in Hv as [Hv | [[-> Hv] | [_ Hv]]].
    - right; right. split; [|reflexivity]. do 4 right; left.
      rewrite Hsurv. exists video. auto.
    - right; left. simpl. auto 6.
    - right; right. split; [|reflexivity]. do 4 right; left.
      rewrite Hsurv. exists video. auto. }
  destruct (out_finalize env source _) as [[]|m] eqn:Hfin.
  2: { right; right. split; [|reflexivity]. do 5 right. eauto. }
  destruct (bufTarget_buffer env source _); rewrite disposeAll_spec;
    cbn [fst snd videoTrack added disposed].
  - split; [|reflexivity]. exists source. split; [reflexivity|exact Hfin].
  - left. split; [reflexivity|]. split; [|reflexivity].
    exists source. split; [reflexivity|exact Hfin].
Qed.

(** C5 as stated fails: the one input of this run has no primary video
    track; the run throws and the input is not disposed.  The same happens
    when no codec is encodable. *)
Lemma C5_inputs_left_open_on_error :
  fst (videoConcat noTrack_env [streamOf 0] world0)
  = Throw "No inputs had any primary video tracks!" /\
  ~ In 0%nat (disposed (snd (videoConcat noTrack_env [streamOf 0] world0))) /\
  fst (videoConcat noEncoder_env [streamOf 0; streamOf 1] world0)
  = Throw "This browser does not support video encoding." /\
  disposed (snd (videoConcat noEncoder_env [streamOf 0; streamOf 1] world0)) = [].
Proof. vm_compute. repeat split. intros []. Qed.

(** ** Fatal errors *)

Lemma mergeVideoSessions_unfold env timelapse w :
  mergeVideoSessions env timelapse w =
  match LocalTimelapse.chunks timelapse with
  | [] =>
      (Throw "No chunks were found when stopping the recording. Have we forgotten to capture any?!", w)
  | _ :: _ =>
      match videoConcat env (sessionStreams timelapse) w with
      | (Throw e, w') => (Throw e, w')
      | (Normal concatenated, w') => (Normal (Blob.mk (Bytes concatenated) EmptyString), w')
      end
  end.
Proof.
  unfold mergeVideoSessions.
  destruct (LocalTimelapse.chunks timelapse) as [|c cs] eqn:Hchunks; [reflexivity|].
  simpl (List.length (c :: cs) =? 0)%nat. cbv iota.
  destruct (segmented timelapse) as [|x xs] eqn:Hseg.
  - exfalso. apply (segmented_nonempty timelapse); [rewrite Hchunks; discriminate|exact Hseg].
  - unfold sessionStreams. rewrite Hseg. reflexivity.
Qed.

Lemma Promise_all_hasTrack env streams : forall tracks,
  Promise_all (map (getPrimaryVideoTrack env) streams) = Normal tracks ->
  Promise_all (map (getPrimaryVideoTrack env) (filter (hasTrack env) streams))
  = Normal (map Some (somes tracks)).
Proof.
  induction streams as [|s rest IH]; intros tracks; simpl.
  - now intros [= <-].
  - unfold hasTrack at 1.
    destruct (getPrimaryVideoTrack env s) as [[video|]|e] eqn:Hs; [| |discriminate];
      destruct (Promise_all (map (getPrimaryVideoTrack env) rest)) as [tracks'|e];
      try discriminate; intros [= <-]; simpl; rewrite ?Hs, (IH tracks' eq_refl);
      reflexivity.
Qed.

Lemma somes_Some {A : Type} (l : list A) : somes (map Some l) = l /\ nones (map Some l) = 0%nat.
Proof. induction l as [|x l [IH1 IH2]]; simpl; [auto|]. now rewrite IH1. Qed.

(** Without the sessions that have no track, the survivors are the same
    and the filter drops nothing. *)
Lemma survivors_hasTrack env streams :
  rejected env streams = None ->
  survivors env (filter (hasTrack env) streams) = survivors env streams /\
  dropped env (filter (hasTrack env) streams) = 0%nat /\
  rejected env (filter (hasTrack env) streams) = None.
Proof.
  unfold rejected, survivors, dropped.
  destruct (Promise_all (map (getPrimaryVideoTrack env) streams)) as [tracks|e] eqn:Hall;
    [|discriminate].
  intros _. rewrite (Promise_all_hasTrack _ _ _ Hall).
  destruct (somes_Some (somes tracks)) as [-> ->]. auto.
Qed.

(** C4, as the code has it. [mergeVideoSessions] throws in exactly these
    cases.  Five are checks of the code itself, each with its own message: no
    chunk; every session's primary video track null; no codec encodable at the
    first surviving track's size; a surviving session without a decoder
    configuration; a null buffer after finalization.  The others are the
    rejections of the calls into mediabunny, none of which is inside a [try]:
    [getPrimaryVideoTrack], [getFirstEncodableVideoCodec], the constructor of
    the encoded-packet source on a null codec, [out.start], [getDecoderConfig],
    the loop over a session's units, [out.finalize].  In every other case it
    returns the finalized buffer; its check on an empty segmentation and the
    check of [videoConcat] on an empty list of inputs never fire, a timelapse
    with a chunk having a session.  A session whose primary video track is null
    is dropped with one warning: as long as one session survives, the run ends
    as it does without the dropped sessions and adds the same units. *)
Theorem C4_fatal_cases_own_and_library :
  (forall env timelapse w,
      let run := mergeVideoSessions env timelapse w in
      let chunks := LocalTimelapse.chunks timelapse in
      let streams := sessionStreams timelapse in
      let tracks := survivors env streams in
      let canRemux := remuxEligible tracks in
      let started source :=
        exists videoCodec,
          negotiated env tracks = Normal (Some videoCodec) /\
          newSource env tracks videoCodec = Normal source /\
          out_start env source = Normal tt in
      let endsIn video :=
        exists pre post,
          tracks = pre ++ video :: post /\ tracksError canRemux pre = None in
      match fst run with
      | Throw m =>
          (m = "No chunks were found when stopping the recording. Have we forgotten to capture any?!"%string
           /\ chunks = []) \/
          (m = "No inputs had any primary video tracks!"%string
           /\ chunks <> [] /\ rejected env streams = None /\ tracks = []) \/
          (m = "This browser does not support video encoding."%string
           /\ tracks <> [] /\ negotiated env tracks = Normal None) \/
          (m = "Could not get the decoder config from the input"%string
           /\ exists source video,
                started source /\ endsIn video /\
                Track.getDecoderConfig video = Normal None) \/
          (m = "bufTarget.buffer was null."%string
           /\ exists source,
                started source /\ tracksError canRemux tracks = None /\
                videoTrack (snd run) = Some source /\
                out_finalize env source (added (snd run)) = Normal tt /\
                bufTarget_buffer env source (added (snd run)) = None) \/
          (chunks <> [] /\
           exists x, In x streams /\ getPrimaryVideoTrack env x = Throw m) \/
          (tracks <> [] /\ negotiated env tracks = Throw m) \/
          (m = codecTypeError env /\ canRemux = true /\
           (exists videoCodec, negotiated env tracks = Normal (Some videoCodec)) /\
           exists firstTrack others,
             tracks = firstTrack :: others /\ Track.codec firstTrack = None) \/
          (exists videoCodec source,
             negotiated env tracks = Normal (Some videoCodec) /\
             newSource env tracks videoCodec = Normal source /\
             out_start env source = Throw m) \/
          (exists source video,
             started source /\ endsIn video /\
             (Track.getDecoderConfig video = Throw m \/
              (configured video = true /\ loopError canRemux video = Some m))) \/
          (exists source,
             started source /\ tracksError canRemux tracks = None /\
             videoTrack (snd run) = Some source /\
             out_finalize env source (added (snd run)) = Throw m)
      | Normal blob =>
          exists source buffer,
            started source /\ tracksError canRemux tracks = None /\
            videoTrack (snd run) = Some source /\
            out_finalize env source (added (snd run)) = Normal tt /\
            bufTarget_buffer env source (added (snd run)) = Some buffer /\
            blob = Blob.mk (Bytes buffer) EmptyString
      end) /\
  (forall env streams,
      survivors env streams <> [] ->
      fst (videoConcat env streams world0)
      = fst (videoConcat env (filter (hasTrack env) streams) world0) /\
      added (snd (videoConcat env streams world0))
      = added (snd (videoConcat env (filter (hasTrack env) streams) world0)) /\
      warnings (snd (videoConcat env streams world0))
      = repeat WarnNullPrimaryTrack (dropped env streams)
        ++ warnings (snd (videoConcat env (filter (hasTrack env) streams) world0))).
Proof.
  split.
  - intros env timelapse w. cbv zeta.
    rewrite mergeVideoSessions_unfold.
    destruct (LocalTimelapse.chunks timelapse) as [|c cs] eqn:Hchunks; [left; auto|].
    assert (Hc : c :: cs <> []) by discriminate.
    assert (Hne : segmented timelapse <> [])
      by (apply segmented_nonempty; rewrite Hchunks; discriminate).
    rewrite videoConcat_closed.
    destruct (sessionStreams timelapse) as [|s streams] eqn:Hstreams.
    { exfalso. apply Hne. unfold sessionStreams in Hstreams.
      now apply map_eq_nil in Hstreams. }
    destruct (rejected env (s :: streams)) as [m|] eqn:Hrej.
    { do 5 right; left. split; [exact Hc|]. now apply rejected_Some. }
    destruct (survivors env (s :: streams)) as [|firstTrack others] eqn:Hsurv.
    { simpl. right; left. auto. }
    assert (Ht : firstTrack :: others <> []) by discriminate.
    destruct (negotiated env (firstTrack :: others)) as [[videoCodec|]|m] eqn:Hneg.
    3: { do 6 right; left. auto. }
    2: { simpl. right; right; left. auto. }
    destruct (newSource env (firstTrack :: others) videoCodec) as [source|m] eqn:Hsource.
    2: { do 7 right; left. rewrite newSource_cases in Hsource.
         destruct (remuxEligible (firstTrack :: others)); [|discriminate].
         destruct (Track.codec firstTrack) eqn:Hcodec; [discriminate|].
         injection Hsource as <-. split; [reflexivity|]. split; [reflexivity|].
         split; [now exists videoCodec|now exists firstTrack, others]. }
    cbv zeta.
    destruct (out_start env source) as [[]|m] eqn:Hstart.
    2: { do 8 right; left. now exists videoCodec, source. }
    assert (Hstarted :
      exists videoCodec0,
        Normal (Some videoCodec) = Normal (Some videoCodec0) /\
        newSource env (firstTrack :: others) videoCodec0 = Normal source /\
        out_start env source = Normal tt) by (now exists videoCodec).
    destruct (tracksError _ _) as [m|] eqn:Herr.
    { apply tracksError_Some in Herr as (pre & video & post & Htracks & Hpre & Hv).
      assert (Hends : exists pre0 post0,
                firstTrack :: others = pre0 ++ video :: post0 /\
                tracksError (remuxEligible (firstTrack :: others)) pre0 = None)
        by (now exists pre, post).
      apply sessionError_cases in Hv as [Hv | [[-> Hv] | Hv]].
      - do 9 right; left. exists source, video. auto.
      - do 3 right; left. split; [reflexivity|]. exists source, video. auto.
      - do 9 right; left. exists source, video. auto. }
    destruct (out_finalize env source _) as [[]|m] eqn:Hfin.
    2: { do 10 right. exists source. auto. }
    destruct (bufTarget_buffer env source _) as [buffer|] eqn:Hbuf;
      rewrite !disposeAll_spec; cbn [fst snd added videoTrack].
    + exists source, buffer. auto 7.
    + do 4 right; left. split; [reflexivity|]. exists source. auto 7.
  - intros env streams Hsurv.
    destruct (survivors_resolved _ _ Hsurv) as [Hrej Hstreams].
    destruct (survivors_hasTrack env streams Hrej) as (Hs & Hn & Hr).
    rewrite !videoConcat_closed, Hrej, Hr, Hs.
    unfold afterFilter. rewrite Hn.
    destruct streams as [|s streams]; [now elim Hstreams|].
    destruct (filter (hasTrack env) (s :: streams)) as [|s' streams'] eqn:Hf.
    { simpl in Hs. now elim Hsurv. }
    destruct (survivors env (s :: streams)) as [|firstTrack others];
      [now elim Hsurv|].
    destruct (negotiated env (firstTrack :: others)) as [[videoCodec|]|m];
      [|simpl; rewrite ?app_nil_r; auto|simpl; rewrite ?app_nil_r; auto].
    destruct (newSource env (firstTrack :: others) videoCodec) as [source|m];
      [|simpl; rewrite ?app_nil_r; auto].
    cbv zeta. cbn [warnings alerts videoTrack added disposed world0 app].
    generalize (sessionsRun env source (firstTrack :: others)) as done.
    generalize (remuxEligible (firstTrack :: others)) as canRemux.
    intros canRemux done.
    destruct (out_start env source) as [[]|m]; [|simpl; rewrite ?app_nil_r; auto].
    destruct (tracksError canRemux (firstTrack :: others));
      [simpl; rewrite ?app_nil_r; auto|].
    destruct (out_finalize env source _) as [[]|m];
      [|simpl; rewrite ?app_nil_r; auto].
    destruct (bufTarget_buffer env _ _); rewrite !disposeAll_spec; simpl;
      rewrite ?app_nil_r; auto.
Qed.

Lemma C4_fatal_witness :
  fst (videoConcat oneDropped_env [streamOf 0; streamOf 1] world0) = Normal [1%N] /\
  fst (videoConcat oneDropped_env [streamOf 0; streamOf 1] world0)
  = fst (videoConcat oneDropped_env
           (filter (hasTrack oneDropped_env) [streamOf 0; streamOf 1]) world0) /\
  warnings (snd (videoConcat oneDropped_env [streamOf 0; streamOf 1] world0))
  = [WarnNullPrimaryTrack].
Proof.
  destruct C4_fatal_cases_own_and_library as [_ H].
  destruct (H oneDropped_env [streamOf 0; streamOf 1]) as (Hfst & _ & Hwarn);
    [discriminate|].
  split; [reflexivity|]. split; [exact Hfst|]. rewrite Hwarn. reflexivity.
Defined.

(** C4 as stated fails: a fifth fatal case.  The timelapse has a chunk, its
    one session has a primary video track, a codec is encodable and the
    finalized buffer would not be null, yet the run throws: the track has no
    decoder configuration. *)
Lemma C4_fifth_fatal_case :
  LocalTimelapse.chunks oneChunk <> [] /\
  survivors oneChunk_env (sessionStreams oneChunk) = [noConfigTrack] /\
  negotiated oneChunk_env (survivors oneChunk_env (sessionStreams oneChunk))
  = Normal (Some vp9) /\
  (forall source out, bufTarget_buffer oneChunk_env source out = Some [1%N]) /\
  fst (mergeVideoSessions oneChunk_env oneChunk world0)
  = Throw "Could not get the decoder config from the input".
Proof.
  split; [discriminate|]. repeat split.
Qed.
(** ** Session boundaries and monotonicity *)

Lemma last_error_app {A : Type} (l l' : list A) :
  l' <> [] -> last_error (l ++ l') = last_error l'.
Proof.
  intros Hne. destruct l' as [|y l']; [easy|]. clear Hne.
  induction l as [|x l IH]; simpl; [reflexivity|].
  simpl in IH. rewrite <- IH.
  destruct (l ++ y :: l') as [|z r] eqn:E;
    [destruct l; discriminate|].
  rewrite last_cons_default. reflexivity.
Qed.

Lemma last_map {A B : Type} (f : A -> B) (l : list A) (d : A) :
  last (map f l) (f d) = f (last l d).
Proof.
  induction l as [|x l IH]; simpl; [reflexivity|].
  destruct l; [reflexivity|exact IH].
Qed.

Lemma scale_mono f g t1 t2 :
  t1 <= t2 -> (t1 - f) * timeScale + g <= (t2 - f) * timeScale + g.
Proof.
  intros H. apply Qplus_le_compat; [|apply Qle_refl].
  apply Qmult_le_compat_r; [lra|]. apply Qlt_le_weak, timeScale_pos.
Qed.

Lemma scale_first f g : (f - f) * timeScale + g == g.
Proof. ring. Qed.

Lemma scale_last f g t : (t - f) * timeScale + g == g + (t - f) * timeScale.
Proof. ring. Qed.

(** What a session gives, read as timestamps only. *)
Lemma sessionUnits_timestamps canRemux video g :
  map Added.timestamp (sessionUnits canRemux video g)
  = map (fun t => (t - anchor local0 (kept (unitsOf canRemux video))) * timeScale + g)
        (map Unit.timestamp (kept (unitsOf canRemux video))).
Proof. unfold sessionUnits. rewrite !map_map. reflexivity. Qed.

Lemma StronglySorted_scale f g (l : list Q) :
  StronglySorted Qle l ->
  StronglySorted Qle (map (fun t => (t - f) * timeScale + g) l).
Proof.
  induction 1 as [|t l Hl IH Ht]; simpl; constructor; [exact IH|].
  apply Forall_map. eapply Forall_impl; [|exact Ht].
  intros t' Hle. now apply scale_mono.
Qed.

Lemma StronglySorted_app_bound (bound : Q) (l1 l2 : list Q) :
  StronglySorted Qle l1 -> StronglySorted Qle l2 ->
  Forall (fun t => t <= bound) l1 -> Forall (fun t => bound <= t) l2 ->
  StronglySorted Qle (l1 ++ l2).
Proof.
  intros H1 H2 Hb1 Hb2. induction H1 as [|t l1 Hl IH Ht]; simpl; [exact H2|].
  apply Forall_cons_iff in Hb1 as [Hb Hb1].
  constructor; [now apply IH|].
  apply Forall_app. split; [exact Ht|].
  eapply Forall_impl; [|exact Hb2]. intros t' Hle. now apply Qle_trans with bound.
Qed.

Lemma Sorted_Qle_strong (l : list Q) : Sorted Qle l -> StronglySorted Qle l.
Proof. apply Sorted_StronglySorted. intros x y z. apply Qle_trans. Qed.

Lemma sorted_bounds (l : list Q) : forall t0,
  StronglySorted Qle (t0 :: l) ->
  Forall (fun t => t0 <= t) (t0 :: l) /\ Forall (fun t => t <= last l t0) (t0 :: l).
Proof.
  induction l as [|t l IH]; intros t0 Hs.
  - split; constructor; try constructor; apply Qle_refl.
  - apply StronglySorted_inv in Hs as [Hs Ht0].
    destruct (IH t Hs) as [_ Hup]. split.
    + constructor; [apply Qle_refl|exact Ht0].
    + rewrite last_cons_default. constructor; [|exact Hup].
      apply Forall_inv in Ht0. apply Forall_inv in Hup.
      now apply Qle_trans with t.
Qed.

(** A session whose kept units are in timestamp order adds timestamps in
    order, all between the offset before and the offset after. *)
Lemma session_in_order canRemux video g :
  Sorted Qle (map Unit.timestamp (kept (unitsOf canRemux video))) ->
  StronglySorted Qle (map Added.timestamp (sessionUnits canRemux video g)) /\
  Forall (fun t => g <= t) (map Added.timestamp (sessionUnits canRemux video g)) /\
  Forall (fun t => t <= advance g (kept (unitsOf canRemux video)))
         (map Added.timestamp (sessionUnits canRemux video g)) /\
  g <= advance g (kept (unitsOf canRemux video)).
Proof.
  intros Hs. apply Sorted_Qle_strong in Hs.
  rewrite sessionUnits_timestamps.
  split; [now apply StronglySorted_scale|].
  destruct (kept (unitsOf canRemux video)) as [|k ks].
  - simpl. repeat split; try constructor. apply Qle_refl.
  - change (anchor local0 (k :: ks)) with (Unit.timestamp k).
    change (advance g (k :: ks))
      with (g + (Unit.timestamp (last ks k) - Unit.timestamp k) * timeScale).
    rewrite <- (last_map Unit.timestamp).
    change (map Unit.timestamp (k :: ks))
      with (Unit.timestamp k :: map Unit.timestamp ks) in *.
    destruct (sorted_bounds _ _ Hs) as [Hlow Hup].
    set (t0 := Unit.timestamp k) in *. set (l := map Unit.timestamp ks) in *.
    split; [|split].
    + apply Forall_map. eapply Forall_impl; [|exact Hlow].
      intros t Ht. cbv beta.
      apply Qle_trans with ((t0 - t0) * timeScale + g);
        [rewrite scale_first; apply Qle_refl|now apply scale_mono].
    + apply Forall_map. eapply Forall_impl; [|exact Hup].
      intros t Ht. cbv beta.
      apply Qle_trans with ((last l t0 - t0) * timeScale + g);
        [now apply scale_mono|rewrite scale_last; apply Qle_refl].
    + apply Forall_inv in Hup.
      apply Qle_trans with ((t0 - t0) * timeScale + g);
        [rewrite scale_first; apply Qle_refl|].
      apply Qle_trans with ((last l t0 - t0) * timeScale + g);
        [now apply scale_mono|rewrite scale_last; apply Qle_refl].
Qed.

Lemma for_tracks_in_order canRemux tracks : forall g w r w',
  (forall v, In v tracks ->
             Sorted Qle (map Unit.timestamp (kept (unitsOf canRemux v)))) ->
  StronglySorted Qle (map Added.timestamp (added w)) ->
  Forall (fun t => t <= g) (map Added.timestamp (added w)) ->
  for_tracks canRemux tracks g w = (r, w') ->
  StronglySorted Qle (map Added.timestamp (added w')).
Proof.
  induction tracks as [|video rest IH]; intros g w r w' Hin Hs Hb Hrun;
    simpl in Hrun.
  - injection Hrun as _ <-. exact Hs.
  - rewrite for_track_closed in Hrun.
    destruct (session_in_order canRemux video g (Hin video (or_introl eq_refl)))
      as (Hso & Hlow & Hup & Hadv).
    assert (Hses : StronglySorted Qle
                     (map Added.timestamp (added w ++ sessionUnits canRemux video g)))
      by (rewrite map_app; now apply StronglySorted_app_bound with g).
    destruct (sessionError canRemux video) as [m|] eqn:He.
    + injection Hrun as _ <-. destruct (configured video); [exact Hses|exact Hs].
    + apply sessionError_None in He as (Hcfg & _). rewrite Hcfg in Hrun.
      eapply IH; [| | |exact Hrun].
      * intros v Hv. apply Hin. now right.
      * exact Hses.
      * simpl. rewrite map_app. apply Forall_app. split; [|exact Hup].
        eapply Forall_impl; [|exact Hb].
        intros t Ht. cbv beta in *. now apply Qle_trans with g.
Qed.

(** After a session, the offset is the timestamp of the last unit added so
    far. *)
Lemma for_track_last canRemux video g w g' w' :
  for_track canRemux video g w = (Normal g', w') ->
  (forall a, last_error (added w) = Some a -> Added.timestamp a == g) ->
  forall a, last_error (added w') = Some a -> Added.timestamp a == g'.
Proof.
  intros Hrun Hinv a Ha.
  destruct (for_track_Normal _ _ _ _ _ _ Hrun) as (Hloop & c & Hc).
  rewrite (for_track_spec _ _ _ _ c Hc Hloop) in Hrun.
  injection Hrun as <- <-. simpl in Ha. unfold sessionUnits in Ha.
  destruct (kept (unitsOf canRemux video)) as [|k ks].
  - simpl in Ha. rewrite app_nil_r in Ha. now apply Hinv.
  - rewrite last_error_app in Ha by discriminate.
    simpl in Ha. injection Ha as <-.
    change (anchor local0 (k :: ks)) with (Unit.timestamp k).
    rewrite (last_map (rebase (cfgOf canRemux video) (Unit.timestamp k) g)).
    unfold rebase, advance. cbn [Added.timestamp]. ring.
Qed.

Lemma for_tracks_last canRemux tracks : forall g w g' w',
  for_tracks canRemux tracks g w = (Normal g', w') ->
  (forall a, last_error (added w) = Some a -> Added.timestamp a == g) ->
  forall a, last_error (added w') = Some a -> Added.timestamp a == g'.
Proof.
  induction tracks as [|video rest IH]; intros g w g' w' Hrun Hinv; simpl in Hrun.
  - injection Hrun as <- <-. exact Hinv.
  - destruct (for_track canRemux video g w) as [[g1|e] w1] eqn:Hv; [|discriminate].
    eapply IH; [exact Hrun|]. eapply for_track_last; eassumption.
Qed.

(** C1, as the code has it. After the sessions [pre], a session [video]
    adds its units behind those added so far; its first unit carries the
    current offset as timestamp, which is the timestamp (not the end) of the
    last unit added before it, and its last unit carries the next offset;
    and when within each session the kept units are in timestamp order, the
    timestamps of the whole output are non-decreasing. *)
Theorem C1_sessions_meet_at_last_timestamp :
  forall canRemux pre video g w g' w',
    for_tracks canRemux pre 0 world0 = (Normal g, w) ->
    for_track canRemux video g w = (Normal g', w') ->
    for_tracks canRemux (pre ++ [video]) 0 world0 = (Normal g', w') /\
    added w' = added w ++ sessionUnits canRemux video g /\
    (forall b, hd_error (sessionUnits canRemux video g) = Some b ->
               Added.timestamp b == g) /\
    (forall a b, last_error (added w) = Some a ->
                 hd_error (sessionUnits canRemux video g) = Some b ->
                 Added.timestamp b == Added.timestamp a) /\
    (forall b, last_error (sessionUnits canRemux video g) = Some b ->
               Added.timestamp b == g') /\
    ((forall v, In v (pre ++ [video]) ->
                Sorted Qle (map Unit.timestamp (kept (unitsOf canRemux v)))) ->
     Sorted Qle (map Added.timestamp (added w'))).
Proof.
  intros canRemux pre video g w g' w' Hpre Hv.
  assert (Hrun : for_tracks canRemux (pre ++ [video]) 0 world0 = (Normal g', w')).
  { rewrite for_tracks_app, Hpre. simpl. rewrite Hv. reflexivity. }
  assert (Hlast : forall a, last_error (added w) = Some a -> Added.timestamp a == g).
  { eapply for_tracks_last; [exact Hpre|]. simpl. discriminate. }
  assert (Hfirst : forall b, hd_error (sessionUnits canRemux video g) = Some b ->
                             Added.timestamp b == g).
  { unfold sessionUnits. intros b Hb.
    destruct (kept (unitsOf canRemux video)) as [|k ks]; [discriminate|].
    simpl in Hb. injection Hb as <-.
    change (anchor local0 (k :: ks)) with (Unit.timestamp k).
    unfold rebase. cbn [Added.timestamp]. ring. }
  split; [exact Hrun|].
  destruct (for_track_Normal _ _ _ _ _ _ Hv) as (Hloop & c & Hc).
  pose proof Hv as Hv'. rewrite (for_track_spec _ _ _ _ c Hc Hloop) in Hv'.
  injection Hv' as Hg' Hw'.
  split; [rewrite <- Hw'; reflexivity|].
  split; [exact Hfirst|].
  split; [intros a b Ha Hb; rewrite (Hfirst b Hb), (Hlast a Ha); reflexivity|].
  split.
  - intros b Hb. unfold sessionUnits in Hb.
    destruct (kept (unitsOf canRemux video)) as [|k ks]; [discriminate|].
    rewrite <- Hg'. simpl in Hb. injection Hb as <-.
    change (anchor local0 (k :: ks)) with (Unit.timestamp k).
    rewrite (last_map (rebase (cfgOf canRemux video) (Unit.timestamp k) g)).
    unfold rebase, advance. cbn [Added.timestamp]. ring.
  - intros Hsorted. apply StronglySorted_Sorted.
    eapply for_tracks_in_order; [exact Hsorted| | |exact Hrun]; constructor.
Qed.

Lemma C1_sessions_witness :
  Sorted Qle
    (map Added.timestamp
         (added (snd (for_tracks true ([goodTrack] ++ [goodTrack]) 0 world0)))) /\
  (forall b, hd_error (sessionUnits true goodTrack (offsetAfter true 0 [goodTrack])) = Some b ->
             Added.timestamp b == offsetAfter true 0 [goodTrack]).
Proof.
  pose (r1 := for_tracks true [goodTrack] 0 world0).
  pose (g1 := offsetAfter true 0 [goodTrack]).
  pose (r2 := for_track true goodTrack g1 (snd r1)).
  destruct (C1_sessions_meet_at_last_timestamp true [goodTrack] goodTrack
              g1 (snd r1) (offsetAfter true 0 [goodTrack; goodTrack]) (snd r2))
    as (Hrun & _ & Hfirst & _ & _ & Hsorted); [reflexivity|reflexivity|].
  split; [|exact Hfirst].
  rewrite Hrun. apply Hsorted.
  intros v [<- | [<- | []]]; vm_compute; repeat constructor; discriminate.
Defined.

(** C1 as stated fails. Two sessions of two units each, at 0 and 5, each of
    duration 1: the first unit of the second session gets the timestamp of the
    last unit of the first session, not that timestamp plus the unit's
    rebased duration, so the two ranges overlap by that duration. *)
Lemma C1_next_session_overlaps_last_unit :
  exists a b c d,
    sessionUnits true goodTrack 0 = [a; b] /\
    sessionUnits true goodTrack (offsetAfter true 0 [goodTrack]) = [c; d] /\
    added (snd (videoConcat twoSessions_env [streamOf 0; streamOf 1] world0))
    = [a; b; c; d] /\
    Added.timestamp c == Added.timestamp b /\
    ~ Added.timestamp c == Added.timestamp b + Added.duration b /\
    Added.timestamp c < Added.timestamp b + Added.duration b.
Proof.
  eexists _, _, _, _. vm_compute.
  split; [reflexivity|]. split; [reflexivity|]. split; [reflexivity|].
  split; [reflexivity|]. split; [discriminate|reflexivity].
Qed.

(** ** Thumbnails *)

Lemma getBlackImage_cases env w :
  getBlackImage env w =
  (Normal (if getContext2d env blankCanvas
           then if toBlob env blackCanvas then jpeg blackCanvas else emptyJpeg
           else if toBlob env blankCanvas then jpeg blankCanvas else emptyJpeg),
   warn WarnBlackImage w).
Proof.
  unfold getBlackImage. fold blankCanvas.
  destruct (getContext2d env blankCanvas); cbn [Canvas.width Canvas.height blankCanvas];
    fold blackCanvas; fold blankCanvas;
    match goal with |- context [toBlob env ?c] => destruct (toBlob env c) end;
    reflexivity.
Qed.

(** C8, as the code has it. [videoGenerateThumbnail] never throws. The
    tiers run in order: the primary tier's blob is returned when it returns
    one; the fallback tier runs only after the primary tier threw, and its
    blob is returned when it returns one; the last resort runs only after both
    threw.  The last resort returns the JPEG encoding of the
    [THUMBNAIL_SIZE] square canvas, filled black when a 2D context is to be
    had, when the canvas can be encoded, and an empty [image/jpeg] blob when
    it cannot. *)
Theorem C8_thumbnail_never_throws :
  forall env videoBlob w,
    (exists blob, fst (videoGenerateThumbnail env videoBlob w) = Normal blob) /\
    (forall blob w1,
        makeThumbnail env videoBlob w = (Normal blob, w1) ->
        videoGenerateThumbnail env videoBlob w = (Normal blob, w1)) /\
    (forall e w1 blob w2,
        makeThumbnail env videoBlob w = (Throw e, w1) ->
        makeFallbackThumbnail env videoBlob (warn WarnThumbnailFailed w1)
        = (Normal blob, w2) ->
        videoGenerateThumbnail env videoBlob w = (Normal blob, w2)) /\
    (forall e w1 e' w2,
        makeThumbnail env videoBlob w = (Throw e, w1) ->
        makeFallbackThumbnail env videoBlob (warn WarnThumbnailFailed w1)
        = (Throw e', w2) ->
        videoGenerateThumbnail env videoBlob w
        = getBlackImage env (warn WarnFallbackFailed w2) /\
        fst (videoGenerateThumbnail env videoBlob w)
        = Normal (if getContext2d env blankCanvas
                  then if toBlob env blackCanvas then jpeg blackCanvas else emptyJpeg
                  else if toBlob env blankCanvas then jpeg blankCanvas else emptyJpeg)).
Proof.
  intros env videoBlob w. unfold videoGenerateThumbnail.
  destruct (makeThumbnail env videoBlob w) as [[blob1|e1] w1].
  - split; [now exists blob1|]. split; [now intros ? ? [= <- <-]|].
    split; intros; discriminate.
  - destruct (makeFallbackThumbnail env videoBlob (warn WarnThumbnailFailed w1))
      as [[blob2|e2] w2] eqn:Hfb.
    + split; [now exists blob2|]. split; [intros; discriminate|].
      split.
      * intros e w1' blob w2' [= _ <-] Hfb'. rewrite Hfb in Hfb'.
        now injection Hfb' as <- <-.
      * intros e w1' e' w2' [= _ <-] Hfb'. rewrite Hfb in Hfb'. discriminate.
    + rewrite getBlackImage_cases.
      split; [eexists; reflexivity|]. split; [intros; discriminate|].
      split.
      * intros e w1' blob w2' [= _ <-] Hfb'. rewrite Hfb in Hfb'. discriminate.
      * intros e w1' e' w2' [= _ <-] Hfb'. rewrite Hfb in Hfb'.
        injection Hfb' as _ <-. rewrite getBlackImage_cases. split; reflexivity.
Qed.

Lemma C8_thumbnail_witness :
  videoGenerateThumbnail noJpeg_env someVideo world0
  = getBlackImage noJpeg_env
      (warn WarnFallbackFailed (warn WarnThumbnailFailed world0)) /\
  fst (videoGenerateThumbnail noJpeg_env someVideo world0) = Normal emptyJpeg.
Proof.
  destruct (C8_thumbnail_never_throws noJpeg_env someVideo world0) as (_ & _ & _ & H).
  apply (H "Attempted to generate a thumbnail for a video without a video track."%string
           world0
           "Failed to load video for thumbnail generation"%string
           (warn WarnThumbnailFailed world0)); reflexivity.
Defined.

(** C8 as stated fails when the last resort cannot encode its canvas: both
    tiers throw, a 2D context is to be had, [canvas.toBlob] yields null, and
    the returned blob is empty, not the JPEG of the black canvas. *)
Lemma C8_last_resort_may_be_empty :
  is_throw (fst (makeThumbnail noJpeg_env someVideo world0)) = true /\
  is_throw (fst (makeFallbackThumbnail noJpeg_env someVideo
                   (warn WarnThumbnailFailed world0))) = true /\
  fst (videoGenerateThumbnail noJpeg_env someVideo world0) = Normal emptyJpeg /\
  Blob.parts emptyJpeg = Bytes [] /\
  fst (videoGenerateThumbnail noJpeg_env someVideo world0) <> Normal (jpeg blackCanvas).
Proof. repeat split. discriminate. Qed.
(** * More of the code *)

(** ** Thumbnail sizes *)

Lemma Qfloor_div (a b : Z) :
  (0 < b)%Z -> Qfloor (inject_Z a / inject_Z b) = (a / b)%Z.
Proof.
  intros Hb. destruct b as [|p|p]; try lia.
  unfold Qdiv, Qinv, inject_Z, Qmult, Qfloor. simpl.
  now rewrite Z.mul_1_r.
Qed.

(** X1. For a picture of positive width and height, the two calls of
    [dimension] give a box whose longer side is [THUMBNAIL_SIZE] and whose
    shorter side is the proportional length rounded down; neither side is
    negative or above [THUMBNAIL_SIZE]. *)
Theorem X1_dimension_longer_side_fixed :
  forall d1 d2 : Z,
    (0 < d1)%Z -> (0 < d2)%Z ->
    Z.max (dimension d1 d2) (dimension d2 d1) = THUMBNAIL_SIZE /\
    (0 <= dimension d1 d2 <= THUMBNAIL_SIZE)%Z /\
    (d2 < d1 -> dimension d1 d2 = THUMBNAIL_SIZE)%Z /\
    (d1 <= d2 -> dimension d1 d2 = THUMBNAIL_SIZE * d1 / d2)%Z /\
    (d1 <= d2 ->
     dimension d1 d2 * d2 <= THUMBNAIL_SIZE * d1 < (dimension d1 d2 + 1) * d2)%Z.
Proof.
  intros d1 d2 H1 H2.
  assert (Hdim : forall a b, (0 < a)%Z -> (0 < b)%Z ->
            dimension a b = if (a >? b)%Z then THUMBNAIL_SIZE
                            else (THUMBNAIL_SIZE * a / b)%Z).
  { intros a b Ha Hb. unfold dimension. now rewrite Qfloor_div. }
  assert (Hle : forall a b, (0 < a)%Z -> (0 < b)%Z -> (a <= b)%Z ->
            (0 <= THUMBNAIL_SIZE * a / b <= THUMBNAIL_SIZE)%Z).
  { intros a b Ha Hb Hab. unfold THUMBNAIL_SIZE. split.
    - apply Z.div_pos; lia.
    - apply Z.div_le_upper_bound; lia. }
  rewrite (Hdim d1 d2), (Hdim d2 d1) by assumption.
  destruct (Z.gtb_spec d1 d2) as [Hgt | Hngt];
    destruct (Z.gtb_spec d2 d1) as [Hgt' | Hngt']; try lia.
  - pose proof (Hle d2 d1 H2 H1 ltac:(lia)). repeat split; lia.
  - pose proof (Hle d1 d2 H1 H2 ltac:(lia)) as Hb.
    split; [lia|]. split; [lia|]. split; [lia|]. split; [reflexivity|].
    intros _. pose proof (Z.mul_div_le (THUMBNAIL_SIZE * d1) d2 H2).
    pose proof (Z.mul_succ_div_gt (THUMBNAIL_SIZE * d1) d2 H2). lia.
  - assert (d1 = d2) by lia. subst d2.
    rewrite Z.div_mul by lia. unfold THUMBNAIL_SIZE. repeat split; lia.
Qed.

Lemma X1_dimension_witness :
  Z.max (dimension 1920 1080) (dimension 1080 1920) = THUMBNAIL_SIZE /\
  dimension 1080 1920 = 360%Z.
Proof.
  destruct (X1_dimension_longer_side_fixed 1080 1920) as (Hmax & _ & _ & Hshort & _);
    [lia|lia|].
  split; [rewrite Z.max_comm; exact Hmax|]. rewrite Hshort by lia. reflexivity.
Defined.

(** ** The recorder's format *)

Lemma find_first {A : Type} (f : A -> bool) (l : list A) (x : A) :
  find f l = Some x ->
  exists pre post,
    l = pre ++ x :: post /\ f x = true /\ forallb (fun y => negb (f y)) pre = true.
Proof.
  induction l as [|y l IH]; simpl; [discriminate|].
  destruct (f y) eqn:Hy.
  - intros [= <-]. now exists [], l.
  - intros Hx. destruct (IH Hx) as (pre & post & -> & Hfx & Hpre).
    exists (y :: pre), post. simpl. now rewrite Hy.
Qed.

(** X2. [createMediaRecorder] throws on a stream without a video track.
    Otherwise it asks for the first candidate format, in order of
    preference, that the browser supports, and for [video/webm] with a
    warning when it supports none; the format is always one of the
    candidates; the video bitrate is 48 bits per pixel of the first track,
    taken as 1920 by 1080 where the track does not say, and the audio bitrate
    is 0. *)
Theorem X2_recorder_format_and_bitrate :
  forall isTypeSupported tracks,
    (tracks = [] ->
     createMediaRecorder isTypeSupported tracks
     = Throw "The stream provided to MediaRecorder had no video tracks") /\
    (forall metadata rest, tracks = metadata :: rest ->
     exists options warned,
       createMediaRecorder isTypeSupported tracks = Normal (options, warned) /\
       In (RecorderOptions.mimeType options) mimeCandidates /\
       RecorderOptions.videoBitsPerSecond options
       = (nullish (Settings.width metadata) 1920
          * nullish (Settings.height metadata) 1080 * 48)%Z /\
       RecorderOptions.audioBitsPerSecond options = 0%Z /\
       (warned = false ->
        isTypeSupported (RecorderOptions.mimeType options) = true /\
        exists pre post,
          mimeCandidates = pre ++ RecorderOptions.mimeType options :: post /\
          forallb (fun m => negb (isTypeSupported m)) pre = true) /\
       (warned = true ->
        RecorderOptions.mimeType options = "video/webm"%string /\
        forall m, In m mimeCandidates -> isTypeSupported m = false) /\
       ((exists m, In m mimeCandidates /\ isTypeSupported m = true) ->
        warned = false)).
Proof.
  intros isTypeSupported tracks. split; [now intros ->|].
  intros metadata rest ->. unfold createMediaRecorder.
  destruct (find isTypeSupported mimeCandidates) as [mime|] eqn:Hfind.
  - eexists _, false. split; [reflexivity|]. cbn [RecorderOptions.mimeType].
    destruct (find_first _ _ _ Hfind) as (pre & post & Hsplit & Hsup & Hpre).
    split; [rewrite Hsplit; apply in_elt|].
    split; [reflexivity|]. split; [reflexivity|].
    split; [intros _; split; [exact Hsup|now exists pre, post]|].
    split; [discriminate|reflexivity].
  - eexists _, true. split; [reflexivity|]. cbn [RecorderOptions.mimeType].
    split; [unfold mimeCandidates; simpl; tauto|].
    split; [reflexivity|]. split; [reflexivity|].
    split; [discriminate|].
    split; [intros _; split; [reflexivity|]; intros m Hm;
            exact (find_none _ _ Hfind m Hm)|].
    intros (m & Hm & Hsup). rewrite (find_none _ _ Hfind m Hm) in Hsup. discriminate.
Qed.

Lemma X2_recorder_witness :
  exists options,
    createMediaRecorder vp9Only [noHeight] = Normal (options, false) /\
    RecorderOptions.mimeType options = "video/webm;codecs=vp9"%string /\
    RecorderOptions.videoBitsPerSecond options = (1280 * 1080 * 48)%Z.
Proof.
  destruct (X2_recorder_format_and_bitrate vp9Only [noHeight]) as [_ H].
  destruct (H noHeight [] eq_refl)
    as (options & warned & Hrun & _ & Hbits & _ & Hfound & _ & Hsome).
  assert (Hw : warned = false).
  { apply Hsome. exists "video/webm;codecs=vp9"%string.
    split; [unfold mimeCandidates; simpl; tauto|reflexivity]. }
  subst warned. exists options. split; [exact Hrun|]. split; [|exact Hbits].
  destruct (Hfound eq_refl) as [Hsup _]. now apply String.eqb_eq in Hsup.
Defined.

(** ** One session *)

Lemma sameParameters_refl track : sameParameters track track = true.
Proof.
  unfold sameParameters. rewrite !Z.eqb_refl.
  destruct (Track.codec track) as [[]|]; reflexivity.
Qed.

Lemma assembled_one canRemux track g :
  assembled canRemux g (processed canRemux [track])
  = if configured track then sessionUnits canRemux track g else [].
Proof.
  simpl. destruct (sessionError canRemux track) eqn:He.
  - destruct (configured track); simpl; [apply app_nil_r|reflexivity].
  - apply sessionError_None in He as (-> & _). simpl. apply app_nil_r.
Qed.

(** X3. When exactly one session survives and a codec is encodable,
    [videoConcat] never re-encodes, whatever the negotiated codec.  When the
    session's track has a codec, the output track is the encoded-packet source
    of that codec and the loop reads the session's packets.  When the track's
    codec is null, the constructor of the encoded-packet source throws and the
    run ends there, with no output track. *)
Theorem X3_single_session_is_remuxed :
  forall env streams w track videoCodec,
    survivors env streams = [track] ->
    negotiated env [track] = Normal (Some videoCodec) ->
    match Track.codec track with
    | Some c =>
        videoTrack (snd (videoConcat env streams w))
        = Some (EncodedVideoPacketSource (Some c)) /\
        added (snd (videoConcat env streams w))
        = added w ++ match out_start env (EncodedVideoPacketSource (Some c)) with
                     | Normal _ =>
                         if configured track then sessionUnits true track 0 else []
                     | Throw _ => []
                     end
    | None =>
        videoConcat env streams w
        = (Throw (codecTypeError env), afterFilter env streams w)
    end.
Proof.
  intros env streams w track videoCodec Hsurv Hcodec.
  assert (Hne : survivors env streams <> []) by (rewrite Hsurv; discriminate).
  assert (Hneg : negotiated env (survivors env streams) = Normal (Some videoCodec))
    by (rewrite Hsurv; exact Hcodec).
  assert (Hall : remuxEligible [track] = true)
    by (simpl; now rewrite sameParameters_refl).
  pose proof (newSource_cases env track [] videoCodec) as Hsource.
  rewrite Hall in Hsource. rewrite <- Hsurv in Hsource.
  destruct (Track.codec track) as [c|].
  - destruct (videoConcat_started_world env streams w videoCodec _ Hne Hneg Hsource)
      as (Htrack & Hadded & _).
    split; [exact Htrack|]. rewrite Hadded, Hsurv, Hall. unfold sessionsRun.
    rewrite Hall. destruct (out_start env _); [|reflexivity].
    now rewrite assembled_one.
  - now apply (videoConcat_no_source env streams w videoCodec).
Qed.

Lemma X3_single_session_witness :
  videoTrack (snd (videoConcat oneDropped_env [streamOf 0; streamOf 1] world0))
  = Some (EncodedVideoPacketSource (Some vp9)).
Proof.
  exact (proj1 (X3_single_session_is_remuxed oneDropped_env [streamOf 0; streamOf 1]
                  world0 goodTrack vp9 eq_refl eq_refl)).
Defined.

(** ** What a finished run has written *)

Lemma assembled_data canRemux tracks : forall g,
  map Added.data (assembled canRemux g tracks)
  = flat_map (fun video => map Unit.data (kept (unitsOf canRemux video))) tracks.
Proof.
  induction tracks as [|video rest IH]; intros g; simpl; [reflexivity|].
  rewrite map_app, IH. f_equal. unfold sessionUnits. now rewrite map_map.
Qed.

Lemma assembled_config canRemux tracks : forall g,
  forallb configured tracks = true ->
  Forall (fun e => Added.decoderConfig e <> None <-> canRemux = true)
         (assembled canRemux g tracks).
Proof.
  induction tracks as [|video rest IH]; intros g Hall; simpl; [constructor|].
  simpl in Hall. apply andb_prop in Hall as [Hv Hrest].
  apply Forall_app. split; [|now apply IH].
  unfold sessionUnits. apply Forall_map, Forall_forall. intros u _.
  unfold rebase, cfgOf. cbn [Added.decoderConfig]. unfold configured in Hv.
  destruct canRemux; destruct (Track.getDecoderConfig video) as [[c|]|e];
    split; intros H; try discriminate; try reflexivity; now elim H.
Qed.

(** A run of [videoConcat] that returns has gone through every surviving
    session. *)
Lemma videoConcat_returns env streams buffer w' :
  videoConcat env streams world0 = (Normal buffer, w') ->
  forallb configured (survivors env streams) = true /\
  added w' = assembled (remuxEligible (survivors env streams)) 0 (survivors env streams) /\
  exists source,
    videoTrack w' = Some source /\ bufTarget_buffer env source (added w') = Some buffer.
Proof.
  rewrite videoConcat_closed.
  destruct streams as [|s streams]; [discriminate|].
  destruct (rejected env (s :: streams)); [discriminate|].
  destruct (survivors env (s :: streams)) as [|firstTrack others]; [discriminate|].
  destruct (negotiated env (firstTrack :: others)) as [[videoCodec|]|m];
    [|discriminate|discriminate].
  destruct (newSource env (firstTrack :: others) videoCodec) as [source|m];
    [|discriminate].
  cbv zeta. unfold sessionsRun.
  destruct (out_start env source) as [[]|m]; [|discriminate].
  destruct (tracksError _ _) eqn:Herr; [discriminate|].
  destruct (processed_None _ _ Herr) as [-> Hcfg].
  generalize dependent (remuxEligible (firstTrack :: others)).
  generalize dependent (firstTrack :: others).
  intros tracks Hcfg canRemux _.
  destruct (out_finalize env source _) as [[]|m]; [|discriminate].
  cbn [added].
  destruct (bufTarget_buffer env _ _) as [b|] eqn:Hbuf; [|discriminate].
  rewrite disposeAll_spec. intros [= <- <-].
  cbn [added videoTrack addVideoTrack afterFilter world0 app] in *.
  split; [exact Hcfg|]. split; [reflexivity|].
  exists source. split; [reflexivity|exact Hbuf].
Qed.

(** X4. A run of [videoConcat] that returns has handed to the output, in
    session order and in unit order, the payload of every unit of non-zero
    duration of every surviving session, each exactly once and nothing else;
    every unit carries a decoder configuration on the remux path and none on
    the transcode path; and the buffer returned is the one finalized from
    those units. *)
Theorem X4_payloads_carried_in_order :
  forall env streams buffer w',
    videoConcat env streams world0 = (Normal buffer, w') ->
    map Added.data (added w')
    = flat_map (fun video =>
                  map Unit.data
                      (kept (unitsOf (remuxEligible (survivors env streams)) video)))
               (survivors env streams) /\
    Forall (fun e => Added.decoderConfig e <> None
                     <-> remuxEligible (survivors env streams) = true)
           (added w') /\
    exists source,
      videoTrack w' = Some source /\ bufTarget_buffer env source (added w') = Some buffer.
Proof.
  intros env streams buffer w' Hrun.
  destruct (videoConcat_returns _ _ _ _ Hrun) as (Hall & Hadded & Hbuf).
  split; [rewrite Hadded; apply assembled_data|].
  split; [rewrite Hadded; now apply assembled_config|exact Hbuf].
Qed.

Lemma X4_payloads_witness :
  map Added.data
      (added (snd (videoConcat twoSessions_env [streamOf 0; streamOf 1] world0)))
  = [1; 2; 1; 2]%N.
Proof.
  destruct (X4_payloads_carried_in_order twoSessions_env [streamOf 0; streamOf 1]
              [1%N] (snd (videoConcat twoSessions_env [streamOf 0; streamOf 1] world0)))
    as (Hdata & _); [reflexivity|].
  rewrite Hdata. reflexivity.
Defined.

(** ** The thumbnail tiers *)

(** X6. [makeThumbnail] disposes its input exactly when it has settled on
    a canvas, the one at the middle of the video or else the one at its first
    timestamp: the result is then what encoding that canvas gives, whether a
    blob or a throw.  When there is no track, no decodable codec or no canvas,
    or when a call into mediabunny rejects on the way, it throws and the input
    is left undisposed.  It adds nothing to the output and raises no alert. *)
Theorem X6_makeThumbnail_disposes_iff_canvas :
  forall env videoBlob w,
    match thumbCanvasOf env videoBlob with
    | Some c =>
        fst (makeThumbnail env videoBlob w) = encodeCanvas env c /\
        disposed (snd (makeThumbnail env videoBlob w)) = disposed w ++ [0%nat]
    | None =>
        is_throw (fst (makeThumbnail env videoBlob w)) = true /\
        disposed (snd (makeThumbnail env videoBlob w)) = disposed w
    end /\
    added (snd (makeThumbnail env videoBlob w)) = added w /\
    alerts (snd (makeThumbnail env videoBlob w)) = alerts w.
Proof.
  intros env videoBlob w. unfold thumbCanvasOf, makeThumbnail, encodeCanvas.
  destruct (getPrimaryVideoTrack env videoBlob) as [[video|]|e]; [|auto|auto].
  destruct (Track.codec video); [|simpl; auto].
  destruct (canDecode env video) as [[]|e]; [|simpl; auto|simpl; auto].
  cbn [negb]. cbv zeta.
  destruct (getFirstTimestamp env video) as [begin|e]; [|auto].
  destruct (computeDuration env video) as [end_|e]; [|auto].
  destruct (canvasesAtTimestamps env video _ _ (_ + _)) as [[|[c|] ?]|e];
    [| simpl; auto | |auto];
    destruct (canvasesAtTimestamps env video _ _ begin) as [[|[c'|] ?]|e'];
    simpl; auto.
Qed.

Lemma dimension_max (d1 d2 : Z) :
  (0 < d1)%Z -> (0 < d2)%Z ->
  Z.max (dimension d1 d2) (dimension d2 d1) = THUMBNAIL_SIZE.
Proof.
  intros H1 H2. unfold dimension. rewrite !Qfloor_div by assumption.
  unfold THUMBNAIL_SIZE.
  destruct (Z.gtb_spec d1 d2); destruct (Z.gtb_spec d2 d1); try lia.
  - apply Z.max_l. apply Z.div_le_upper_bound; lia.
  - apply Z.max_r. apply Z.div_le_upper_bound; lia.
  - assert (d1 = d2) by lia. subst d2. rewrite Z.div_mul by lia. apply Z.max_id.
Qed.

Lemma timesPixelRatio_one env x :
  devicePixelRatio env == 1 -> timesPixelRatio env x = x.
Proof.
  intros H. unfold timesPixelRatio.
  assert (E : inject_Z x * devicePixelRatio env == inject_Z x) by (rewrite H; ring).
  rewrite E. apply Qfloor_Z.
Qed.

(** X7. [makeFallbackThumbnail] returns a blob if and only if the video
    element loads, the canvas gives a 2D context and the canvas can be
    encoded; the blob is then the JPEG encoding of the canvas holding the
    video's frame.  It never logs a warning, disposes an input or writes to
    the output.  At a pixel ratio of 1, for a video of positive width and
    height, the longer side of that canvas is [THUMBNAIL_SIZE]. *)
Theorem X7_fallback_thumbnail :
  forall env videoBlob w,
    snd (makeFallbackThumbnail env videoBlob w) = w /\
    (forall blob,
        fst (makeFallbackThumbnail env videoBlob w) = Normal blob <->
        exists video,
          loadeddata env videoBlob = Some video /\
          getContext2d env (fallbackCanvas env video Blank) = true /\
          toBlob env (fallbackCanvas env video (Frame (VideoElement.frame video))) = true /\
          blob = jpeg (fallbackCanvas env video (Frame (VideoElement.frame video)))) /\
    (forall video pixels,
        devicePixelRatio env == 1 ->
        (0 < VideoElement.videoWidth video)%Z ->
        (0 < VideoElement.videoHeight video)%Z ->
        Z.max (Canvas.width (fallbackCanvas env video pixels))
              (Canvas.height (fallbackCanvas env video pixels)) = THUMBNAIL_SIZE).
Proof.
  intros env videoBlob w. unfold makeFallbackThumbnail.
  split; [|split].
  - destruct (loadeddata env videoBlob) as [video|]; [|reflexivity].
    cbv zeta. destruct (getContext2d env _); [|reflexivity].
    cbn [negb]. destruct (toBlob env _); reflexivity.
  - intros blob. destruct (loadeddata env videoBlob) as [video|].
    + cbv zeta. fold (fallbackCanvas env video Blank).
      destruct (getContext2d env (fallbackCanvas env video Blank)) eqn:Hctx;
        cbn [negb].
      * change (Canvas.mk (Canvas.width (fallbackCanvas env video Blank))
                          (Canvas.height (fallbackCanvas env video Blank))
                          (Frame (VideoElement.frame video)) true)
          with (fallbackCanvas env video (Frame (VideoElement.frame video))).
        destruct (toBlob env (fallbackCanvas env video (Frame (VideoElement.frame video))))
          eqn:Hblob; cbn [fst]; split.
        -- intros [= <-]. exists video. auto.
        -- intros (v & [= <-] & _ & _ & ->). reflexivity.
        -- discriminate.
        -- intros (v & [= <-] & _ & Ht & _). rewrite Hblob in Ht. discriminate.
      * cbn [fst]. split; [discriminate|].
        intros (v & [= <-] & Hc & _). rewrite Hctx in Hc. discriminate.
    + cbn [fst]. split; [discriminate|]. intros (v & Hv & _). discriminate.
  - intros video pixels Hdpr Hw Hh. unfold fallbackCanvas.
    cbn [Canvas.width Canvas.height]. rewrite !timesPixelRatio_one by assumption.
    now apply dimension_max.
Qed.

Lemma X7_fallback_witness :
  fst (makeFallbackThumbnail canvas_env someVideo world0)
  = Normal (jpeg (Canvas.mk 640 360 (Frame 7) true)).
Proof.
  destruct (X7_fallback_thumbnail canvas_env someVideo world0) as (_ & Hiff & _).
  apply Hiff. exists (VideoElement.mk 1280 720 7). repeat split.
Defined.

(** ** [chunked] *)

Lemma slice_block {T : Type} (array : list T) (k m : nat) :
  (k <= List.length array)%nat ->
  slice array (Z.of_nat k) (Z.of_nat k + Z.of_nat m) = firstn m (skipn k array).
Proof.
  intros Hk. unfold slice.
  replace (Z.of_nat k <? 0)%Z with false by (symmetry; apply Z.ltb_ge; lia).
  replace (Z.of_nat k + Z.of_nat m <? 0)%Z with false
    by (symmetry; apply Z.ltb_ge; lia).
  rewrite (Z.min_l (Z.of_nat k)) by lia. rewrite Nat2Z.id.
  destruct (Nat.le_gt_cases (k + m) (List.length array)) as [Hin | Hout].
  - rewrite Z.min_l by lia. f_equal. lia.
  - rewrite Z.min_r by lia.
    replace (Z.to_nat (Z.max (Z.of_nat (List.length array) - Z.of_nat k) 0))
      with (List.length (skipn k array)) by (rewrite length_skipn; lia).
    rewrite firstn_all. symmetry. apply firstn_all2. rewrite length_skipn. lia.
Qed.

Lemma batchesOf_cons {T : Type} (m : nat) (c : list T) (chunks : list (list T)) :
  (1 <= List.length c <= m)%nat ->
  (chunks <> [] -> List.length c = m) ->
  batchesOf m chunks -> batchesOf m (c :: chunks).
Proof.
  intros Hc Hfull [Hall Hinit]. split; [now constructor|].
  destruct chunks as [|c' chunks]; [constructor|].
  change (removelast (c :: c' :: chunks)) with (c :: removelast (c' :: chunks)).
  constructor; [apply Hfull; discriminate|exact Hinit].
Qed.

Lemma chunked_from_spec {T : Type} (array : list T) (m : nat) :
  (1 <= m)%nat ->
  forall fuel k,
    (List.length array - k <= fuel)%nat ->
    exists chunks,
      chunked_from fuel array (Z.of_nat m) (Z.of_nat k) = Some chunks /\
      List.concat chunks = skipn k array /\
      batchesOf m chunks /\
      (chunks = [] <-> (List.length array <= k)%nat) /\
      (List.length chunks * m < List.length array - k + m)%nat.
Proof.
  intros Hm. induction fuel as [|fuel IH]; intros k Hfuel.
  - exists []. simpl.
    replace (Z.of_nat k <? Z.of_nat (List.length array))%Z with false
      by (symmetry; apply Z.ltb_ge; lia).
    split; [reflexivity|]. split; [symmetry; apply skipn_all2; lia|].
    split; [split; constructor|]. split; [split; [lia|reflexivity]|simpl; lia].
  - simpl. destruct (Z.ltb_spec (Z.of_nat k) (Z.of_nat (List.length array))) as [Hlt | Hge].
    + destruct (IH (k + m)%nat ltac:(lia)) as (chunks & Hrun & Hcat & Hbatch & Hnil & Hcount).
      rewrite <- Nat2Z.inj_add, Hrun. simpl.
      rewrite Nat2Z.inj_add, slice_block by lia.
      exists (firstn m (skipn k array) :: chunks).
      split; [reflexivity|]. split; [|split; [|split]].
      * simpl. rewrite Hcat, Nat.add_comm, <- skipn_skipn. apply firstn_skipn.
      * apply batchesOf_cons; [| |exact Hbatch].
        -- rewrite length_firstn, length_skipn. lia.
        -- intros Hne. rewrite length_firstn, length_skipn.
           assert (~ (List.length array <= k + m)%nat) by (intros H; apply Hne, Hnil, H).
           lia.
      * split; [discriminate|lia].
      * destruct (Nat.le_gt_cases (List.length array) (k + m)) as [Hend | Hmore].
        -- apply Hnil in Hend. subst chunks. simpl. lia.
        -- simpl. lia.
    + exists []. split; [reflexivity|]. split; [symmetry; apply skipn_all2; lia|].
      split; [split; constructor|]. split; [split; [lia|reflexivity]|simpl; lia].
Qed.

Lemma chunked_from_stuck {T : Type} (array : list T) (n : Z) :
  array <> [] -> (n <= 0)%Z ->
  forall fuel i, (i <= 0)%Z -> chunked_from fuel array n i = None.
Proof.
  intros Hne Hn. induction fuel as [|fuel IH]; intros i Hi; simpl;
    replace (i <? Z.of_nat (List.length array))%Z with true
      by (symmetry; apply Z.ltb_lt; destruct array; [easy|simpl; lia]).
  - reflexivity.
  - rewrite IH by lia. reflexivity.
Qed.

(** X8. For a batch size [n] of at least 1, [chunked] finishes within as
    many turns as the array has elements and yields batches whose
    concatenation is the array: every batch has [n] elements except the last,
    which has from 1 to [n]; there are ceil(length / n) batches, none for an
    empty array.  For a batch size of 0 or less on a non-empty array the loop
    never finishes. *)
Theorem X8_chunked_partitions_the_array :
  forall (T : Type) (array : list T) (n : Z),
    ((1 <= n)%Z ->
     forall fuel, (List.length array <= fuel)%nat ->
     exists chunks,
       chunked fuel array n = Some chunks /\
       List.concat chunks = array /\
       Forall (fun c => (1 <= Z.of_nat (List.length c) <= n)%Z) chunks /\
       Forall (fun c => Z.of_nat (List.length c) = n) (removelast chunks) /\
       Z.of_nat (List.length chunks) = ((Z.of_nat (List.length array) + n - 1) / n)%Z) /\
    ((n <= 0)%Z -> array <> [] -> forall fuel, chunked fuel array n = None).
Proof.
  intros T array n. split.
  - intros Hn fuel Hfuel.
    destruct (chunked_from_spec array (Z.to_nat n) ltac:(lia) fuel 0%nat ltac:(lia))
      as (chunks & Hrun & Hcat & [Hall Hinit] & Hnil & Hcount).
    rewrite Z2Nat.id in Hrun by lia.
    exists chunks. split; [exact Hrun|]. split; [exact Hcat|].
    split; [|split].
    + eapply Forall_impl; [|exact Hall]. intros c Hc. cbv beta in Hc. lia.
    + eapply Forall_impl; [|exact Hinit]. intros c Hc. cbv beta in Hc. lia.
    + apply Z.div_unique with
        (r := (Z.of_nat (List.length array) + n - 1 - n * Z.of_nat (List.length chunks))%Z);
        [|lia].
      left. rewrite Nat.sub_0_r in Hcount.
      assert (Hlow : (List.length array <= List.length chunks * Z.to_nat n)%nat).
      { clear - Hcat Hall. simpl in Hcat. subst array.
        induction Hall as [|c chunks Hc Hall IH]; simpl; [lia|].
        rewrite length_app. lia. }
      nia.
  - intros Hn Hne fuel. now apply chunked_from_stuck.
Qed.

Lemma X8_chunked_witness :
  chunked 5 [1; 2; 3; 4; 5]%Z 2 = Some [[1; 2]; [3; 4]; [5]]%Z /\
  chunked 5 [1; 2; 3; 4; 5]%Z 0 = None.
Proof.
  destruct (X8_chunked_partitions_the_array Z [1; 2; 3; 4; 5]%Z 0) as [_ Hstuck].
  split; [reflexivity|]. apply Hstuck; [lia|discriminate].
Defined.

(** ** The snapshot rows of [commit] *)

Lemma mapi_from_length {A B : Type} (f : A -> nat -> B) (l : list A) : forall i,
  List.length (mapi_from i f l) = List.length l.
Proof. induction l as [|x l IH]; intros i; simpl; [reflexivity|now rewrite IH]. Qed.

Lemma mapi_from_nth {A B : Type} (f : A -> nat -> B) (l : list A) : forall i k,
  nth_error (mapi_from i f l) k = option_map (fun x => f x (i + k)%nat) (nth_error l k).
Proof.
  induction l as [|x l IH]; intros i k; simpl.
  - destruct k; reflexivity.
  - destruct k as [|k]; simpl; [now rewrite Nat.add_0_r|].
    rewrite IH. now rewrite Nat.add_succ_comm.
Qed.

Lemma mapi_from_map {A B C : Type} (f : A -> nat -> B) (g : B -> C) (h : A -> C)
    (l : list A) :
  (forall x i, g (f x i) = h x) -> forall i, map g (mapi_from i f l) = map h l.
Proof.
  intros Hgf. induction l as [|x l IH]; intros i; simpl; [reflexivity|].
  now rewrite Hgf, IH.
Qed.

Lemma mapi_length {A B : Type} (f : A -> nat -> B) (l : list A) :
  List.length (mapi f l) = List.length l.
Proof. apply mapi_from_length. Qed.

Lemma mapi_nth {A B : Type} (f : A -> nat -> B) (l : list A) (k : nat) :
  nth_error (mapi f l) k = option_map (fun x => f x k) (nth_error l k).
Proof. unfold mapi. now rewrite mapi_from_nth. Qed.

Lemma batchesOf_tail {T : Type} (m : nat) (c : list T) (chunks : list (list T)) :
  batchesOf m (c :: chunks) ->
  batchesOf m chunks /\ (chunks <> [] -> List.length c = m) /\
  (List.length c <= m)%nat.
Proof.
  intros [Hall Hinit]. apply Forall_cons_iff in Hall as [Hc Hall].
  destruct chunks as [|c' chunks].
  - split; [split; constructor|]. split; [easy|lia].
  - change (removelast (c :: c' :: chunks)) with (c :: removelast (c' :: chunks)) in Hinit.
    apply Forall_cons_iff in Hinit as [Hfull Hinit].
    split; [now split|]. split; [auto|lia].
Qed.

Lemma batchesOf_firstn {T : Type} (m : nat) (chunks : list (list T)) : forall k,
  batchesOf m chunks -> batchesOf m (firstn k chunks).
Proof.
  induction chunks as [|c chunks IH]; intros k Hb.
  - now rewrite firstn_nil.
  - destruct k as [|k]; [split; constructor|].
    destruct (batchesOf_tail _ _ _ Hb) as (Htail & Hfull & Hle).
    destruct Hb as [Hall _]. apply Forall_inv in Hall.
    cbn [firstn]. apply batchesOf_cons; [exact Hall| |now apply IH].
    intros Hne. apply Hfull. intros ->. now rewrite firstn_nil in Hne.
Qed.

Lemma frames_restart (timelapseId : string) (chunks : list (list Z)) :
  batchesOf 100 chunks ->
  forall k row,
    nth_error (List.concat (map (rowsOf timelapseId) chunks)) k = Some row ->
    SnapshotRow.frame row = Z.of_nat (k mod 100).
Proof.
  unfold rowsOf.
  induction chunks as [|c chunks IH]; intros Hb k row Hk; simpl in Hk.
  - destruct k; discriminate.
  - destruct (batchesOf_tail _ _ _ Hb) as (Htail & Hfull & Hle).
    destruct (Nat.lt_ge_cases k (List.length c)) as [Hin | Hout].
    + rewrite nth_error_app1 in Hk by now rewrite mapi_length.
      rewrite mapi_nth in Hk.
      destruct (nth_error c k); [|discriminate]. injection Hk as <-.
      cbn [SnapshotRow.frame]. rewrite Nat.mod_small by lia. reflexivity.
    + rewrite nth_error_app2 in Hk by (rewrite mapi_length; lia).
      rewrite mapi_length in Hk.
      assert (Hc : List.length c = 100%nat).
      { apply Hfull. intros ->. simpl in Hk.
        destruct (k - List.length c)%nat; discriminate. }
      rewrite (IH Htail _ _ Hk), Hc. f_equal.
      replace k with ((k - 100) + 1 * 100)%nat at 2 by lia.
      now rewrite Nat.Div0.mod_add.
Qed.

Lemma createdAt_rowsOf timelapseId (chunks : list (list Z)) :
  map SnapshotRow.createdAt (List.concat (map (rowsOf timelapseId) chunks))
  = List.concat chunks.
Proof.
  rewrite concat_map, map_map.
  rewrite (map_ext _ (fun c => c)), map_id; [reflexivity|].
  intros c. unfold rowsOf, mapi.
  rewrite (mapi_from_map _ SnapshotRow.createdAt (fun x => x)) by reflexivity.
  apply map_id.
Qed.

(** The loop makes the calls of a front part of the batches: of all of
    them when no call rejects, and up to the call that rejects otherwise. *)
Lemma for_batches_spec createMany timelapseId batches : forall calls,
  exists k,
    (k <= List.length batches)%nat /\
    snd (for_batches createMany timelapseId batches calls)
    = calls ++ map (fun batch => CreateMany.mk true (rowsOf timelapseId batch))
                   (firstn k batches) /\
    (fst (for_batches createMany timelapseId batches calls) = Normal tt ->
     k = List.length batches) /\
    (forall e,
        fst (for_batches createMany timelapseId batches calls) = Throw e ->
        exists call,
          last_error (snd (for_batches createMany timelapseId batches calls)) = Some call /\
          createMany call = Throw e) /\
    ((forall call, createMany call = Normal tt) ->
     fst (for_batches createMany timelapseId batches calls) = Normal tt).
Proof.
  induction batches as [|batch rest IH]; intros calls; simpl.
  - exists 0%nat. simpl. rewrite app_nil_r.
    split; [lia|]. split; [reflexivity|]. split; [reflexivity|].
    split; [discriminate|reflexivity].
  - destruct (createMany (CreateMany.mk true (rowsOf timelapseId batch))) as [[]|e] eqn:Hcall.
    + destruct (IH (calls ++ [CreateMany.mk true (rowsOf timelapseId batch)]))
        as (k & Hk & Hcalls & Hnormal & Hthrow & Hall).
      exists (S k). split; [simpl; lia|].
      split; [rewrite Hcalls, <- app_assoc; reflexivity|].
      split; [intros H; simpl; f_equal; now apply Hnormal|].
      split; [exact Hthrow|exact Hall].
    + exists 1%nat. simpl. split; [lia|]. split; [reflexivity|].
      split; [discriminate|]. split.
      * intros e' [= <-]. exists (CreateMany.mk true (rowsOf timelapseId batch)).
        split; [|exact Hcall]. now rewrite last_error_app by discriminate.
      * intros Hall. rewrite Hall in Hcall. discriminate.
Qed.

(** X9. When [commit] gets to writing the snapshots, it hands the
    snapshots of the request to [createMany] in ascending order of their
    timestamps, in calls of from 1 to 100 rows, all
    for the new timelapse and all with [skipDuplicates] set; the [frame] of a
    row is its index within its call, so the [k]-th snapshot gets frame
    [k mod 100], not [k].  When no call rejects, every snapshot of the
    request is handed over exactly once; a call that rejects is the last one
    made, and the snapshots behind its batch are never handed over. *)
Theorem X9_snapshot_frames_restart_per_batch :
  forall createMany timelapseId snapshots fuel,
    (List.length snapshots <= fuel)%nat ->
    exists r calls,
      commit_snapshots fuel createMany timelapseId snapshots = Some (r, calls) /\
      Forall (fun call =>
                CreateMany.skipDuplicates call = true /\
                (1 <= List.length (CreateMany.data call) <= 100)%nat /\
                Forall (fun row => SnapshotRow.timelapseId row = timelapseId)
                       (CreateMany.data call))
             calls /\
      (exists rest,
          toSorted (ascending (fun x => x)) snapshots
          = map SnapshotRow.createdAt (List.concat (map CreateMany.data calls)) ++ rest) /\
      (forall k row,
          nth_error (List.concat (map CreateMany.data calls)) k = Some row ->
          SnapshotRow.frame row = Z.of_nat (k mod 100)) /\
      (r = Normal tt ->
       Permutation (map SnapshotRow.createdAt (List.concat (map CreateMany.data calls)))
                   snapshots /\
       StronglySorted Z.le
         (map SnapshotRow.createdAt (List.concat (map CreateMany.data calls)))) /\
      (forall e, r = Throw e ->
                 exists call, last_error calls = Some call /\ createMany call = Throw e) /\
      ((forall call, createMany call = Normal tt) -> r = Normal tt).
Proof.
  intros createMany timelapseId snapshots fuel Hfuel. unfold commit_snapshots, chunked.
  set (sorted := toSorted (ascending (fun x : Z => x)) snapshots).
  assert (Hlen : List.length sorted = List.length snapshots)
    by (apply Permutation_length, toSorted_perm).
  destruct (chunked_from_spec sorted 100 ltac:(lia) fuel 0%nat ltac:(lia))
    as (chunks & Hrun & Hcat & Hbatch & _).
  change (Z.of_nat 100) with 100%Z in Hrun. change (Z.of_nat 0) with 0%Z in Hrun.
  rewrite Hrun. simpl option_map. simpl skipn in Hcat.
  destruct (for_batches_spec createMany timelapseId chunks [])
    as (k & Hk & Hcalls & Hnormal & Hthrow & Hall).
  destruct (for_batches createMany timelapseId chunks []) as [r calls].
  cbn [fst snd app] in *. subst calls.
  exists r. eexists. split; [reflexivity|].
  pose proof (batchesOf_firstn 100 chunks k Hbatch) as Hfront.
  assert (Hdata :
    map CreateMany.data
        (map (fun batch => CreateMany.mk true (rowsOf timelapseId batch)) (firstn k chunks))
    = map (rowsOf timelapseId) (firstn k chunks))
    by (rewrite map_map; reflexivity).
  rewrite Hdata.
  split; [|split; [|split; [|split; [|split]]]].
  - apply Forall_map. destruct Hfront as [Hlens _].
    eapply Forall_impl; [|exact Hlens]. intros c Hc. cbv beta in *.
    cbn [CreateMany.skipDuplicates CreateMany.data].
    assert (Hrows : List.length (rowsOf timelapseId c) = List.length c)
      by apply mapi_length.
    rewrite Hrows. split; [reflexivity|]. split; [exact Hc|].
    unfold rowsOf, mapi. generalize 0%nat. clear.
    induction c as [|x c IH]; intros i; simpl; constructor; [reflexivity|apply IH].
  - exists (List.concat (skipn k chunks)).
    rewrite createdAt_rowsOf, <- concat_app, firstn_skipn. now symmetry.
  - now apply frames_restart.
  - intros Hr. rewrite (Hnormal Hr), firstn_all, createdAt_rowsOf, Hcat.
    split; [apply toSorted_perm|exact (toSorted_sorted (fun x : Z => x) snapshots)].
  - exact Hthrow.
  - exact Hall.
Qed.

Lemma X9_snapshot_witness :
  exists r calls row,
    commit_snapshots 150 secondCallFails "t" (map Z.of_nat (seq 0 150)) = Some (r, calls) /\
    r = Throw "connection lost" /\ List.length calls = 2%nat /\
    nth_error (List.concat (map CreateMany.data calls)) 100 = Some row /\
    SnapshotRow.createdAt row = 100%Z /\ SnapshotRow.frame row = 0%Z.
Proof.
  destruct (X9_snapshot_frames_restart_per_batch secondCallFails "t"
              (map Z.of_nat (seq 0 150)) 150)
    as (r & calls & Hrun & _ & _ & Hframe & _);
    [rewrite length_map, length_seq; lia|].
  vm_compute in Hrun. injection Hrun as <- <-.
  eexists _, _, _. split; [vm_compute; reflexivity|]. split; [reflexivity|].
  split; [reflexivity|]. split; [reflexivity|]. split; [reflexivity|].
  exact (Hframe 100%nat _ eq_refl).
Defined.

(** ** [closest] *)

Lemma Qltb_true a b : Qltb a b = true -> a <= b.
Proof.
  unfold Qltb. intros H. apply negb_true_iff in H.
  destruct (Qlt_le_dec a b) as [Hlt | Hle]; [now apply Qlt_le_weak|].
  apply Qle_bool_iff in Hle. congruence.
Qed.

Lemma Qltb_false a b : Qltb a b = false -> b <= a.
Proof.
  unfold Qltb. intros H. apply negb_false_iff in H. now apply Qle_bool_iff.
Qed.

Lemma fold_nearer {T : Type} (selector : T -> Q) (x : Q) (rest : list T) :
  forall first,
    In (fold_left (nearer selector x) rest first) (first :: rest) /\
    forall y, In y (first :: rest) ->
      Qabs (selector (fold_left (nearer selector x) rest first) - x)
      <= Qabs (selector y - x).
Proof.
  induction rest as [|curr rest IH]; intros first; simpl.
  - split; [now left|]. intros y [<- | []]. apply Qle_refl.
  - destruct (IH (nearer selector x first curr)) as [Hin Hmin].
    assert (Hstep :
      (nearer selector x first curr = first \/ nearer selector x first curr = curr) /\
      Qabs (selector (nearer selector x first curr) - x) <= Qabs (selector first - x) /\
      Qabs (selector (nearer selector x first curr) - x) <= Qabs (selector curr - x)).
    { unfold nearer.
      destruct (Qltb (Qabs (selector curr - x)) (Qabs (selector first - x))) eqn:Hlt.
      - split; [now right|]. split; [now apply Qltb_true|apply Qle_refl].
      - split; [now left|]. split; [apply Qle_refl|now apply Qltb_false]. }
    destruct Hstep as (Hwhich & Hfirst & Hcurr). split.
    + destruct Hin as [Hin | Hin]; [|now right; right].
      rewrite <- Hin. destruct Hwhich as [-> | ->]; [now left|now right; left].
    + intros y [<- | [<- | Hy]].
      * eapply Qle_trans; [apply Hmin; now left|exact Hfirst].
      * eapply Qle_trans; [apply Hmin; now left|exact Hcurr].
      * apply Hmin. now right.
Qed.

Lemma reduce_nearer {T : Type} (selector : T -> Q) (x : Q) (array : list T) :
  array <> [] ->
  exists r,
    reduce (nearer selector x) array = Normal r /\ In r array /\
    forall y, In y array -> Qabs (selector r - x) <= Qabs (selector y - x).
Proof.
  destruct array as [|first rest]; [easy|]. intros _.
  destruct (fold_nearer selector x rest first) as [Hin Hmin].
  eexists. split; [reflexivity|]. split; assumption.
Qed.

(** X10. On a non-empty array, [closest] with a selector returns an item
    of the array whose key is at the least distance from [x] among all items;
    when some key equals [x], so does the key of the item it returns.  On numbers it
    returns a number equal to an element of the array and at the least
    distance from [x].  On an empty array both throw, from [reduce]. *)
Theorem X10_closest_is_nearest :
  forall (T : Type) (x : Q) (array : list T) (selector : T -> Q) (numbers : list Q),
    (array = [] -> is_throw (closestBy x array selector) = true) /\
    (array <> [] ->
     exists r,
       closestBy x array selector = Normal r /\ In r array /\
       (forall y, In y array -> Qabs (selector r - x) <= Qabs (selector y - x)) /\
       (forall y, In y array -> selector y == x -> selector r == x)) /\
    (numbers = [] -> is_throw (closest x numbers) = true) /\
    (numbers <> [] ->
     exists r,
       closest x numbers = Normal r /\
       (exists y, In y numbers /\ r == y) /\
       (forall y, In y numbers -> Qabs (r - x) <= Qabs (y - x))).
Proof.
  intros T x array selector numbers.
  assert (Hzero : forall a, a == x -> forall b, Qabs (a - x) <= Qabs (b - x)).
  { intros a Ha b. rewrite Ha. setoid_replace (x - x) with 0 by ring.
    change (Qabs 0) with 0. apply Qabs_nonneg. }
  split; [now intros ->|]. split; [|split; [now intros ->|]].
  - intros Hne. unfold closestBy.
    destruct (find (fun item => Qeq_bool (selector item) x) array) as [found|] eqn:Hfind.
    + apply find_some in Hfind as [Hin Heq]. apply Qeq_bool_iff in Heq.
      exists found. split; [reflexivity|]. split; [exact Hin|].
      split; [intros y _; now apply Hzero|intros; exact Heq].
    + destruct (reduce_nearer selector x array Hne) as (r & Hrun & Hin & Hmin).
      exists r. split; [exact Hrun|]. split; [exact Hin|]. split; [exact Hmin|].
      intros y Hy Heq. pose proof (find_none _ _ Hfind y Hy) as Hno.
      apply Qeq_bool_iff in Heq. cbv beta in Hno. congruence.
  - intros Hne. unfold closest.
    destruct (reduce_nearer (fun y => y) x numbers Hne) as (r & Hrun & Hin & Hmin).
    assert (Hred : exists r,
              reduce (nearer (fun y => y) x) numbers = Normal r /\
              (exists y, In y numbers /\ r == y) /\
              (forall y, In y numbers -> Qabs (r - x) <= Qabs (y - x))).
    { exists r. split; [exact Hrun|]. split; [|exact Hmin].
      exists r. split; [exact Hin|reflexivity]. }
    destruct (find (fun y => Qeq_bool x y) numbers) as [found|] eqn:Hfind;
      [|exact Hred].
    destruct (negb (Qeq_bool found 0)); [|exact Hred].
    apply find_some in Hfind as [Hfound Heq]. apply Qeq_bool_iff in Heq.
    exists x. split; [reflexivity|]. split; [now exists found|].
    intros y _. now apply Hzero.
Qed.

Lemma X10_closest_witness :
  exists r,
    closest 2 [3; 0; 1] = Normal r /\
    (forall y, In y [3; 0; 1] -> Qabs (r - 2) <= Qabs (y - 2)).
Proof.
  destruct (X10_closest_is_nearest Q 2 [3; 0; 1] (fun y => y) [3; 0; 1])
    as (_ & _ & _ & H).
  destruct (H ltac:(discriminate)) as (r & Hrun & _ & Hmin).
  exists r. split; assumption.
Defined.

(** ** [descending] *)

(** X11. Sorting with [descending(picker)] gives the same items, each as
    often as before, in non-increasing order of their keys. *)
Theorem X11_descending_sorts_downwards :
  forall (T : Type) (picker : T -> Z) (l : list T),
    Permutation (toSorted (descending picker) l) l /\
    StronglySorted (fun a b => (picker b <= picker a)%Z)
                   (toSorted (descending picker) l).
Proof.
  intros T picker l. split; [apply toSorted_perm|].
  assert (E : toSorted (descending picker) l
              = toSorted (ascending (fun x => (- picker x)%Z)) l).
  { rewrite <- (map_id l) at 1.
    rewrite (toSorted_map (fun x => x) (ascending (fun x => (- picker x)%Z))
               (descending picker)).
    - apply map_id.
    - intros a b. unfold ascending, descending. lia. }
  rewrite E.
  eapply StronglySorted_ind with
    (P := StronglySorted (fun a b => (picker b <= picker a)%Z));
    [constructor | | exact (toSorted_sorted (fun x => (- picker x)%Z) l)].
  intros a l' _ IH Ha. constructor; [exact IH|].
  eapply Forall_impl; [|exact Ha]. intros b Hb. cbv beta in Hb. lia.
Qed.

(** ** [formatDuration] and [formatTimeElapsed] *)

Lemma append_empty (a b : string) : (a ++ b)%string = EmptyString -> b = EmptyString.
Proof. destruct a; simpl; [easy|discriminate]. Qed.

Lemma concat_empty (sep x : string) (l : list string) :
  String.concat sep (x :: l) = EmptyString -> x = EmptyString.
Proof.
  destruct l as [|y l]; simpl; [easy|]. destruct x; [reflexivity|discriminate].
Qed.

Lemma Qfloor_zero_iff (q : Q) : 0 <= q -> (Qfloor q = 0%Z <-> q < 1).
Proof.
  intros Hq. split.
  - intros H. pose proof (Qlt_floor q) as Hlt. rewrite H in Hlt. exact Hlt.
  - intros H. pose proof (Qfloor_resp_le _ _ Hq) as Hlow.
    pose proof (Qfloor_resp_le _ _ (Qlt_le_weak _ _ H)) as Hup.
    change (Qfloor 0) with 0%Z in Hlow. change (Qfloor 1) with 1%Z in Hup.
    destruct (Z.eq_dec (Qfloor q) 1) as [E | E]; [|lia].
    pose proof (Qfloor_le q) as Hle. rewrite E in Hle.
    exfalso. apply (Qlt_irrefl 1). now apply Qle_lt_trans with q.
Qed.

(** X12. For a duration of zero or more seconds, [formatDuration] returns
    [0s] for zero.  Otherwise its text lists, in this order and with one space
    between them, the hours followed by [h], the minutes followed by [m] and
    the seconds followed by [s], each as a decimal numeral and each left out
    when it is zero; these are the hours, the minutes below 60 and the seconds
    below 60 that add up to the whole seconds of the duration.  The text is
    empty exactly for a duration above zero and below one second. *)
Theorem X12_formatDuration_components :
  forall seconds : Q,
    0 <= seconds ->
    (0 <= Timespan.h (extractTimespanComponents seconds))%Z /\
    (0 <= Timespan.m (extractTimespanComponents seconds) < 60)%Z /\
    (0 <= Timespan.s (extractTimespanComponents seconds) < 60)%Z /\
    (Timespan.h (extractTimespanComponents seconds) * 3600
     + Timespan.m (extractTimespanComponents seconds) * 60
     + Timespan.s (extractTimespanComponents seconds) = Qfloor seconds)%Z /\
    (seconds == 0 -> formatDuration seconds = "0s"%string) /\
    (~ seconds == 0 ->
     formatDuration seconds
     = String.concat " "
         (map (fun part => (numberToString (fst part) ++ snd part)%string)
              (filter (fun part => negb (fst part =? 0)%Z)
                      [((Qfloor seconds / 3600)%Z, "h"%string);
                       ((Qfloor seconds mod 3600 / 60)%Z, "m"%string);
                       ((Qfloor seconds mod 60)%Z, "s"%string)]))) /\
    (formatDuration seconds = EmptyString <-> 0 < seconds /\ seconds < 1).
Proof.
  intros seconds Hpos.
  assert (Ha : (0 <= Qfloor seconds)%Z)
    by (change 0%Z with (Qfloor 0); now apply Qfloor_resp_le).
  unfold formatDuration, extractTimespanComponents.
  cbn [Timespan.h Timespan.m Timespan.s].
  rewrite !Z.rem_mod_nonneg by lia.
  set (a := Qfloor seconds) in *.
  assert (Hparts : (0 <= a / 3600 /\ 0 <= a mod 3600 / 60 < 60 /\ 0 <= a mod 60 < 60 /\
                    a / 3600 * 3600 + a mod 3600 / 60 * 60 + a mod 60 = a)%Z).
  { Z.to_euclidean_division_equations. lia. }
  destruct Hparts as (Hh & Hm & Hs & Hsum).
  split; [exact Hh|]. split; [exact Hm|]. split; [exact Hs|]. split; [exact Hsum|].
  destruct (Qeq_bool seconds 0) eqn:Hz.
  - apply Qeq_bool_iff in Hz. split; [reflexivity|].
    split; [intros H; now elim H|]. split; [discriminate|].
    intros [Hlt _]. rewrite Hz in Hlt. now apply Qlt_irrefl in Hlt.
  - apply Qeq_bool_neq in Hz.
    split; [intros E; now elim Hz|].
    split.
    { intros _. cbn [filter fst snd].
      destruct (a / 3600 =? 0)%Z, (a mod 3600 / 60 =? 0)%Z, (a mod 60 =? 0)%Z;
        reflexivity. }
    assert (Hgt : 0 < seconds).
    { apply Qle_lteq in Hpos as [Hlt | Heq]; [exact Hlt|]. elim Hz. now symmetry. }
    rewrite <- (Qfloor_zero_iff seconds Hpos). fold a.
    split.
    + intros Hempty. split; [exact Hgt|].
      destruct (Z.eqb_spec (a / 3600) 0) as [Eh | Eh]; cbn [negb maybe app] in Hempty;
        [|apply concat_empty, append_empty in Hempty; discriminate].
      destruct (Z.eqb_spec (a mod 3600 / 60) 0) as [Em | Em]; cbn [negb maybe app] in Hempty;
        [|apply concat_empty, append_empty in Hempty; discriminate].
      destruct (Z.eqb_spec (a mod 60) 0) as [Es | Es]; cbn [negb maybe app] in Hempty;
        [|apply concat_empty, append_empty in Hempty; discriminate].
      lia.
    + intros [_ E]. rewrite E. reflexivity.
Qed.

Lemma X12_formatDuration_witness :
  formatDuration (1 # 2) = EmptyString /\
  formatDuration 3725 = "1h 2m 5s"%string /\
  formatDuration 3605 = "1h 5s"%string /\
  (Timespan.h (extractTimespanComponents 3725) * 3600
   + Timespan.m (extractTimespanComponents 3725) * 60
   + Timespan.s (extractTimespanComponents 3725) = 3725)%Z.
Proof.
  destruct (X12_formatDuration_components (1 # 2)) as (_ & _ & _ & _ & _ & _ & Hempty);
    [discriminate|].
  destruct (X12_formatDuration_components 3725) as (_ & _ & _ & Hsum & _ & Htext & _);
    [discriminate|].
  destruct (X12_formatDuration_components 3605) as (_ & _ & _ & _ & _ & Htext' & _);
    [discriminate|].
  split; [apply Hempty; split; reflexivity|].
  split; [rewrite Htext by discriminate; reflexivity|].
  split; [rewrite Htext' by discriminate; reflexivity|exact Hsum].
Defined.

Lemma extractDateComponents_under_a_month (t : Z) :
  (0 <= t < 2629746)%Z ->
  extractDateComponents (inject_Z t)
  = DateComponents.mk 0 0 (t / 604800) (t mod 604800 / 86400)
      (t mod 86400 / 3600) (t mod 3600 / 60) (t mod 60).
Proof.
  intros Ht. unfold extractDateComponents. rewrite Qfloor_Z. cbv zeta.
  rewrite (Z.rem_mod_nonneg t 31557600) by lia.
  rewrite (Z.mod_small t 31557600) by lia.
  rewrite (Z.rem_mod_nonneg t 2629746) by lia.
  rewrite (Z.mod_small t 2629746) by lia.
  rewrite (Z.rem_mod_nonneg t 604800) by lia.
  pose proof (Z.mod_pos_bound t 604800 ltac:(lia)).
  rewrite (Z.rem_mod_nonneg (t mod 604800) 86400) by lia.
  pose proof (Z.mod_pos_bound (t mod 604800) 86400 ltac:(lia)).
  rewrite (Z.rem_mod_nonneg ((t mod 604800) mod 86400) 3600) by lia.
  pose proof (Z.mod_pos_bound ((t mod 604800) mod 86400) 3600 ltac:(lia)).
  rewrite (Z.rem_mod_nonneg (((t mod 604800) mod 86400) mod 3600) 60) by lia.
  rewrite (Z.div_small t 31557600), (Z.div_small t 2629746) by lia.
  rewrite !(Z.mod_mod_divide t 604800 86400) by (exists 7%Z; reflexivity).
  rewrite !(Z.mod_mod_divide t 86400 3600) by (exists 24%Z; reflexivity).
  rewrite !(Z.mod_mod_divide t 3600 60) by (exists 60%Z; reflexivity).
  reflexivity.
Qed.

Lemma extractDateComponents_floor (q : Q) :
  extractDateComponents q = extractDateComponents (inject_Z (Qfloor q)).
Proof. unfold extractDateComponents. now rewrite Qfloor_Z. Qed.

(** X13. [formatTimeElapsed] leaves whole weeks out: for a date less than
    a month back, the text is the same as for the date one week later, so
    that a date exactly one week back reads [just now] and a date eight days
    back reads [1 day ago]. *)
Theorem X13_formatTimeElapsed_drops_weeks :
  forall now date : Z,
    (0 <= now - date)%Z ->
    (now - date + 604800000 < 2629746000)%Z ->
    formatTimeElapsed now (date - 604800000) = formatTimeElapsed now date.
Proof.
  intros now date Hpast Hmonth. unfold formatTimeElapsed.
  rewrite (extractDateComponents_floor (inject_Z (now - (date - 604800000)) / 1000)).
  rewrite (extractDateComponents_floor (inject_Z (now - date) / 1000)).
  change 1000 with (inject_Z 1000). rewrite !Qfloor_div by lia.
  replace (now - (date - 604800000))%Z with (now - date + 604800 * 1000)%Z by lia.
  rewrite Z.div_add by lia.
  set (t := ((now - date) / 1000)%Z).
  assert (Ht : (0 <= t /\ t + 604800 < 2629746)%Z).
  { subst t. split; [apply Z.div_pos; lia|].
    assert ((now - date) / 1000 < 2024946)%Z; [|lia].
    apply Z.div_lt_upper_bound; lia. }
  rewrite !extractDateComponents_under_a_month by lia.
  cbn [DateComponents.y DateComponents.mo DateComponents.d DateComponents.h
       DateComponents.m DateComponents.s].
  replace ((t + 604800) mod 604800)%Z with (t mod 604800)%Z
    by (symmetry; apply (Z_mod_plus_full t 1 604800)).
  replace ((t + 604800) mod 86400)%Z with (t mod 86400)%Z
    by (symmetry; apply (Z_mod_plus_full t 7 86400)).
  replace ((t + 604800) mod 3600)%Z with (t mod 3600)%Z
    by (symmetry; apply (Z_mod_plus_full t 168 3600)).
  replace ((t + 604800) mod 60)%Z with (t mod 60)%Z
    by (symmetry; apply (Z_mod_plus_full t 10080 60)).
  reflexivity.
Qed.

Lemma X13_formatTimeElapsed_witness :
  formatTimeElapsed 604800000 0 = "just now"%string /\
  formatTimeElapsed 691200000 0 = "1 day ago"%string.
Proof.
  pose proof (X13_formatTimeElapsed_drops_weeks 604800000 604800000
                ltac:(lia) ltac:(lia)) as Hweek.
  pose proof (X13_formatTimeElapsed_drops_weeks 691200000 604800000
                ltac:(lia) ltac:(lia)) as Hdays.
  change (604800000 - 604800000)%Z with 0%Z in Hweek, Hdays.
  rewrite Hweek, Hdays. split; reflexivity.
Defined.

(** ** [hackatimeProjects] *)

Section SortedBy.
Context {T : Type} (compare : T -> T -> Z) (R : T -> T -> Prop).
Hypothesis compare_le : forall x y, (compare x y <= 0)%Z -> R x y.
Hypothesis compare_gt : forall x y, (0 < compare x y)%Z -> R y x.
Hypothesis R_trans : forall x y z, R x y -> R y z -> R x z.

Lemma insertSorted_by x l :
  StronglySorted R l -> StronglySorted R (insertSorted compare x l).
Proof.
  induction 1 as [|y l Hl IH Hy]; simpl.
  - repeat constructor.
  - destruct (Z.leb_spec (compare x y) 0) as [Hc | Hc].
    + constructor; [now constructor|].
      constructor; [now apply compare_le|].
      eapply Forall_impl; [|exact Hy]. intros z Hz.
      apply R_trans with y; [now apply compare_le|exact Hz].
    + constructor; [exact IH|].
      eapply Permutation_Forall; [symmetry; apply insertSorted_perm|].
      constructor; [now apply compare_gt|exact Hy].
Qed.

Lemma toSorted_by (l : list T) : StronglySorted R (toSorted compare l).
Proof.
  induction l as [|x l IH]; simpl; [constructor|]. now apply insertSorted_by.
Qed.
End SortedBy.

Lemma descendingQ_sorted {T : Type} (picker : T -> Q) (l : list T) :
  StronglySorted (fun a b => picker b <= picker a) (toSorted (descendingQ picker) l).
Proof.
  assert (Hsign : forall q : Q, (Qnum q <= 0)%Z <-> q <= 0).
  { intros [n d]. unfold Qle. simpl. lia. }
  apply toSorted_by.
  - intros x y Hc. apply Hsign in Hc. lra.
  - intros x y Hc. unfold descendingQ in Hc.
    assert (~ picker y - picker x <= 0) by (intros H; apply Hsign in H; lia). lra.
  - intros x y z Hxy Hyz. lra.
Qed.

Lemma mapGet_mapSet key value name m :
  mapGet name (mapSet key value m)
  = if String.eqb name key then Some value else mapGet name m.
Proof.
  unfold mapGet. induction m as [|[k v] m IH]; simpl.
  - destruct (String.eqb name key); reflexivity.
  - destruct (String.eqb_spec key k) as [E | Hne]; simpl.
    + rewrite E. destruct (String.eqb name k); reflexivity.
    + destruct (String.eqb_spec name k) as [E | Hnk]; simpl.
      * rewrite E. apply String.eqb_neq in Hne. rewrite String.eqb_sym in Hne.
        now rewrite Hne.
      * exact IH.
Qed.

Lemma mapSet_keys key value m :
  map fst (mapSet key value m)
  = if in_dec string_dec key (map fst m) then map fst m else map fst m ++ [key].
Proof.
  induction m as [|[k v] m IH]; simpl; [reflexivity|].
  destruct (String.eqb_spec key k) as [E | Hne]; simpl.
  - destruct (string_dec k key) as [Hk | Hk]; [reflexivity|now elim Hk].
  - rewrite IH. destruct (string_dec k key) as [E | Hk]; [now elim Hne|].
    destruct (in_dec string_dec key (map fst m)); reflexivity.
Qed.

Lemma mapGet_In name value m :
  NoDup (map fst m) -> In (name, value) m -> mapGet name m = Some value.
Proof.
  unfold mapGet. induction m as [|[k v] m IH]; simpl; [easy|].
  intros Hnd Hin. apply NoDup_cons_iff in Hnd as [Hk Hnd].
  destruct Hin as [[= -> ->] | Hin].
  - now rewrite String.eqb_refl.
  - destruct (String.eqb_spec name k) as [-> | Hne]; [|now apply IH].
    elim Hk. change k with (fst (k, value)). now apply in_map.
Qed.

Lemma aggregate_spec timelapses : forall projects,
  Forall (fun t => TimelapseRow.hackatimeProject t <> None) timelapses ->
  NoDup (map fst projects) ->
  exists projects',
    aggregate timelapses projects = Normal projects' /\
    NoDup (map fst projects') /\
    (forall name,
        nullish (mapGet name projects') 0
        == nullish (mapGet name projects) 0 + timeOf name timelapses) /\
    (forall name,
        In name (map fst projects') <->
        In name (map fst projects) \/
        exists t, In t timelapses /\ TimelapseRow.hackatimeProject t = Some name).
Proof.
  induction timelapses as [|t rest IH]; intros projects Hall Hnd; simpl.
  - exists projects. split; [reflexivity|]. split; [exact Hnd|].
    split; [intros; ring|]. intros name. split; [auto|].
    intros [H | (t & [] & _)]; exact H.
  - apply Forall_cons_iff in Hall as [Ht Hall].
    destruct (TimelapseRow.hackatimeProject t) as [p|] eqn:Hp; [|now elim Ht].
    set (m1 := mapSet p (nullish (mapGet p projects) 0 + TimelapseRow.duration t) projects).
    assert (Hnd1 : NoDup (map fst m1)).
    { unfold m1. rewrite mapSet_keys.
      destruct (in_dec string_dec p (map fst projects)); [exact Hnd|].
      apply NoDup_app; [exact Hnd|repeat constructor; easy|].
      intros x Hx [<- | []]. contradiction. }
    destruct (IH m1 Hall Hnd1) as (m' & Hrun & Hnd' & Hval & Hkeys).
    exists m'. split; [exact Hrun|]. split; [exact Hnd'|]. split.
    + intros name. rewrite Hval. unfold m1. rewrite mapGet_mapSet.
      destruct (String.eqb_spec name p) as [-> | Hne]; simpl; ring.
    + intros name. rewrite Hkeys. unfold m1. rewrite mapSet_keys. split.
      * intros [Hin | (t' & Ht' & Hproj)]; [|right; exists t'; auto].
        destruct (in_dec string_dec p (map fst projects)); [now left|].
        apply in_app_or in Hin as [Hin | [<- | []]]; [now left|].
        right. exists t. auto.
      * intros [Hin | (t' & [<- | Ht'] & Hproj)].
        -- left. destruct (in_dec string_dec p (map fst projects)); [exact Hin|].
           apply in_or_app. now left.
        -- left. rewrite Hp in Hproj. injection Hproj as ->.
           destruct (in_dec string_dec name (map fst projects)); [assumption|].
           apply in_or_app. right. now left.
        -- right. exists t'. auto.
Qed.

Lemma outputSchema_spec projects :
  outputSchema projects = true <->
  forall p, In p projects -> Project.name p <> EmptyString /\ 0 <= Project.time p.
Proof.
  unfold outputSchema. rewrite forallb_forall.
  split; intros H p Hp; specialize (H p Hp).
  - apply andb_prop in H as [Hn Ht]. split; [|now apply Qle_bool_iff].
    intros E. rewrite E in Hn. discriminate.
  - destruct H as [Hn Ht]. apply andb_true_intro. split; [|now apply Qle_bool_iff].
    destruct (Project.name p); [now elim Hn|reflexivity].
Qed.

Lemma aggregate_null timelapses :
  (exists t, In t timelapses /\ TimelapseRow.hackatimeProject t = None) ->
  forall projects,
    aggregate timelapses projects
    = Throw "Timelapse had hackatimeProject == null when { not: null } was specified".
Proof.
  intros (t & Hin & Hnone).
  induction timelapses as [|t' rest IH]; intros projects; [easy|]. simpl.
  destruct (TimelapseRow.hackatimeProject t') eqn:Hp; [|reflexivity].
  destruct Hin as [-> | Hin]; [congruence|now apply IH].
Qed.

(** X14. [hackatimeProjects] throws for a caller who is not logged in, on
    a rejection of the database, and on a row without a project.  For rows
    that all name a project, the query builds one entry per project named,
    each carrying the sum of the durations of that project's rows, in
    non-increasing order of that sum; the procedure replies with these entries
    when every name has a character and no sum is below zero, and the output
    schema makes it throw otherwise. *)
Theorem X14_projects_aggregated_and_sorted :
  forall user timelapses,
    let named name :=
      exists t, In t timelapses /\ TimelapseRow.hackatimeProject t = Some name in
    let valid :=
      forall name, named name -> name <> EmptyString /\ 0 <= timeOf name timelapses in
    (forall findMany,
        hackatimeProjects None findMany = Throw "Authentication required") /\
    (forall e, hackatimeProjects (Some user) (Throw e) = Throw e) /\
    ((exists t, In t timelapses /\ TimelapseRow.hackatimeProject t = None) ->
     hackatimeProjects (Some user) (Normal timelapses)
     = Throw "Timelapse had hackatimeProject == null when { not: null } was specified") /\
    (Forall (fun t => TimelapseRow.hackatimeProject t <> None) timelapses ->
     (valid ->
      exists projects,
        hackatimeProjects (Some user) (Normal timelapses) = Normal projects /\
        NoDup (map Project.name projects) /\
        StronglySorted (fun a b => Project.time b <= Project.time a) projects /\
        (forall p, In p projects ->
                   Project.name p <> EmptyString /\ 0 <= Project.time p /\
                   Project.time p == timeOf (Project.name p) timelapses) /\
        (forall name, In name (map Project.name projects) <-> named name)) /\
     (~ valid ->
      hackatimeProjects (Some user) (Normal timelapses)
      = Throw "Output validation failed")).
Proof.
  intros user timelapses named valid.
  split; [reflexivity|]. split; [reflexivity|]. split.
  { intros Hnull. unfold hackatimeProjects. now rewrite aggregate_null. }
  intros Hall. unfold hackatimeProjects.
  destruct (aggregate_spec timelapses [] Hall (NoDup_nil _))
    as (m & Hrun & Hnd & Hval & Hkeys).
  rewrite Hrun. cbv zeta.
  set (entries := map (fun x => Project.mk (fst x) (snd x)) m).
  set (reply := toSorted (descendingQ Project.time) entries).
  assert (Hperm : Permutation reply entries) by apply toSorted_perm.
  assert (Hnames : map Project.name entries = map fst m)
    by (unfold entries; rewrite map_map; reflexivity).
  assert (Htime : forall p, In p reply ->
                            Project.time p == timeOf (Project.name p) timelapses).
  { intros p Hp. apply (Permutation_in _ Hperm) in Hp.
    unfold entries in Hp. apply in_map_iff in Hp as ([k v] & <- & Hin).
    cbn [Project.time Project.name fst snd].
    specialize (Hval k). rewrite (mapGet_In _ _ _ Hnd Hin) in Hval.
    simpl in Hval. rewrite Hval. ring. }
  assert (Hnamed : forall name, In name (map Project.name reply) <-> named name).
  { intros name. split.
    - intros H. apply (Permutation_in _ (Permutation_map Project.name Hperm)) in H.
      rewrite Hnames in H. apply Hkeys in H as [[] | H]. exact H.
    - intros H. apply Permutation_in with (map Project.name entries);
        [symmetry; apply Permutation_map, Hperm|].
      rewrite Hnames. apply Hkeys. now right. }
  assert (Hschema : outputSchema reply = true <-> valid).
  { rewrite outputSchema_spec. split.
    - intros H name Hname. apply Hnamed, in_map_iff in Hname as (p & <- & Hp).
      destruct (H p Hp) as [Hn Ht]. split; [exact Hn|]. now rewrite <- (Htime p Hp).
    - intros H p Hp.
      destruct (H (Project.name p)) as [Hn Ht]; [apply Hnamed; now apply in_map|].
      split; [exact Hn|]. now rewrite (Htime p Hp). }
  split.
  - intros Hvalid. rewrite (proj2 Hschema Hvalid).
    exists reply. split; [reflexivity|]. split; [|split; [|split]].
    + eapply Permutation_NoDup; [symmetry; apply Permutation_map, Hperm|].
      now rewrite Hnames.
    + apply descendingQ_sorted.
    + intros p Hp.
      destruct (proj1 (outputSchema_spec reply) (proj2 Hschema Hvalid) p Hp) as [Hn Ht].
      split; [exact Hn|]. split; [exact Ht|now apply Htime].
    + exact Hnamed.
  - intros Hinvalid. destruct (outputSchema reply); [|reflexivity].
    elim Hinvalid. now apply Hschema.
Qed.

Lemma X14_projects_witness :
  (exists projects,
      hackatimeProjects (Some "u"%string) (Normal threeRows) = Normal projects /\
      map Project.name projects = ["site"; "lapse"]%string /\
      StronglySorted (fun a b => Project.time b <= Project.time a) projects) /\
  hackatimeProjects (Some "u"%string) (Normal negativeRow)
  = Throw "Output validation failed".
Proof.
  split.
  - destruct (X14_projects_aggregated_and_sorted "u"%string threeRows)
      as (_ & _ & _ & H).
    destruct H as [H _]; [repeat constructor; discriminate|].
    destruct H as (projects & Hrun & _ & Hsorted & _).
    + intros name (t & Hin & Hname).
      destruct Hin as [<- | [<- | [<- | []]]]; injection Hname as <-;
        (split; [discriminate|vm_compute; discriminate]).
    + exists projects. split; [exact Hrun|]. split; [|exact Hsorted].
      vm_compute in Hrun. injection Hrun as <-. reflexivity.
  - destruct (X14_projects_aggregated_and_sorted "u"%string negativeRow)
      as (_ & _ & _ & H).
    destruct H as [_ H]; [repeat constructor; discriminate|].
    apply H. intros Hvalid.
    destruct (Hvalid "a"%string) as [_ Hneg].
    + exists (TimelapseRow.mk (Some "a"%string) (-1)). split; [now left|reflexivity].
    + vm_compute in Hneg. now apply Hneg.
Defined.

(** ** The user's top projects *)

Lemma slice_firstn {T : Type} (array : list T) (m : nat) :
  slice array 0 (Z.of_nat m) = firstn m array.
Proof. exact (slice_block array 0 m (Nat.le_0_l _)). Qed.

Lemma firstn_In {T : Type} (n : nat) (l : list T) (x : T) :
  In x (firstn n l) -> In x l.
Proof.
  intros H. rewrite <- (firstn_skipn n l). apply in_or_app. now left.
Qed.

Lemma firstn_sorted {T : Type} (R : T -> T -> Prop) (n : nat) (l : list T) :
  StronglySorted R l -> StronglySorted R (firstn n l).
Proof.
  intros Hs. revert n. induction Hs as [|x l Hl IH Hx]; intros [|n]; simpl;
    try constructor; [apply IH|].
  apply Forall_forall. intros y Hy. apply firstn_In in Hy.
  revert y Hy. now apply Forall_forall.
Qed.

(** X15. The top projects are the first five of the projects in
    non-increasing order of time, or all of them when there are fewer.  When
    no time is negative and some time is above zero, every percentage lies
    between 0 and 1, the percentages do not increase down the list, and the
    first one is 1. *)
Theorem X15_top_projects_percentages :
  forall projects,
    List.length (topUserProjects projects) = Nat.min 5 (List.length projects) /\
    map TopProject.name (topUserProjects projects)
    = map Project.name (firstn 5 (toSorted (descendingQ Project.time) projects)) /\
    (Forall (fun p => 0 <= Project.time p) projects ->
     (exists p, In p projects /\ 0 < Project.time p) ->
     Forall (fun t => 0 <= TopProject.percentage t /\ TopProject.percentage t <= 1)
            (topUserProjects projects) /\
     StronglySorted (fun a b => TopProject.percentage b <= TopProject.percentage a)
                    (topUserProjects projects) /\
     (forall t, hd_error (topUserProjects projects) = Some t ->
                TopProject.percentage t == 1)).
Proof.
  intros projects. unfold topUserProjects.
  change 5%Z with (Z.of_nat 5). rewrite slice_firstn.
  set (sorted := toSorted (descendingQ Project.time) projects).
  assert (Hperm : Permutation sorted projects) by apply toSorted_perm.
  assert (Hsorted : StronglySorted (fun a b => Project.time b <= Project.time a) sorted)
    by apply descendingQ_sorted.
  split; [|split].
  - rewrite length_map, length_firstn, (Permutation_length Hperm). reflexivity.
  - rewrite map_map. reflexivity.
  - intros Hnonneg (p & Hp & Hpos).
    destruct sorted as [|top rest] eqn:Hs.
    { apply Permutation_nil in Hperm. now subst projects. }
    change (firstn 5 (top :: rest)) with (top :: firstn 4 rest).
    apply StronglySorted_inv in Hsorted as [Hrest Htop].
    assert (Htoppos : 0 < Project.time top).
    { apply (Permutation_in _ (Permutation_sym Hperm)) in Hp.
      destruct Hp as [<- | Hp]; [exact Hpos|].
      eapply Qlt_le_trans; [exact Hpos|].
      clear Hpos. revert p Hp. now apply Forall_forall. }
    assert (Hall : Forall (fun x => 0 <= Project.time x /\ Project.time x <= Project.time top)
                          (top :: firstn 4 rest)).
    { apply Forall_forall. intros x Hx.
      split.
      - assert (Hin : In x projects).
        { apply (Permutation_in _ Hperm). destruct Hx as [<- | Hx]; [now left|].
          right. now apply firstn_In in Hx. }
        clear Hx. revert x Hin. now apply Forall_forall.
      - destruct Hx as [<- | Hx]; [apply Qle_refl|].
        apply firstn_In in Hx. revert x Hx. now apply Forall_forall. }
    cbn [nth]. split; [|split].
    + apply Forall_map. eapply Forall_impl; [|exact Hall].
      intros x [Hlo Hhi]. cbn [TopProject.percentage]. split.
      * apply Qle_shift_div_l; [exact Htoppos|]. now rewrite Qmult_0_l.
      * apply Qle_shift_div_r; [exact Htoppos|]. now rewrite Qmult_1_l.
    + assert (Hs4 : StronglySorted (fun a b => Project.time b <= Project.time a)
                                   (top :: firstn 4 rest)).
      { constructor; [now apply firstn_sorted|].
        apply Forall_forall. intros y Hy. apply firstn_In in Hy.
        revert y Hy. now apply Forall_forall. }
      clear - Hs4 Htoppos. induction Hs4 as [|x l Hl IH Hx]; simpl; constructor;
        [exact IH|].
      apply Forall_map. eapply Forall_impl; [|exact Hx].
      intros y Hy. cbn [TopProject.percentage].
      apply Qmult_le_compat_r; [exact Hy|].
      apply Qlt_le_weak, Qinv_lt_0_compat, Htoppos.
    + simpl. intros t [= <-]. cbn [TopProject.percentage].
      apply Qmult_inv_r. intros E. rewrite E in Htoppos. now apply Qlt_irrefl in Htoppos.
Qed.

Lemma X15_top_projects_witness :
  map TopProject.name (topUserProjects fourProjects) = ["b"; "d"; "a"; "c"]%string /\
  (forall t, hd_error (topUserProjects fourProjects) = Some t ->
             TopProject.percentage t == 1).
Proof.
  destruct (X15_top_projects_percentages fourProjects) as (_ & Hnames & Hpct).
  split; [rewrite Hnames; reflexivity|].
  apply Hpct.
  - repeat constructor; discriminate.
  - exists (Project.mk "a" 10). split; [now left|reflexivity].
Defined.
